(** * Verification of the Chinook album-import tools

    Shallow embedding of [src/tools/get-albums.py] and
    [src/tools/shift-dates.py].

    Conventions of the embedding:
    - a Python [str] is a [string]; the development covers ASCII text
      (for such text [str.lower] and the regular-expression class [\d]
      are the ASCII ones);
    - a Python [int] is a [Z];
    - a [dict] that is only looked up is a [gmap]; a [dict] that is
      iterated is an association list kept in insertion order;
    - calls to [random] and to the network read an explicit oracle. *)

From Stdlib Require Import ZArith String Ascii List Lia.
From Stdlib Require Import Numbers.DecimalString.
From stdpp Require Import base gmap strings list.
From Equations Require Import Equations.

Open Scope Z_scope.

(** ** Python strings *)

Module PyStr.

(** The line feed character and the one-character string holding it. *)
Definition lf : ascii := ascii_of_nat 10.
Definition nl : string := String lf EmptyString.

(** The single quote. *)
Definition quote : ascii := "'"%char.

(** [str(n)] and [f"{n}"] for an [int]. *)
Definition str_of_int (n : Z) : string := NilZero.string_of_int (Z.to_int n).

(** [sep.join(parts)]. *)
Definition join (sep : string) (parts : list string) : string :=
  String.concat sep parts.

(** [s.startswith(p)], used to decide the [in] operator below. *)
Fixpoint startswith (p s : string) : bool :=
  match p, s with
  | EmptyString, _ => true
  | String a p', String b s' => if Ascii.eqb a b then startswith p' s' else false
  | String _ _, EmptyString => false
  end.

(** [k in s] for two strings: [k] occurs in [s] as a substring. *)
Fixpoint contains (k s : string) : bool :=
  startswith k s ||
  match s with
  | EmptyString => false
  | String _ s' => contains k s'
  end.

(** [c.lower()] on one ASCII character. *)
Definition lower_ascii (c : ascii) : ascii :=
  let n := nat_of_ascii c in
  if ((65 <=? n)%nat && (n <=? 90)%nat)%bool then ascii_of_nat (n + 32) else c.

(** [s.lower()]. *)
Fixpoint lower (s : string) : string :=
  match s with
  | EmptyString => EmptyString
  | String c s' => String (lower_ascii c) (lower s')
  end.

(** [c.isdigit()] for one ASCII character, the class [\d]. *)
Definition is_digit (c : ascii) : bool :=
  let n := nat_of_ascii c in ((48 <=? n)%nat && (n <=? 57)%nat)%bool.

(** [int(s)] for a string of ASCII digits. *)
Fixpoint int_of_digits_acc (acc : Z) (s : string) : Z :=
  match s with
  | EmptyString => acc
  | String c s' => int_of_digits_acc (10 * acc + Z.of_nat (nat_of_ascii c - 48)) s'
  end.

Definition int_of_digits (s : string) : Z := int_of_digits_acc 0 s.

(** Every character of [s] satisfies [p]. *)
Fixpoint forallb_string (p : ascii -> bool) (s : string) : bool :=
  match s with
  | EmptyString => true
  | String c s' => p c && forallb_string p s'
  end.

(** The number of occurrences of the character [c] in [s]. *)
Fixpoint count_char (c : ascii) (s : string) : nat :=
  match s with
  | EmptyString => 0%nat
  | String a s' => ((if Ascii.eqb a c then 1 else 0) + count_char c s')%nat
  end.

(** The equations of [+:+], which [simpl] leaves folded, and three
    consequences used throughout. *)
Lemma str_app_cons (x : ascii) (a b : string) :
  (String x a +:+ b = String x (a +:+ b))%string.
Proof. reflexivity. Qed.

Lemma str_app_empty_l (a : string) : ("" +:+ a = a)%string.
Proof. reflexivity. Qed.

Lemma str_app_assoc (a b c : string) : (a +:+ (b +:+ c) = (a +:+ b) +:+ c)%string.
Proof.
  induction a as [|x a' IH]; [reflexivity|].
  rewrite !str_app_cons. by rewrite IH.
Qed.

Lemma str_app_empty_r (a : string) : (a +:+ "" = a)%string.
Proof.
  induction a as [|x a' IH]; [reflexivity|].
  rewrite str_app_cons. by rewrite IH.
Qed.

Lemma str_length_app (a b : string) :
  String.length (a +:+ b) = (String.length a + String.length b)%nat.
Proof.
  induction a as [|x a' IH]; [reflexivity|].
  rewrite str_app_cons. simpl. by rewrite IH.
Qed.

End PyStr.

Import PyStr.

(** ** [ChinookGenreMapper] *)

Module ChinookGenreMapper.

(** [self.genre_mapping], in the order the dictionary literal lists its
    keys, which is the order [items()] iterates them in. *)
Definition genre_mapping : list (string * string) :=
  [ ("rock", "Rock");
    ("metal", "Metal");
    ("hard rock", "Rock");
    ("punk", "Alternative & Punk");
    ("alternative", "Alternative");
    ("indie", "Alternative");
    ("pop", "Pop");
    ("hip hop", "Hip Hop/Rap");
    ("rap", "Hip Hop/Rap");
    ("trap", "Hip Hop/Rap");
    ("r&b", "R&B/Soul");
    ("soul", "R&B/Soul");
    ("jazz", "Jazz");
    ("blues", "Blues");
    ("country", "Country");
    ("folk", "Folk");
    ("classical", "Classical");
    ("edm", "Electronica/Dance");
    ("electronic", "Electronica/Dance");
    ("dance", "Electronica/Dance");
    ("techno", "Electronica/Dance");
    ("house", "Electronica/Dance");
    ("latin", "Latin");
    ("reggae", "Reggae");
    ("reggaeton", "Latin");
    ("world", "World") ]%string.

(** The entries of [self.genre_id_map]. *)
Definition genre_id_table : list (string * Z) :=
  [ ("Rock", 1); ("Jazz", 2); ("Metal", 3); ("Alternative & Punk", 4);
    ("Rock And Roll", 5); ("Blues", 6); ("Latin", 7); ("Reggae", 8);
    ("Pop", 9); ("Soundtrack", 10); ("Bossa Nova", 11);
    ("Easy Listening", 12); ("Heavy Metal", 13); ("R&B/Soul", 14);
    ("Electronica/Dance", 15); ("World", 16); ("Hip Hop/Rap", 17);
    ("Science Fiction", 18); ("TV Shows", 19); ("Sci Fi & Fantasy", 20);
    ("Drama", 21); ("Comedy", 22); ("Alternative", 23); ("Classical", 24);
    ("Opera", 25) ]%string.

Definition genre_id_map : gmap string Z := list_to_map genre_id_table.

(** The [for key, value in self.genre_mapping.items()] loop with its
    early [return]; falling out of the loop returns ["Rock"]. *)
Fixpoint first_match (items : list (string * string)) (spotify_genre : string)
  : string :=
  match items with
  | [] => "Rock"%string
  | (key, value) :: rest =>
      if contains key spotify_genre then value
      else first_match rest spotify_genre
  end.

Definition map_spotify_genre_to_chinook (spotify_genre : string) : string :=
  let spotify_genre := lower spotify_genre in
  first_match genre_mapping spotify_genre.

(** [self.genre_id_map.get(genre_name, 1)]. *)
Definition get_genre_id (genre_name : string) : Z :=
  default 1 (genre_id_map !! genre_name).

End ChinookGenreMapper.

(** ** [SQLGenerator]: escaping and batching *)

Module SQLGenerator.

(** [s.replace("'", "''")]. *)
Fixpoint replace_quote (s : string) : string :=
  match s with
  | EmptyString => EmptyString
  | String c s' =>
      if Ascii.eqb c quote
      then String quote (String quote (replace_quote s'))
      else String c (replace_quote s')
  end.

(** [escape_sql_string(s)]: [None] becomes the empty string, any other
    string has its single quotes doubled. *)
Definition escape_sql_string (s : option string) : string :=
  match s with
  | None => EmptyString
  | Some s => replace_quote s
  end.

(** The inverse reading of an SQL string literal body: a pair of quotes
    stands for one quote; a quote that is not followed by a second one is
    where the literal would end, and the body is rejected. *)
Fixpoint read_literal (s : string) : option string :=
  match s with
  | EmptyString => Some EmptyString
  | String c s' =>
      if Ascii.eqb c quote then
        match s' with
        | String c' s'' =>
            if Ascii.eqb c' quote
            then option_map (String quote) (read_literal s'')
            else None
        | EmptyString => None
        end
      else option_map (String c) (read_literal s')
  end.

(** *** Batching *)

(** The values [range(i, stop, step)] still has to yield, for a positive
    [step]; [fuel] bounds the number of values. *)
Fixpoint range_loop (fuel i stop step : nat) : list nat :=
  match fuel with
  | O => []
  | S fuel' =>
      if (i <? stop)%nat then i :: range_loop fuel' (i + step) stop step
      else []
  end.

(** [range(0, stop, step)]: a zero step raises [ValueError] ([None]
    here), a negative step gives the empty range. With a positive step at
    most [stop] values are below [stop], so [stop] is enough fuel. *)
Definition py_range (stop : nat) (step : Z) : option (list nat) :=
  if step =? 0 then None
  else if step <? 0 then Some []
  else Some (range_loop stop 0 stop (Z.to_nat step)).

(** The slice [l[i:j]] for [0 <= i <= j]. *)
Definition slice {A} (l : list A) (i j : nat) : list A :=
  take (j - i) (drop i l).

(** [list(chunk_list(input_list, chunk_size))]. *)
Definition chunk_list {A} (input_list : list A) (chunk_size : Z)
  : option (list (list A)) :=
  match py_range (length input_list) chunk_size with
  | None => None
  | Some starts =>
      Some (map (fun i => slice input_list i (i + Z.to_nat chunk_size)) starts)
  end.

(** *** Input records

    [TrackInfo] is the tuple [(track_name, duration_ms, composer)] and
    [AlbumInfo] the tuple
    [(artist_name, album_name, release_year, genre, tracks)]. *)

Record TrackInfo := mkTrackInfo {
  track_name : string;
  duration_ms : Z;
  composer : string }.

Record AlbumInfo := mkAlbumInfo {
  artist_name : string;
  album_name : string;
  release_year : Z;
  genre : string;
  tracks : list TrackInfo }.

(** *** Rows

    The tuples appended to [new_artists], [new_albums] and [new_tracks],
    and the values stored in [album_map]. *)

Record ArtistRow := mkArtistRow {
  ar_artist_id : Z;
  ar_name : string }.

Record AlbumRow := mkAlbumRow {
  al_album_id : Z;
  al_title : string;
  al_artist_id : Z;
  al_release_year : Z }.

Record AlbumEntry := mkAlbumEntry {
  ae_album_name : string;
  ae_artist_id : Z;
  ae_genre : string;
  ae_tracks : list TrackInfo }.

(** [media_types = [1, 2, 4, 5]]: the value [random.choices] picks. *)
Inductive MediaType := MPEG | ProtectedAAC | PurchasedAAC | AAC.

Definition media_type_id (m : MediaType) : Z :=
  match m with
  | MPEG => 1
  | ProtectedAAC => 2
  | PurchasedAAC => 4
  | AAC => 5
  end.

(** The two prices [0.99] and [1.29], with their [f"{...}"] rendering. *)
Inductive UnitPrice := Price_0_99 | Price_1_29.

Definition str_of_price (p : UnitPrice) : string :=
  match p with
  | Price_0_99 => "0.99"
  | Price_1_29 => "1.29"
  end.

(** What the calls to [random] give for one track: the media type, the
    value of [random.randint(35, 45)] as an offset from 35, and the
    price. *)
Record Draw := mkDraw {
  draw_media : MediaType;
  draw_offset : nat;
  draw_price : UnitPrice }.

Definition randint_35_45 (d : Draw) : Z := 35 + Z.of_nat (draw_offset d mod 11).

Record TrackRow := mkTrackRow {
  tr_track_id : Z;
  tr_name : string;
  tr_album_id : Z;
  tr_media_type_id : Z;
  tr_genre_id : Z;
  tr_composer : string;
  tr_milliseconds : Z;
  tr_bytes : Z;
  tr_unit_price : UnitPrice }.

(** *** Dictionaries that are iterated

    [d[k] = v] on a dictionary kept as its [items()] in insertion order:
    an existing key keeps its place and takes the new value, a new key
    goes last. *)
Fixpoint dict_set {V} (d : list (Z * V)) (k : Z) (v : V) : list (Z * V) :=
  match d with
  | [] => [(k, v)]
  | (k', v') :: d' =>
      if Z.eqb k' k then (k, v) :: d' else (k', v') :: dict_set d' k v
  end.

(** Truth value of an [int]: only [0] is false. ([None], the other value
    [artist_ids.get] can give, is false as well: see [album_step].) *)
Definition truthy (n : Z) : bool := negb (n =? 0).

(** *** The three loops of [generate_sql] *)

(** State of the artist loop. *)
Record ArtistState := mkArtistState {
  artist_ids : gmap string Z;
  new_artists : list ArtistRow;
  next_artist_id : Z }.

(** One iteration of [for album_data in albums] (artists). *)
Definition artist_step (st : ArtistState) (album_data : AlbumInfo) : ArtistState :=
  let artist_name := escape_sql_string (Some (artist_name album_data)) in
  match artist_ids st !! artist_name with
  | Some _ => st
  | None =>
      {| artist_ids := <[artist_name := next_artist_id st]> (artist_ids st);
         new_artists := new_artists st ++ [mkArtistRow (next_artist_id st) artist_name];
         next_artist_id := next_artist_id st + 1 |}
  end.

Definition artist_loop (albums : list AlbumInfo) (max_artist_id : Z) : ArtistState :=
  fold_left artist_step albums
    {| artist_ids := ∅; new_artists := []; next_artist_id := max_artist_id + 1 |}.

(** State of the album loop. *)
Record AlbumState := mkAlbumState {
  new_albums : list AlbumRow;
  album_map : list (Z * AlbumEntry);
  next_album_id : Z }.

(** One iteration of [for album_data in albums] (albums). *)
Definition album_step (ids : gmap string Z) (st : AlbumState)
    (album_data : AlbumInfo) : AlbumState :=
  let artist_name := escape_sql_string (Some (artist_name album_data)) in
  let album_name := escape_sql_string (Some (album_name album_data)) in
  match ids !! artist_name with
  | Some artist_id =>
      if truthy artist_id then
        {| new_albums :=
             new_albums st ++
             [mkAlbumRow (next_album_id st) album_name artist_id
                (release_year album_data)];
           album_map :=
             dict_set (album_map st) (next_album_id st)
               (mkAlbumEntry album_name artist_id (genre album_data)
                  (tracks album_data));
           next_album_id := next_album_id st + 1 |}
      else st
  | None => st
  end.

Definition album_loop (ids : gmap string Z) (albums : list AlbumInfo)
    (max_album_id : Z) : AlbumState :=
  fold_left (album_step ids) albums
    {| new_albums := []; album_map := []; next_album_id := max_album_id + 1 |}.

(** State of the track loop; the draw a track reads is indexed by the
    number of tracks appended before it. *)
Record TrackState := mkTrackState {
  new_tracks : list TrackRow;
  next_track_id : Z }.

(** One iteration of [for track_data in tracks]. *)
Definition track_step (rng : nat -> Draw) (album_id genre_id : Z)
    (st : TrackState) (track_data : TrackInfo) : TrackState :=
  let track_name := escape_sql_string (Some (track_name track_data)) in
  let composer := escape_sql_string (Some (composer track_data)) in
  let d := rng (length (new_tracks st)) in
  let media_type_id := media_type_id (draw_media d) in
  let bytes_size := duration_ms track_data * randint_35_45 d in
  let unit_price := draw_price d in
  {| new_tracks :=
       new_tracks st ++
       [mkTrackRow (next_track_id st) track_name album_id media_type_id genre_id
          composer (duration_ms track_data) bytes_size unit_price];
     next_track_id := next_track_id st + 1 |}.

(** One iteration of [for album_id, album_info in album_map.items()]. *)
Definition album_tracks_step (rng : nat -> Draw) (st : TrackState)
    (item : Z * AlbumEntry) : TrackState :=
  let '(album_id, album_info) := item in
  let genre_id := ChinookGenreMapper.get_genre_id (ae_genre album_info) in
  fold_left (track_step rng album_id genre_id) (ae_tracks album_info) st.

Definition track_loop (rng : nat -> Draw) (album_map : list (Z * AlbumEntry))
    (max_track_id : Z) : TrackState :=
  fold_left (album_tracks_step rng) album_map
    {| new_tracks := []; next_track_id := max_track_id + 1 |}.

(** *** Rendering *)

(** [_generate_header()]; [now] is the formatted
    [datetime.now().strftime('%Y-%m-%d %H:%M:%S')]. *)
Definition _generate_header (now : string) : string :=
  join nl
    [ "/*******************************************************************************";
      "   Chinook Database - Album Import";
      "   Description: Adds new albums, artists, and tracks from Spotify API.";
      "   Date Generated: " +:+ now;
      "********************************************************************************/";
      "" ]%string.

(** The four strings one batch appends to [sql_parts]; [i] is the index
    [enumerate] gives and [n] is [len(batches)]. *)
Definition batch_parts {R} (kind insert_into : string) (render : R -> string)
    (n : nat) (i : nat) (batch : list R) : list string :=
  [ "-- " +:+ kind +:+ " insert batch " +:+ str_of_int (Z.of_nat i + 1)
      +:+ " of " +:+ str_of_int (Z.of_nat n);
    insert_into;
    join ("," +:+ nl) (map render batch) +:+ ";";
    "" ]%string.

(** The body shared by [_generate_artist_sql], [_generate_album_sql] and
    [_generate_track_sql]: split into batches, append four strings per
    batch, join with line feeds. A zero batch size raises [ValueError]. *)
Definition generate_batched_sql {R} (kind insert_into : string)
    (render : R -> string) (max_rows_per_batch : Z) (rows : list R)
  : option string :=
  match chunk_list rows max_rows_per_batch with
  | None => None
  | Some batches =>
      let sql_parts :=
        concat (imap (batch_parts kind insert_into render (length batches)) batches) in
      Some (join nl sql_parts)
  end.

Definition render_artist (r : ArtistRow) : string :=
  ("    (" +:+ str_of_int (ar_artist_id r) +:+ ", '" +:+ ar_name r +:+ "')")%string.

Definition render_album (r : AlbumRow) : string :=
  ("    (" +:+ str_of_int (al_album_id r) +:+ ", '" +:+ al_title r +:+ "', "
     +:+ str_of_int (al_artist_id r) +:+ ", " +:+ str_of_int (al_release_year r)
     +:+ ")")%string.

Definition render_track (r : TrackRow) : string :=
  ("    (" +:+ str_of_int (tr_track_id r) +:+ ", '" +:+ tr_name r +:+ "', "
     +:+ str_of_int (tr_album_id r) +:+ ", " +:+ str_of_int (tr_media_type_id r)
     +:+ ", " +:+ str_of_int (tr_genre_id r) +:+ ", "
     +:+ "'" +:+ tr_composer r +:+ "', " +:+ str_of_int (tr_milliseconds r)
     +:+ ", " +:+ str_of_int (tr_bytes r) +:+ ", "
     +:+ str_of_price (tr_unit_price r) +:+ ")")%string.

Definition _generate_artist_sql (max_rows_per_batch : Z) (artists : list ArtistRow)
  : option string :=
  generate_batched_sql "Artist" "INSERT INTO Artist (ArtistId, Name) VALUES"
    render_artist max_rows_per_batch artists.

Definition _generate_album_sql (max_rows_per_batch : Z) (albums : list AlbumRow)
  : option string :=
  generate_batched_sql "Album"
    "INSERT INTO Album (AlbumId, Title, ArtistId, ReleaseYear) VALUES"
    render_album max_rows_per_batch albums.

Definition _generate_track_sql (max_rows_per_batch : Z) (tracks : list TrackRow)
  : option string :=
  generate_batched_sql "Track"
    "INSERT INTO Track (TrackId, Name, AlbumId, MediaTypeId, GenreId, Composer, Milliseconds, Bytes, UnitPrice) VALUES"
    render_track max_rows_per_batch tracks.

(** [if rows: sql_parts.append(gen(rows))]. *)
Definition append_if_rows {R} (gen : list R -> option string) (rows : list R)
    (sql_parts : list string) : option (list string) :=
  match rows with
  | [] => Some sql_parts
  | _ :: _ =>
      match gen rows with
      | None => None
      | Some sql => Some (sql_parts ++ [sql])
      end
  end.

(** *** [generate_sql] *)

(** The rows [generate_sql] builds before it renders them. *)
Definition artist_rows (albums : list AlbumInfo) (max_artist_id : Z) : list ArtistRow :=
  new_artists (artist_loop albums max_artist_id).

Definition album_state (albums : list AlbumInfo) (max_artist_id max_album_id : Z)
  : AlbumState :=
  album_loop (artist_ids (artist_loop albums max_artist_id)) albums max_album_id.

Definition album_rows (albums : list AlbumInfo) (max_artist_id max_album_id : Z)
  : list AlbumRow :=
  new_albums (album_state albums max_artist_id max_album_id).

Definition track_rows (rng : nat -> Draw) (albums : list AlbumInfo)
    (max_artist_id max_album_id max_track_id : Z) : list TrackRow :=
  new_tracks
    (track_loop rng (album_map (album_state albums max_artist_id max_album_id))
       max_track_id).

(** [generate_sql(albums, max_artist_id, max_album_id, max_track_id)] of a
    generator built with [max_rows_per_batch], run at time [now] with the
    random draws [rng]. [None] is the [ValueError] of a zero batch size. *)
Definition generate_sql (max_rows_per_batch : Z) (now : string) (rng : nat -> Draw)
    (albums : list AlbumInfo) (max_artist_id max_album_id max_track_id : Z)
  : option string :=
  let sql_parts := [_generate_header now] in
  let new_artists := artist_rows albums max_artist_id in
  sql_parts ← append_if_rows (_generate_artist_sql max_rows_per_batch)
                 new_artists sql_parts;
  let new_albums := album_rows albums max_artist_id max_album_id in
  sql_parts ← append_if_rows (_generate_album_sql max_rows_per_batch)
                 new_albums sql_parts;
  let new_tracks := track_rows rng albums max_artist_id max_album_id max_track_id in
  sql_parts ← append_if_rows (_generate_track_sql max_rows_per_batch)
                 new_tracks sql_parts;
  Some (join nl sql_parts).

End SQLGenerator.

(** ** [SpotifyClient.make_request] *)

Module SpotifyClient.

(** What [int(e.response.headers.get('Retry-After', 1))] sees when the
    header is present: a value [int] accepts, or one it rejects with
    [ValueError]. *)
Inductive HeaderValue :=
| Seconds (n : Z)
| NotAnInteger (raw : string).

(** What one [requests.get] followed by [raise_for_status] and [json]
    does: it gives the decoded body, or [raise_for_status] raises
    [HTTPError] for the status code of the response, or any other exception
    is raised (connection error, timeout, undecodable body). *)
Inductive Response :=
| Success (body : string)
| HTTPError (status_code : Z) (retry_after : option HeaderValue)
| RequestFailed (e : string).

(** What one call of [_get_token] does. *)
Inductive TokenResult :=
| Token (t : string)
| TokenFailed (e : string).

(** The remote side: the response to the [n]th request of the call and the
    result of the [n]th re-authentication. *)
Record Remote := mkRemote {
  responses : nat -> Response;
  tokens : nat -> TokenResult }.

(** What the call does that can be observed from outside. [_rate_limit]
    reads the clock and may sleep; it is recorded as one event. *)
Inductive Event :=
| RateLimit
| Get (url token : string)
| Sleep (seconds : Z)
| GetToken.

Record Client := mkClient {
  token : string;
  n_requests : nat;
  n_tokens : nat;
  trace : list Event }.

(** The exceptions that leave [make_request]. *)
Inductive Exn :=
| HTTPErrorExn (status_code : Z)
| OriginalExn (e : string)
| ValueErrorExn
| TokenExn (e : string)
| Failure (message : string).

Inductive Result :=
| Returned (body : string)
| Raised (e : Exn)
| OutOfFuel.

Definition max_retries : Z := 3.

Definition emit (ev : Event) (c : Client) : Client :=
  {| token := token c; n_requests := n_requests c; n_tokens := n_tokens c;
     trace := trace c ++ [ev] |}.

(** [requests.get(url, headers=self.headers, params=params)] and the two
    calls on the response. *)
Definition send (r : Remote) (url : string) (c : Client) : Response * Client :=
  let c := emit (Get url (token c)) c in
  (responses r (n_requests c),
   {| token := token c; n_requests := S (n_requests c); n_tokens := n_tokens c;
      trace := trace c |}).

(** [self._get_token()]. *)
Definition _get_token (r : Remote) (c : Client) : TokenResult * Client :=
  let c := emit GetToken c in
  (tokens r (n_tokens c),
   {| token := token c; n_requests := n_requests c; n_tokens := S (n_tokens c);
      trace := trace c |}).

Definition set_token (t : string) (c : Client) : Client :=
  {| token := t; n_requests := n_requests c; n_tokens := n_tokens c;
     trace := trace c |}.

(** [int(e.response.headers.get('Retry-After', 1))]; [None] is the
    [ValueError] of [int]. *)
Definition retry_after_seconds (h : option HeaderValue) : option Z :=
  match h with
  | None => Some 1
  | Some (Seconds n) => Some n
  | Some (NotAnInteger _) => None
  end.

(** [time.sleep(seconds)], which rejects a negative length with
    [ValueError] ([None]). *)
Definition sleep (seconds : Z) (c : Client) : option Client :=
  if seconds <? 0 then None else Some (emit (Sleep seconds) c).

Definition failure_message (url : string) : string :=
  ("Failed to get response from " +:+ url +:+ " after "
     +:+ str_of_int max_retries +:+ " retries")%string.

(** The [while retry_count < max_retries] loop and the [raise] after it.
    Every iteration that goes round again has incremented [retry_count];
    [fuel] bounds the iterations. *)
Fixpoint request_loop (r : Remote) (url : string) (fuel : nat) (retry_count : Z)
    (c : Client) : Result * Client :=
  if retry_count <? max_retries then
    match fuel with
    | O => (OutOfFuel, c)
    | S fuel' =>
        let c := emit RateLimit c in
        let '(resp, c) := send r url c in
        match resp with
        | Success body => (Returned body, c)
        | HTTPError status_code h =>
            if status_code =? 429 then
              match retry_after_seconds h with
              | None => (Raised ValueErrorExn, c)
              | Some retry_after =>
                  match sleep retry_after c with
                  | None => (Raised ValueErrorExn, c)
                  | Some c => request_loop r url fuel' (retry_count + 1) c
                  end
              end
            else if status_code =? 401 then
              match _get_token r c with
              | (TokenFailed e, c) => (Raised (TokenExn e), c)
              | (Token t, c) =>
                  request_loop r url fuel' (retry_count + 1) (set_token t c)
              end
            else (Raised (HTTPErrorExn status_code), c)
        | RequestFailed e =>
            let retry_count := retry_count + 1 in
            if retry_count <? max_retries then
              match sleep (2 ^ retry_count) c with
              | None => (Raised ValueErrorExn, c)
              | Some c => request_loop r url fuel' retry_count c
              end
            else (Raised (OriginalExn e), c)
        end
    end
  else (Raised (Failure (failure_message url)), c).

(** [make_request(url, params)] on a client whose token is [t]. *)
Definition make_request (r : Remote) (url : string) (t : string) : Result * Client :=
  request_loop r url (Z.to_nat max_retries) 0
    {| token := t; n_requests := 0; n_tokens := 0; trace := [] |}.

End SpotifyClient.

(** ** [shift-dates.py] *)

Module ShiftDates.

(** A literal piece of the pattern: [s] with the prefix [p] removed. *)
Fixpoint expect (p s : string) : option string :=
  match p, s with
  | EmptyString, _ => Some s
  | String a p', String b s' => if Ascii.eqb a b then expect p' s' else None
  | String _ _, EmptyString => None
  end.

(** A greedy run of at most [n] digits at the head of [s], and what
    follows it. *)
Fixpoint digits (n : nat) (s : string) : string * string :=
  match n, s with
  | S n', String c s' =>
      if is_digit c
      then let '(d, rest) := digits n' s' in (String c d, rest)
      else (EmptyString, s)
  | _, _ => (EmptyString, s)
  end.

(** A match object: the three groups, and the text after the match. *)
Record Match := mkMatch {
  group1 : string;
  group2 : string;
  group3 : string;
  after : string }.

(** [date_pattern.match(s)]: the groups and the text after the match of
    [date '(\d{4})-(\d{1,3})-(\d{1,3})'] at the head of [s]. Each group of
    digits is followed in the pattern by a character that is not a digit,
    so only the longest run of digits can be followed by a match of the
    rest, and the greedy choice is the only one backtracking could settle
    on. *)
Definition match_date (s : string) : option Match :=
  s ← expect "date '" s;
  let '(year, s) := digits 4 s in
  if negb (String.length year =? 4)%nat then None else
  s ← expect "-" s;
  let '(month, s) := digits 3 s in
  if (String.length month =? 0)%nat then None else
  s ← expect "-" s;
  let '(day, s) := digits 3 s in
  if (String.length day =? 0)%nat then None else
  s ← expect "'" s;
  Some (mkMatch year month day s).

(** The text [date 'year-month-day']. *)
Definition date_literal (year month day : string) : string :=
  ("date '" +:+ year +:+ "-" +:+ month +:+ "-" +:+ day +:+ "'")%string.

(** [replace_date(match)]. *)
Definition replace_date (m : Match) : string :=
  let year := int_of_digits (group1 m) - 1 in
  let month := group2 m in
  let day := group3 m in
  date_literal (str_of_int year) month day.

(** Reduce a bind of the option monad whose argument is now known. *)
Ltac step_bind H :=
  cbv beta iota delta [mbind option_bind] in H; try discriminate H.

Lemma expect_app p s r : expect p s = Some r -> s = (p +:+ r)%string.
Proof.
  revert s. induction p as [|a p IH]; intros s; simpl.
  - by intros [= ->].
  - destruct s as [|b s]; [discriminate|].
    destruct (Ascii.eqb_spec a b) as [->|]; [|discriminate].
    intros H. by rewrite (IH _ H).
Qed.

Lemma digits_app n s d r : digits n s = (d, r) -> s = (d +:+ r)%string.
Proof.
  revert s d r. induction n as [|n IH]; intros [|c s] d r; simpl;
    try (intros [= <- <-]; reflexivity).
  destruct (is_digit c); [|intros [= <- <-]; reflexivity].
  destruct (digits n s) as [d' r'] eqn:E. intros [= <- <-].
  simpl. by rewrite (IH _ _ _ E).
Qed.

(** A match is the literal it describes followed by the rest. *)
Lemma match_date_app s m :
  match_date s = Some m ->
  s = (date_literal (group1 m) (group2 m) (group3 m) +:+ after m)%string.
Proof.
  unfold match_date. intros H.
  destruct (expect "date '" s) as [s1|] eqn:E1; step_bind H.
  destruct (digits 4 s1) as [y s2] eqn:E2.
  destruct (negb (String.length y =? 4)%nat); [discriminate|].
  destruct (expect "-" s2) as [s3|] eqn:E3; step_bind H.
  destruct (digits 3 s3) as [mo s4] eqn:E4.
  destruct (String.length mo =? 0)%nat; [discriminate|].
  destruct (expect "-" s4) as [s5|] eqn:E5; step_bind H.
  destruct (digits 3 s5) as [d s6] eqn:E6.
  destruct (String.length d =? 0)%nat; [discriminate|].
  destruct (expect "'" s6) as [s7|] eqn:E7; step_bind H.
  injection H as <-. simpl.
  apply expect_app in E1, E3, E5, E7. apply digits_app in E2, E4, E6.
  subst. unfold date_literal.
  rewrite <- !str_app_assoc. reflexivity.
Qed.

Lemma match_date_shorter s m :
  match_date s = Some m -> (String.length (after m) < String.length s)%nat.
Proof.
  intros H. apply match_date_app in H. rewrite H.
  unfold date_literal. rewrite !str_length_app. simpl. lia.
Qed.

(** [date_pattern.sub(replace_date, line)]: scan from the left; where the
    pattern matches, write the replacement and go on after the match;
    elsewhere copy one character. *)
Equations? sub (line : string) : string by wf (String.length line) lt :=
sub EmptyString := EmptyString;
sub (String c s) with Logic.inspect (match_date (String c s)) := {
  | exist _ (Some m) E => replace_date m +:+ sub (after m);
  | exist _ None _ => String c (sub s) }.
Proof. apply (match_date_shorter _ _ E). Qed.

(** The loop of [shift_dates] over the lines of the input file; the
    result is the list of the lines written to the output file. *)
Definition shift_dates (infile : list string) : list string :=
  map sub infile.

End ShiftDates.

(** * Properties of [SQLGenerator.generate_sql] *)

Module SQLGeneratorFacts.

Import SQLGenerator.

(** ** What the loops compute, in closed form *)

(** The escaped artist name of an album, the key of [artist_ids]. *)
Definition artist_key (a : AlbumInfo) : string :=
  escape_sql_string (Some (artist_name a)).

(** The names of [l] that are neither in [seen] nor earlier in [l], in the
    order of their first occurrence. *)
Fixpoint first_seen (seen l : list string) : list string :=
  match l with
  | [] => []
  | x :: l' =>
      if decide (x ∈ seen) then first_seen seen l'
      else x :: first_seen (seen ++ [x]) l'
  end.

(** The distinct escaped artist names of the input, in input order. *)
Definition distinct_artists (albums : list AlbumInfo) : list string :=
  first_seen [] (map artist_key albums).

(** The test [if artist_id:] of the album loop. *)
Definition emitted (ids : gmap string Z) (a : AlbumInfo) : bool :=
  match ids !! artist_key a with
  | Some artist_id => truthy artist_id
  | None => false
  end.

(** The input albums that get an Album row, in input order. *)
Definition emitted_albums (albums : list AlbumInfo) (max_artist_id : Z)
  : list AlbumInfo :=
  List.filter (emitted (artist_ids (artist_loop albums max_artist_id))) albums.

(** The row and the [album_map] entry of an emitted album. *)
Definition album_row (ids : gmap string Z) (album_id : Z) (a : AlbumInfo) : AlbumRow :=
  mkAlbumRow album_id (escape_sql_string (Some (album_name a)))
    (default 0 (ids !! artist_key a)) (release_year a).

Definition album_entry (ids : gmap string Z) (a : AlbumInfo) : AlbumEntry :=
  mkAlbumEntry (escape_sql_string (Some (album_name a)))
    (default 0 (ids !! artist_key a)) (genre a) (tracks a).

(** The row of the track [t] of the album [album_id], as the [n]th track. *)
Definition track_row (rng : nat -> Draw) (album_id genre_id track_id : Z)
    (n : nat) (t : TrackInfo) : TrackRow :=
  mkTrackRow track_id (escape_sql_string (Some (track_name t))) album_id
    (media_type_id (draw_media (rng n))) genre_id
    (escape_sql_string (Some (composer t))) (duration_ms t)
    (duration_ms t * randint_35_45 (rng n)) (draw_price (rng n)).

(** The tracks of an [album_map], each with the key and the genre of its
    album, in iteration order. *)
Definition tracks_of (m : list (Z * AlbumEntry)) : list (Z * string * TrackInfo) :=
  flat_map (fun item => map (fun t => (item.1, ae_genre item.2, t)) (ae_tracks item.2)) m.

(** *** The artist loop *)

Lemma first_seen_not_seen seen l x : x ∈ first_seen seen l -> x ∉ seen.
Proof.
  revert seen. induction l as [|y l IH]; intros seen; simpl.
  - by intros ?%elem_of_nil.
  - destruct (decide (y ∈ seen)) as [|Hy]; [by apply IH|].
    intros [->|Hx]%elem_of_cons; [done|].
    apply IH in Hx. set_solver.
Qed.

Lemma first_seen_NoDup seen l : NoDup (first_seen seen l).
Proof.
  revert seen. induction l as [|y l IH]; intros seen; simpl.
  - constructor.
  - destruct (decide (y ∈ seen)); [apply IH|].
    constructor; [|apply IH].
    intros Hy%first_seen_not_seen. set_solver.
Qed.

Lemma first_seen_covers seen l x : x ∈ l -> x ∈ seen \/ x ∈ first_seen seen l.
Proof.
  revert seen. induction l as [|y l IH]; intros seen; simpl.
  - by intros ?%elem_of_nil.
  - intros [->|Hx]%elem_of_cons.
    + destruct (decide (y ∈ seen)); [by left | right; set_solver].
    + destruct (decide (y ∈ seen)); [by apply IH|].
      destruct (IH (seen ++ [y]) Hx) as [Hs|Hs].
      * apply elem_of_app in Hs as [Hs|Hs]; [by left | right].
        apply list_elem_of_singleton in Hs as ->. apply list_elem_of_here.
      * right. by apply list_elem_of_further.
Qed.

Lemma first_seen_subset seen l x : x ∈ first_seen seen l -> x ∈ l.
Proof.
  revert seen. induction l as [|y l IH]; intros seen; simpl; [done|].
  destruct (decide (y ∈ seen)).
  - intros ?%IH. set_solver.
  - intros [->|?%IH]%elem_of_cons; set_solver.
Qed.

(** The rows the artist loop appends to a state whose map holds exactly
    the names of its rows. *)
Lemma artist_loop_from albums st :
  (forall n, is_Some (artist_ids st !! n) <-> n ∈ map ar_name (new_artists st)) ->
  let names := first_seen (map ar_name (new_artists st)) (map artist_key albums) in
  let st' := fold_left artist_step albums st in
  new_artists st' =
    new_artists st ++ imap (fun i n => mkArtistRow (next_artist_id st + Z.of_nat i) n) names
  /\ next_artist_id st' = next_artist_id st + Z.of_nat (length names).
Proof.
  revert st. induction albums as [|a albums IH]; intros st Hdom; simpl.
  - split; [by rewrite app_nil_r | lia].
  - unfold artist_step at 2 4. fold (artist_key a).
    destruct (artist_ids st !! artist_key a) as [id|] eqn:E.
    + rewrite decide_True by (apply Hdom; eauto). by apply IH.
    + rewrite decide_False by (rewrite <- Hdom, E; by intros [? ?]).
      set (st1 := {| artist_ids := _ |}).
      destruct (IH st1) as [IH1 IH2].
      { intros n. simpl. rewrite map_app. simpl.
        rewrite elem_of_app, list_elem_of_singleton, <- Hdom.
        destruct (decide (n = artist_key a)) as [->|Hn].
        - rewrite lookup_insert_eq. split; eauto.
        - rewrite lookup_insert_ne by done. split; [eauto | by intros [?|?]]. }
      simpl in IH1, IH2. rewrite map_app in IH1, IH2. simpl in IH1, IH2.
      rewrite IH1, IH2. simpl. split.
      * rewrite <- app_assoc. simpl. do 2 f_equal.
        { f_equal. lia. }
        apply imap_ext. intros i x _. simpl. f_equal. lia.
      * lia.
Qed.

(** The rows of the artist loop are the distinct artists, numbered from
    [max_artist_id + 1]. *)
Lemma artist_rows_closed albums max_artist_id :
  artist_rows albums max_artist_id =
  imap (fun i n => mkArtistRow (max_artist_id + 1 + Z.of_nat i) n)
    (distinct_artists albums).
Proof.
  unfold artist_rows, artist_loop.
  set (st := {| artist_ids := ∅ |}).
  destruct (artist_loop_from albums st) as [H _].
  { intros n. simpl. rewrite lookup_empty. split; [by intros [? ?] | by intros ?%elem_of_nil]. }
  exact H.
Qed.

(** The lookups of [artist_ids] after the loop are the rows of
    [new_artists]. *)
Definition artist_inv (st : ArtistState) : Prop :=
  forall n id, artist_ids st !! n = Some id <-> mkArtistRow id n ∈ new_artists st.

Lemma artist_step_inv st a :
  (forall n, is_Some (artist_ids st !! n) <-> n ∈ map ar_name (new_artists st)) /\ artist_inv st ->
  let st' := artist_step st a in
  (forall n, is_Some (artist_ids st' !! n) <-> n ∈ map ar_name (new_artists st')) /\ artist_inv st'.
Proof.
  unfold artist_inv. intros [Hdom Hinv]. unfold artist_step. fold (artist_key a).
  destruct (artist_ids st !! artist_key a) as [id|] eqn:E; [done|].
  simpl. split.
  - intros n. rewrite map_app. simpl.
    rewrite elem_of_app, list_elem_of_singleton, <- Hdom.
    destruct (decide (n = artist_key a)) as [->|Hn].
    + rewrite lookup_insert_eq. split; eauto.
    + rewrite lookup_insert_ne by done. split; [eauto | by intros [?|?]].
  - intros n id. simpl. rewrite elem_of_app, list_elem_of_singleton, <- Hinv.
    destruct (decide (n = artist_key a)) as [->|Hn].
    + rewrite lookup_insert_eq. split.
      * intros [= <-]. by right.
      * intros [Hs|[= -> ]]; [congruence | done].
    + rewrite lookup_insert_ne by done. split; [eauto|].
      intros [?|[= _ ?]]; [done | congruence].
Qed.

Lemma artist_loop_inv albums max_artist_id :
  artist_inv (artist_loop albums max_artist_id).
Proof.
  unfold artist_loop.
  set (st := {| artist_ids := ∅ |}).
  assert (H : (forall n, is_Some (artist_ids st !! n) <-> n ∈ map ar_name (new_artists st))
              /\ artist_inv st).
  { split; intros n; [|intros id]; simpl; rewrite lookup_empty;
      (split; [by (intros [? ?] || intros ?) | by intros ?%elem_of_nil]). }
  clearbody st. revert st H.
  induction albums as [|a albums IH]; intros st H; simpl; [apply H|].
  apply IH. by apply artist_step_inv.
Qed.

(** *** The album loop *)

Lemma dict_set_fresh {V} (d : list (Z * V)) k v :
  Forall (fun item => item.1 < k) d -> dict_set d k v = d ++ [(k, v)].
Proof.
  induction 1 as [|[k' v'] d Hk _ IH]; simpl; [done|].
  simpl in Hk. destruct (Z.eqb_spec k' k); [lia|]. by rewrite IH.
Qed.

Lemma album_step_emitted ids st a :
  emitted ids a = true ->
  Forall (fun item => item.1 < next_album_id st) (album_map st) ->
  album_step ids st a =
  {| new_albums := new_albums st ++ [album_row ids (next_album_id st) a];
     album_map := album_map st ++ [(next_album_id st, album_entry ids a)];
     next_album_id := next_album_id st + 1 |}.
Proof.
  unfold emitted, album_step, album_row, album_entry. fold (artist_key a).
  destruct (ids !! artist_key a) as [id|]; [|done].
  intros -> Hk. by rewrite dict_set_fresh.
Qed.

Lemma album_step_dropped ids st a :
  emitted ids a = false -> album_step ids st a = st.
Proof.
  unfold emitted, album_step. fold (artist_key a).
  destruct (ids !! artist_key a) as [id|]; [|done]. by intros ->.
Qed.

(** What the album loop appends to a state whose [album_map] has only
    keys below [next_album_id]. *)
Lemma album_loop_from ids albums st :
  Forall (fun item => item.1 < next_album_id st) (album_map st) ->
  let kept := List.filter (emitted ids) albums in
  fold_left (album_step ids) albums st =
  {| new_albums :=
       new_albums st ++
       imap (fun i a => album_row ids (next_album_id st + Z.of_nat i) a) kept;
     album_map :=
       album_map st ++
       imap (fun i a => (next_album_id st + Z.of_nat i, album_entry ids a)) kept;
     next_album_id := next_album_id st + Z.of_nat (length kept) |}.
Proof.
  revert st. induction albums as [|a albums IH]; intros st Hk; simpl.
  - destruct st; simpl. rewrite !app_nil_r. f_equal. lia.
  - destruct (emitted ids a) eqn:E.
    + rewrite album_step_emitted by done. rewrite IH; simpl.
      * rewrite <- !app_assoc. simpl. f_equal; [| |lia].
        -- do 2 f_equal; [f_equal; lia|].
           apply imap_ext. intros i x _. simpl. f_equal. lia.
        -- do 2 f_equal; [f_equal; lia|].
           apply imap_ext. intros i x _. simpl. f_equal. lia.
      * apply Forall_app. split.
        -- eapply Forall_impl; [exact Hk|]. simpl. intros. lia.
        -- constructor; [simpl; lia | constructor].
    + rewrite album_step_dropped by done. by apply IH.
Qed.

Lemma album_state_closed albums max_artist_id max_album_id :
  let ids := artist_ids (artist_loop albums max_artist_id) in
  let kept := emitted_albums albums max_artist_id in
  album_state albums max_artist_id max_album_id =
  {| new_albums := imap (fun i a => album_row ids (max_album_id + 1 + Z.of_nat i) a) kept;
     album_map :=
       imap (fun i a => (max_album_id + 1 + Z.of_nat i, album_entry ids a)) kept;
     next_album_id := max_album_id + 1 + Z.of_nat (length kept) |}.
Proof.
  unfold album_state, album_loop. rewrite album_loop_from by constructor. done.
Qed.

(** *** The track loop *)

Lemma track_loop_inner rng album_id genre_id ts st :
  fold_left (track_step rng album_id genre_id) ts st =
  {| new_tracks :=
       new_tracks st ++
       imap (fun j t =>
               track_row rng album_id genre_id (next_track_id st + Z.of_nat j)
                 (length (new_tracks st) + j) t) ts;
     next_track_id := next_track_id st + Z.of_nat (length ts) |}.
Proof.
  revert st. induction ts as [|t ts IH]; intros st; simpl.
  - destruct st; simpl. rewrite app_nil_r. f_equal. lia.
  - rewrite IH. unfold track_step at 1 2 3 4. simpl.
    rewrite <- app_assoc. simpl. f_equal; [|lia].
    do 2 f_equal.
    + unfold track_row. rewrite Nat.add_0_r, Z.add_0_r. done.
    + apply imap_ext. intros j x _. simpl.
      rewrite length_app. simpl. f_equal; lia.
Qed.

(** The row of an element of [tracks_of]. *)
Definition track_row_of (rng : nat -> Draw) (first_id : Z) (offset : nat)
    (j : nat) (x : Z * string * TrackInfo) : TrackRow :=
  track_row rng x.1.1 (ChinookGenreMapper.get_genre_id x.1.2)
    (first_id + Z.of_nat j) (offset + j) x.2.

Lemma track_loop_from rng m st :
  fold_left (album_tracks_step rng) m st =
  {| new_tracks :=
       new_tracks st ++
       imap (track_row_of rng (next_track_id st) (length (new_tracks st))) (tracks_of m);
     next_track_id := next_track_id st + Z.of_nat (length (tracks_of m)) |}.
Proof.
  revert st. induction m as [|[album_id e] m IH]; intros st; simpl.
  - destruct st; simpl. rewrite app_nil_r. f_equal. lia.
  - rewrite IH, track_loop_inner. simpl.
    rewrite imap_app, !length_app, !length_imap, !length_map.
    rewrite <- app_assoc. f_equal; [|lia]. do 2 f_equal.
    + rewrite imap_fmap. apply imap_ext. done.
    + apply imap_ext. intros j x _. unfold track_row_of. f_equal; lia.
Qed.

Lemma track_rows_closed rng albums max_artist_id max_album_id max_track_id :
  track_rows rng albums max_artist_id max_album_id max_track_id =
  imap (track_row_of rng (max_track_id + 1) 0)
    (tracks_of (album_map (album_state albums max_artist_id max_album_id))).
Proof. unfold track_rows, track_loop. by rewrite track_loop_from. Qed.

(** ** Consequences of the closed forms *)

(** A field that numbers the rows of an [imap] from [base] lists a run. *)
Lemma fmap_imap_run {A B} (f : B -> Z) (g : nat -> A -> B) (base : Z) (l : list A) :
  (forall i x, f (g i x) = base + Z.of_nat i) ->
  f <$> imap g l = seqZ base (Z.of_nat (length l)).
Proof.
  intros Hfg. rewrite fmap_imap.
  rewrite (imap_ext _ (fun i _ => base + Z.of_nat i)) by (intros; apply Hfg).
  rewrite imap_seq_0. unfold seqZ. rewrite Nat2Z.id.
  apply list_fmap_ext. intros _ i _. lia.
Qed.

(** A field that does not depend on the index is a [map] of the input. *)
Lemma fmap_imap_const {A B C} (f : B -> C) (g : nat -> A -> B) (h : A -> C)
    (l : list A) :
  (forall i x, f (g i x) = h x) -> f <$> imap g l = h <$> l.
Proof.
  intros Hfg. rewrite fmap_imap.
  rewrite (imap_ext _ (const h)) by (intros; apply Hfg).
  apply imap_const.
Qed.

(** The identifier [artist_ids] holds for a name is its position among the
    distinct artists, counted from [max_artist_id + 1]. *)
Lemma artist_ids_lookup albums max_artist_id n id :
  artist_ids (artist_loop albums max_artist_id) !! n = Some id <->
  exists i : nat,
    distinct_artists albums !! i = Some n /\ id = max_artist_id + 1 + Z.of_nat i.
Proof.
  rewrite (artist_loop_inv albums max_artist_id n id).
  fold (artist_rows albums max_artist_id). rewrite artist_rows_closed.
  rewrite elem_of_lookup_imap. split.
  - intros (i & y & [= -> ->] & Hi). eauto.
  - intros (i & Hi & ->). eauto.
Qed.

(** Every album of the input has its artist in [artist_ids]. *)
Lemma artist_ids_total albums max_artist_id a :
  a ∈ albums ->
  exists i : nat,
    distinct_artists albums !! i = Some (artist_key a) /\
    artist_ids (artist_loop albums max_artist_id) !! artist_key a
      = Some (max_artist_id + 1 + Z.of_nat i).
Proof.
  intros Ha.
  destruct (first_seen_covers [] (map artist_key albums) (artist_key a)) as [H|H].
  { apply list_elem_of_fmap. eauto. }
  { by apply elem_of_nil in H. }
  apply list_elem_of_lookup in H as [i Hi]. exists i. split; [done|].
  apply artist_ids_lookup. eauto.
Qed.

(** The tracks of an [album_map], without their keys. *)
Lemma tracks_of_tracks (m : list (Z * AlbumEntry)) :
  (fun x : Z * string * TrackInfo => x.2) <$> tracks_of m
  = flat_map (fun item => ae_tracks item.2) m.
Proof.
  induction m as [|item m IH]; simpl; [done|].
  rewrite fmap_app, IH. f_equal.
  rewrite <- list_fmap_compose. apply list_fmap_id.
Qed.

Lemma flat_map_imap {A B C} (f : B -> list C) (g : nat -> A -> B)
    (h : A -> list C) (l : list A) :
  (forall i x, f (g i x) = h x) -> flat_map f (imap g l) = flat_map h l.
Proof.
  revert g. induction l as [|a l IH]; intros g Hfg; simpl; [done|].
  rewrite Hfg, (IH (g ∘ S)); [done|]. intros i x. apply Hfg.
Qed.


(** ** The claims on identifiers *)

Section Run.

Variable rng : nat -> Draw.
Variable albums : list AlbumInfo.
Variables max_artist_id max_album_id max_track_id : Z.

Let A := artist_rows albums max_artist_id.
Let B := album_rows albums max_artist_id max_album_id.
Let T := track_rows rng albums max_artist_id max_album_id max_track_id.
Let ids := artist_ids (artist_loop albums max_artist_id).
Let kept := emitted_albums albums max_artist_id.

Lemma album_rows_closed :
  B = imap (fun i a => album_row ids (max_album_id + 1 + Z.of_nat i) a) kept.
Proof. unfold B, album_rows. by rewrite album_state_closed. Qed.

Lemma album_map_closed :
  album_map (album_state albums max_artist_id max_album_id) =
  imap (fun i a => (max_album_id + 1 + Z.of_nat i, album_entry ids a)) kept.
Proof. by rewrite album_state_closed. Qed.

(** The identifiers and the names of the rows, read off the closed forms. *)
Lemma row_fields_closed :
  (ar_artist_id <$> A = seqZ (max_artist_id + 1) (Z.of_nat (length A)) /\
   ar_name <$> A = distinct_artists albums) /\
  (al_album_id <$> B = seqZ (max_album_id + 1) (Z.of_nat (length B)) /\
   al_title <$> B =
     (fun a => escape_sql_string (Some (album_name a))) <$> kept) /\
  (tr_track_id <$> T = seqZ (max_track_id + 1) (Z.of_nat (length T)) /\
   tr_name <$> T =
     (fun t => escape_sql_string (Some (track_name t))) <$> flat_map tracks kept).
Proof.
  split; [|split].
  - unfold A. rewrite artist_rows_closed, length_imap. split.
    + by apply fmap_imap_run.
    + rewrite (fmap_imap_const _ _ id) by done. apply list_fmap_id.
  - rewrite album_rows_closed, length_imap. split.
    + by apply fmap_imap_run.
    + by apply fmap_imap_const.
  - unfold T. rewrite track_rows_closed, length_imap. split.
    + by apply fmap_imap_run.
    + rewrite (fmap_imap_const _ _
        (fun x => escape_sql_string (Some (track_name x.2)))) by done.
      rewrite album_map_closed.
      rewrite <- (flat_map_imap (fun item => ae_tracks item.2)
        (fun i a => (max_album_id + 1 + Z.of_nat i, album_entry ids a)) tracks kept) by done.
      rewrite <- tracks_of_tracks, <- list_fmap_compose. done.
Qed.

(** The row of the [i]th emitted album, and the artist row it refers to. *)
Lemma album_row_lookup i a :
  kept !! i = Some a ->
  exists k : nat,
    distinct_artists albums !! k = Some (artist_key a) /\
    max_artist_id + 1 + Z.of_nat k <> 0 /\
    mkArtistRow (max_artist_id + 1 + Z.of_nat k) (artist_key a) ∈ A /\
    B !! i =
      Some (mkAlbumRow (max_album_id + 1 + Z.of_nat i)
              (escape_sql_string (Some (album_name a)))
              (max_artist_id + 1 + Z.of_nat k) (release_year a)).
Proof.
  intros Hi.
  assert (Ha : a ∈ kept) by (apply list_elem_of_lookup; eauto).
  apply list_elem_of_In, filter_In in Ha as [Ha%list_elem_of_In Hem].
  destruct (artist_ids_total albums max_artist_id a Ha) as (k & Hk & Hid).
  exists k. unfold emitted in Hem. rewrite Hid in Hem.
  split; [done|]. split.
  { unfold truthy in Hem. destruct (Z.eqb_spec (max_artist_id + 1 + Z.of_nat k) 0); done. }
  split.
  { by apply (artist_loop_inv albums max_artist_id). }
  rewrite album_rows_closed, list_lookup_imap, Hi. simpl.
  unfold album_row. fold ids. unfold ids. by rewrite Hid.
Qed.

(** Where the [j]th track row comes from. *)
Lemma track_row_lookup j trow :
  T !! j = Some trow ->
  exists (i : nat) a t,
    kept !! i = Some a /\ t ∈ tracks a /\
    tr_track_id trow = max_track_id + 1 + Z.of_nat j /\
    tr_album_id trow = max_album_id + 1 + Z.of_nat i /\
    tr_name trow = escape_sql_string (Some (track_name t)) /\
    tr_composer trow = escape_sql_string (Some (composer t)).
Proof.
  unfold T. rewrite track_rows_closed, album_map_closed.
  intros (x & Hx & ->)%list_lookup_imap_Some.
  assert (Hin : x ∈ tracks_of
            (imap (fun i a => (max_album_id + 1 + Z.of_nat i, album_entry ids a)) kept))
    by (apply list_elem_of_lookup; eauto).
  apply list_elem_of_In, in_flat_map in Hin as (item & Hitem & Hin).
  apply in_map_iff in Hin as (t & <- & Ht).
  apply list_elem_of_In, elem_of_lookup_imap in Hitem as (i & a & -> & Hi).
  exists i, a, t. simpl in *. by rewrite list_elem_of_In.
Qed.

(** C2. The artist, album and track identifiers each list the run that
    starts one above the maximum the caller gave, and the rows follow the
    input: the artists are the distinct escaped names in the order of
    their first occurrence, the albums are the emitted albums in input
    order, the tracks are the tracks of the emitted albums in input
    order. *)
Theorem ids_form_contiguous_runs :
  (ar_artist_id <$> A = seqZ (max_artist_id + 1) (Z.of_nat (length A)) /\
   ar_name <$> A = distinct_artists albums) /\
  (al_album_id <$> B = seqZ (max_album_id + 1) (Z.of_nat (length B)) /\
   al_title <$> B =
     (fun a => escape_sql_string (Some (album_name a))) <$> kept) /\
  (tr_track_id <$> T = seqZ (max_track_id + 1) (Z.of_nat (length T)) /\
   tr_name <$> T =
     (fun t => escape_sql_string (Some (track_name t))) <$> flat_map tracks kept).
Proof. exact row_fields_closed. Qed.

(** C1. No two Artist rows carry the same (escaped) name. There is one
    Album row for each emitted album, in order, and the Album row of
    an emitted album carries the identifier of the Artist row of its
    artist, which is the identifier given to the name where it first
    occurs: [max_artist_id + 1] plus its rank among the distinct names.
    Every Track row carries the identifier of the Album row of the album
    it comes from, and through it that same artist identifier. *)
Theorem artist_rows_distinct_and_referenced :
  NoDup (ar_name <$> A) /\
  length B = length kept /\
  (forall i a, kept !! i = Some a ->
     exists row ar (k : nat),
       B !! i = Some row /\ ar ∈ A /\ ar_name ar = artist_key a /\
       distinct_artists albums !! k = Some (artist_key a) /\
       ar_artist_id ar = max_artist_id + 1 + Z.of_nat k /\
       al_artist_id row = ar_artist_id ar) /\
  (forall j trow, T !! j = Some trow ->
     exists (i : nat) a t row ar,
       kept !! i = Some a /\ t ∈ tracks a /\
       tr_name trow = escape_sql_string (Some (track_name t)) /\
       B !! i = Some row /\ tr_album_id trow = al_album_id row /\
       ar ∈ A /\ ar_name ar = artist_key a /\
       al_artist_id row = ar_artist_id ar).
Proof.
  split; [|split; [|split]].
  - destruct (row_fields_closed) as [[_ ->] _]. apply first_seen_NoDup.
  - by rewrite album_rows_closed, length_imap.
  - intros i a Hi.
    destruct (album_row_lookup i a Hi) as (k & Hk & _ & Har & Hrow).
    eexists _, _, k. repeat split; [exact Hrow | exact Har | | | |]; done.
  - intros j trow Hj.
    destruct (track_row_lookup j trow Hj) as (i & a & t & Hi & Ht & _ & Hal & Hn & _).
    destruct (album_row_lookup i a Hi) as (k & Hk & _ & Har & Hrow).
    eexists i, a, t, _, _.
    repeat split; [exact Hi | exact Ht | exact Hn | exact Hrow | | exact Har | |]; done.
Qed.


(** Every text field of a row is the escaped form of a field of the
    input. *)
Lemma row_fields_escaped :
  Forall (fun ar => exists a, a ∈ albums /\
            ar_name ar = escape_sql_string (Some (artist_name a))) A /\
  Forall (fun row => exists a, a ∈ albums /\
            al_title row = escape_sql_string (Some (album_name a))) B /\
  Forall (fun trow => exists a t, a ∈ albums /\ t ∈ tracks a /\
            tr_name trow = escape_sql_string (Some (track_name t)) /\
            tr_composer trow = escape_sql_string (Some (composer t))) T.
Proof.
  assert (Hkept : forall i a, kept !! i = Some a -> a ∈ albums).
  { intros i a Hi.
    assert (Ha : a ∈ kept) by (apply list_elem_of_lookup; eauto).
    by apply list_elem_of_In, filter_In in Ha as [Ha%list_elem_of_In _]. }
  split; [|split]; apply Forall_forall.
  - intros ar Har.
    assert (Hn : ar_name ar ∈ distinct_artists albums).
    { destruct row_fields_closed as [[_ <-] _].
      apply list_elem_of_fmap. eauto. }
    apply first_seen_subset, list_elem_of_fmap in Hn as (a & Hn & Ha). eauto.
  - intros row [i Hi]%list_elem_of_lookup.
    rewrite album_rows_closed in Hi.
    apply list_lookup_imap_Some in Hi as (a & Ha & ->). eauto.
  - intros trow [j Hj]%list_elem_of_lookup.
    destruct (track_row_lookup j trow Hj) as (i & a & t & Hi & Ht & _ & _ & Hn & Hc).
    exists a, t. eauto.
Qed.

End Run.

Lemma filter_all {X} (f : X -> bool) (l : list X) :
  (forall x, x ∈ l -> f x = true) -> List.filter f l = l.
Proof.
  induction l as [|x l IH]; intros H; simpl; [done|].
  rewrite H by apply list_elem_of_here. f_equal. apply IH.
  intros y Hy. apply H. by apply list_elem_of_further.
Qed.

(** With [max_artist_id >= 0] every album is emitted. *)
Lemma emitted_albums_all albums max_artist_id :
  0 <= max_artist_id -> emitted_albums albums max_artist_id = albums.
Proof.
  intros Hmax. apply filter_all. intros a Ha.
  destruct (artist_ids_total albums max_artist_id a Ha) as (k & _ & Hid).
  unfold emitted. rewrite Hid. unfold truthy.
  destruct (Z.eqb_spec (max_artist_id + 1 + Z.of_nat k) 0); [lia | done].
Qed.

Lemma distinct_artists_head a0 rest :
  distinct_artists (a0 :: rest) !! 0%nat = Some (artist_key a0).
Proof.
  unfold distinct_artists. cbn [map first_seen].
  destruct (decide (artist_key a0 ∈ [])) as [H|_]; [|done].
  by apply elem_of_nil in H.
Qed.

(** With [max_artist_id = -1] the emitted albums are those of the artists
    other than the first. *)
Lemma emitted_albums_minus_one a0 rest :
  emitted_albums (a0 :: rest) (-1) =
  List.filter (fun a => negb (String.eqb (artist_key a) (artist_key a0))) (a0 :: rest).
Proof.
  apply filter_ext_in. intros a Ha%list_elem_of_In.
  destruct (artist_ids_total (a0 :: rest) (-1) a Ha) as (k & Hk & Hid).
  unfold emitted. rewrite Hid. unfold truthy.
  pose proof (distinct_artists_head a0 rest) as H0.
  destruct (String.eqb_spec (artist_key a) (artist_key a0)) as [Heq|Hne].
  - rewrite Heq in Hk.
    assert (k = 0%nat) as ->.
    { eapply NoDup_lookup; [apply first_seen_NoDup | exact Hk | exact H0]. }
    done.
  - destruct k as [|k]; [congruence|].
    simpl. destruct (Z.eqb_spec (-1 + 1 + Z.of_nat (S k)) 0); [lia | done].
Qed.

(** C10. With [max_artist_id = -1] the first distinct artist gets the
    identifier 0, and the albums of that artist get no Album row and their
    tracks no Track row: the rows are those of the albums of the other
    artists. With [max_artist_id >= 0] every album of the input gets its
    Album row and every track its Track row. *)
Theorem artist_id_zero_drops_albums
    (rng : nat -> Draw) (a0 : AlbumInfo) (rest albums : list AlbumInfo)
    (max_artist_id max_album_id max_track_id : Z) :
  0 <= max_artist_id ->
  let others :=
    List.filter (fun a => negb (String.eqb (artist_key a) (artist_key a0))) (a0 :: rest) in
  (artist_rows (a0 :: rest) (-1) !! 0%nat = Some (mkArtistRow 0 (artist_key a0)) /\
   emitted (artist_ids (artist_loop (a0 :: rest) (-1))) a0 = false /\
   al_title <$> album_rows (a0 :: rest) (-1) max_album_id =
     (fun a => escape_sql_string (Some (album_name a))) <$> others /\
   tr_name <$> track_rows rng (a0 :: rest) (-1) max_album_id max_track_id =
     (fun t => escape_sql_string (Some (track_name t))) <$> flat_map tracks others) /\
  (al_title <$> album_rows albums max_artist_id max_album_id =
     (fun a => escape_sql_string (Some (album_name a))) <$> albums /\
   tr_name <$> track_rows rng albums max_artist_id max_album_id max_track_id =
     (fun t => escape_sql_string (Some (track_name t))) <$> flat_map tracks albums).
Proof.
  intros Hmax others. split.
  - destruct (row_fields_closed rng (a0 :: rest) (-1) max_album_id max_track_id)
      as (_ & [_ HB] & [_ HT]).
    rewrite emitted_albums_minus_one in HB, HT. fold others in HB, HT.
    split; [|split; [|done]].
    + by rewrite artist_rows_closed, list_lookup_imap, distinct_artists_head.
    + destruct (artist_ids_total (a0 :: rest) (-1) a0) as (k & Hk & Hid);
        [apply list_elem_of_here|].
      unfold emitted. rewrite Hid.
      assert (k = 0%nat) as ->; [|done].
      eapply NoDup_lookup; [apply first_seen_NoDup | exact Hk |].
      apply distinct_artists_head.
  - destruct (row_fields_closed rng albums max_artist_id max_album_id max_track_id)
      as (_ & [_ HB] & [_ HT]).
    by rewrite emitted_albums_all in HB, HT.
Qed.
(** Three albums of two artists, the first artist twice. *)
Definition sample_albums : list AlbumInfo :=
  [ mkAlbumInfo "O'Neil" "First" 2020 "Rock"
      [mkTrackInfo "Intro" 1000 "O'Neil"; mkTrackInfo "Outro" 2000 "O'Neil"];
    mkAlbumInfo "Beta" "Second" 2020 "Jazz" [mkTrackInfo "Solo" 3000 "Beta"];
    mkAlbumInfo "O'Neil" "Third" 2021 "Rock" [mkTrackInfo "Coda" 4000 "O'Neil"] ]%string.

Definition sample_rng (n : nat) : Draw := mkDraw AAC n Price_0_99.

(** The sample with [max_artist_id = -1], and with [max_artist_id = 5]. *)
Lemma artist_id_zero_drops_albums_witness :
  al_title <$> album_rows sample_albums (-1) 20 = ["Second"%string] /\
  al_title <$> album_rows sample_albums 5 20 = ["First"; "Second"; "Third"]%string.
Proof.
  pose proof (artist_id_zero_drops_albums sample_rng
                (mkAlbumInfo "O'Neil" "First" 2020 "Rock"
                   [mkTrackInfo "Intro" 1000 "O'Neil"; mkTrackInfo "Outro" 2000 "O'Neil"])
                (tail sample_albums) sample_albums 5 20 30 ltac:(lia)) as H.
  split.
  - exact (proj1 (proj2 (proj2 (proj1 H)))).
  - exact (proj1 (proj2 H)).
Defined.

End SQLGeneratorFacts.

(** * Properties of escaping *)

Module EscapeFacts.

Import SQLGenerator SQLGeneratorFacts.

Lemma replace_quote_app (a b : string) :
  replace_quote (a +:+ b) = (replace_quote a +:+ replace_quote b)%string.
Proof.
  induction a as [|c a IH]; [reflexivity|].
  rewrite str_app_cons. simpl. rewrite IH.
  destruct (Ascii.eqb c quote); by rewrite !str_app_cons.
Qed.

(** Reading the escaped text as the body of a literal gives the input
    back: every quote of the output is half of a pair. *)
Lemma read_literal_replace_quote (s : string) :
  read_literal (replace_quote s) = Some s.
Proof.
  induction s as [|c s IH]; [reflexivity|].
  simpl. destruct (Ascii.eqb_spec c quote) as [->|Hc].
  - simpl. by rewrite IH.
  - simpl. apply Ascii.eqb_neq in Hc. by rewrite Hc, IH.
Qed.

Lemma count_quote_replace_quote (s : string) :
  count_char quote (replace_quote s) = (2 * count_char quote s)%nat.
Proof.
  induction s as [|c s IH]; [reflexivity|].
  simpl. destruct (Ascii.eqb_spec c quote) as [->|Hc].
  - simpl. rewrite IH. lia.
  - simpl. apply Ascii.eqb_neq in Hc. rewrite Hc, IH. lia.
Qed.

(** C7. A single quote of the input stands doubled in the output, between
    the escaped forms of what is before and after it; the output has twice
    the quotes of the input, and read as the body of an SQL literal it
    gives the input back, so no quote of it ends the literal. The text in
    every Artist, Album and Track row is the escaped form of the artist
    name, the album title, the track name and the composer of the input,
    and it is this text that is written between the quotes of the row. *)
Theorem escape_sql_string_doubles_quotes :
  (forall a b : string,
     escape_sql_string (Some (a +:+ "'" +:+ b)%string) =
     (escape_sql_string (Some a) +:+ "''" +:+ escape_sql_string (Some b))%string) /\
  (forall s, count_char quote (escape_sql_string (Some s)) = (2 * count_char quote s)%nat) /\
  (forall s, read_literal (escape_sql_string (Some s)) = Some s) /\
  (forall rng albums max_artist_id max_album_id max_track_id,
     Forall (fun ar => exists a, a ∈ albums /\
               ar_name ar = escape_sql_string (Some (artist_name a)))
       (artist_rows albums max_artist_id) /\
     Forall (fun row => exists a, a ∈ albums /\
               al_title row = escape_sql_string (Some (album_name a)))
       (album_rows albums max_artist_id max_album_id) /\
     Forall (fun trow => exists a t, a ∈ albums /\ t ∈ tracks a /\
               tr_name trow = escape_sql_string (Some (track_name t)) /\
               tr_composer trow = escape_sql_string (Some (composer t)))
       (track_rows rng albums max_artist_id max_album_id max_track_id)) /\
  (forall r, exists pre, render_artist r = (pre +:+ "'" +:+ ar_name r +:+ "')")%string) /\
  (forall r, exists pre post,
     render_album r = (pre +:+ "'" +:+ al_title r +:+ "'" +:+ post)%string) /\
  (forall r, exists pre mid post,
     render_track r =
     (pre +:+ "'" +:+ tr_name r +:+ "'" +:+ mid +:+ "'" +:+ tr_composer r +:+ "'"
        +:+ post)%string).
Proof.
  split; [|split; [|split; [|split; [|split; [|split]]]]].
  - intros a b. simpl. by rewrite !replace_quote_app.
  - intros s. apply count_quote_replace_quote.
  - intros s. apply read_literal_replace_quote.
  - intros. apply row_fields_escaped.
  - intros r. exists ("    (" +:+ str_of_int (ar_artist_id r) +:+ ", ")%string.
    unfold render_artist. generalize (str_of_int (ar_artist_id r)) as i.
    intros i. by rewrite <- !str_app_assoc.
  - intros r.
    exists ("    (" +:+ str_of_int (al_album_id r) +:+ ", ")%string,
      (", " +:+ str_of_int (al_artist_id r) +:+ ", "
         +:+ str_of_int (al_release_year r) +:+ ")")%string.
    unfold render_album.
    generalize (str_of_int (al_album_id r)) as i,
      (str_of_int (al_artist_id r)) as j, (str_of_int (al_release_year r)) as y.
    intros i j y. by rewrite <- !str_app_assoc.
  - intros r.
    exists ("    (" +:+ str_of_int (tr_track_id r) +:+ ", ")%string,
      (", " +:+ str_of_int (tr_album_id r) +:+ ", "
         +:+ str_of_int (tr_media_type_id r) +:+ ", "
         +:+ str_of_int (tr_genre_id r) +:+ ", ")%string,
      (", " +:+ str_of_int (tr_milliseconds r) +:+ ", "
         +:+ str_of_int (tr_bytes r) +:+ ", "
         +:+ str_of_price (tr_unit_price r) +:+ ")")%string.
    unfold render_track.
    generalize (str_of_int (tr_track_id r)) as i, (str_of_int (tr_album_id r)) as j,
      (str_of_int (tr_media_type_id r)) as m, (str_of_int (tr_genre_id r)) as g,
      (str_of_int (tr_milliseconds r)) as ms, (str_of_int (tr_bytes r)) as sz,
      (str_of_price (tr_unit_price r)) as p.
    intros i j m g ms sz p. by rewrite <- !str_app_assoc.
Qed.

End EscapeFacts.

(** * Properties of batching *)

Module BatchFacts.

Import SQLGenerator.




Section Chunks.

Context {A : Type}.
Variable l : list A.
Variable k : nat.
Hypothesis k_pos : (1 <= k)%nat.


End Chunks.

(** A batch size other than zero never raises. *)
Lemma chunk_list_is_Some {A} (l : list A) (k : Z) :
  k <> 0 -> is_Some (chunk_list l k).
Proof.
  intros Hk. unfold chunk_list, py_range.
  destruct (Z.eqb_spec k 0); [done|].
  destruct (k <? 0); eauto.
Qed.

(** ** The text of the batches

    The text the claim speaks of, written out with concatenation alone:
    for each batch a comment line with its number and the number of
    batches, the [INSERT] line, the rows of the batch separated by a comma
    and a line feed and closed by a semicolon; an empty line after each
    batch separates it from the next one. *)











End BatchFacts.

(** * The layout of the generated text *)

Module LayoutFacts.

Import SQLGenerator SQLGeneratorFacts BatchFacts.

(** What a kind of rows adds to [sql_parts]: nothing when there is no row,
    else the one string its generator gives. *)
Definition section_of {R} (gen : list R -> option string) (rows : list R)
  : list string :=
  match rows with
  | [] => []
  | _ :: _ => match gen rows with Some sql => [sql] | None => [] end
  end.

Lemma append_if_rows_section {R} (gen : list R -> option string) rows sql_parts :
  (forall rows, is_Some (gen rows)) ->
  append_if_rows gen rows sql_parts = Some (sql_parts ++ section_of gen rows).
Proof.
  intros Hgen. unfold append_if_rows, section_of.
  destruct rows as [|r rows]; [by rewrite app_nil_r|].
  by destruct (Hgen (r :: rows)) as [sql ->].
Qed.

Lemma generate_batched_sql_is_Some {R} kind insert_into (render : R -> string) k rows :
  k <> 0 -> is_Some (generate_batched_sql kind insert_into render k rows).
Proof.
  intros Hk. unfold generate_batched_sql.
  by destruct (chunk_list_is_Some rows k Hk) as [batches ->].
Qed.



End LayoutFacts.

(** * Properties of [SpotifyClient.make_request] *)

Module SpotifyClientFacts.

Import SpotifyClient.

(** The client after one more request that was answered by a response the
    loop retries after the events [evs]. *)
Definition after_request (url : string) (evs : list Event) (c : Client) : Client :=
  {| token := token c; n_requests := S (n_requests c); n_tokens := n_tokens c;
     trace := trace c ++ [RateLimit; Get url (token c)] ++ evs |}.


(** A remote side that answers the listed responses, then succeeds, and
    whose re-authentications all succeed. *)
Definition scripted (l : list Response) : Remote :=
  {| responses := fun n => nth n l (Success "late");
     tokens := fun _ => Token "fresh" |}.

(** A remote side that answers every request the same way, and whose
    re-authentications all succeed. *)
Definition persistent (resp : Response) : Remote :=
  {| responses := fun _ => resp; tokens := fun _ => Token "fresh" |}.



(** Two clients whose traces differ by the nesting of [++] are equal. *)
Ltac trace_eq :=
  unfold after_request; rewrite <- ?app_assoc; cbn [app]; reflexivity.

(** One iteration answered by 429. *)
Lemma request_loop_429 r url fuel retry_count c h n :
  retry_count < max_retries ->
  responses r (n_requests c) = HTTPError 429 h ->
  retry_after_seconds h = Some n ->
  0 <= n ->
  request_loop r url (S fuel) retry_count c =
  request_loop r url fuel (retry_count + 1) (after_request url [Sleep n] c).
Proof.
  intros Hrc Hresp Hh Hn. cbn [request_loop].
  destruct (Z.ltb_spec retry_count max_retries); [|lia].
  unfold send, emit. cbn [token n_requests n_tokens trace].
  rewrite Hresp. cbn [Z.eqb Pos.eqb]. rewrite Hh.
  unfold sleep, emit. cbn [token n_requests n_tokens trace].
  destruct (Z.ltb_spec n 0); [lia|].
  trace_eq.
Qed.

(** One iteration answered by 401, when the new token is granted. *)
Lemma request_loop_401 r url fuel retry_count c h tok :
  retry_count < max_retries ->
  responses r (n_requests c) = HTTPError 401 h ->
  tokens r (n_tokens c) = Token tok ->
  request_loop r url (S fuel) retry_count c =
  request_loop r url fuel (retry_count + 1)
    {| token := tok; n_requests := S (n_requests c); n_tokens := S (n_tokens c);
       trace := trace c ++ [RateLimit; Get url (token c)] ++ [GetToken] |}.
Proof.
  intros Hrc Hresp Htok. cbn [request_loop].
  destruct (Z.ltb_spec retry_count max_retries); [|lia].
  unfold send, emit. cbn [token n_requests n_tokens trace].
  rewrite Hresp. cbn [Z.eqb Pos.eqb].
  unfold _get_token, emit. cbn [token n_requests n_tokens trace].
  rewrite Htok. unfold set_token. cbn [token n_requests n_tokens trace].
  trace_eq.
Qed.

(** One iteration answered by a failure that is not an HTTP error, with
    attempts left. *)
Lemma request_loop_failed r url fuel retry_count c e :
  0 <= retry_count ->
  retry_count + 1 < max_retries ->
  responses r (n_requests c) = RequestFailed e ->
  request_loop r url (S fuel) retry_count c =
  request_loop r url fuel (retry_count + 1)
    (after_request url [Sleep (2 ^ (retry_count + 1))] c).
Proof.
  intros H0 Hrc Hresp. cbn [request_loop].
  destruct (Z.ltb_spec retry_count max_retries); [|lia].
  unfold send, emit. cbn [token n_requests n_tokens trace].
  rewrite Hresp.
  destruct (Z.ltb_spec (retry_count + 1) max_retries); [|lia].
  unfold sleep, emit. cbn [token n_requests n_tokens trace].
  destruct (Z.ltb_spec (2 ^ (retry_count + 1)) 0) as [Hneg|_].
  { pose proof (Z.pow_nonneg 2 (retry_count + 1)). lia. }
  trace_eq.
Qed.

(** The last iteration answered by a failure that is not an HTTP error. *)
Lemma request_loop_failed_last r url fuel retry_count c e :
  retry_count < max_retries ->
  max_retries <= retry_count + 1 ->
  responses r (n_requests c) = RequestFailed e ->
  request_loop r url (S fuel) retry_count c =
  (Raised (OriginalExn e), after_request url [] c).
Proof.
  intros Hrc Hlast Hresp. cbn [request_loop].
  destruct (Z.ltb_spec retry_count max_retries); [|lia].
  unfold send, emit. cbn [token n_requests n_tokens trace].
  rewrite Hresp.
  destruct (Z.ltb_spec (retry_count + 1) max_retries); [lia|].
  trace_eq.
Qed.

(** An iteration answered by an HTTP error other than 429 and 401. *)
Lemma request_loop_http_other r url fuel retry_count c status_code h :
  retry_count < max_retries ->
  responses r (n_requests c) = HTTPError status_code h ->
  status_code <> 429 -> status_code <> 401 ->
  request_loop r url (S fuel) retry_count c =
  (Raised (HTTPErrorExn status_code), after_request url [] c).
Proof.
  intros Hrc Hresp H429 H401. cbn [request_loop].
  destruct (Z.ltb_spec retry_count max_retries); [|lia].
  unfold send, emit. cbn [token n_requests n_tokens trace].
  rewrite Hresp.
  destruct (Z.eqb_spec status_code 429); [done|].
  destruct (Z.eqb_spec status_code 401); [done|].
  trace_eq.
Qed.

(** An iteration answered by the body. *)
Lemma request_loop_success r url fuel retry_count c body :
  retry_count < max_retries ->
  responses r (n_requests c) = Success body ->
  request_loop r url (S fuel) retry_count c =
  (Returned body, after_request url [] c).
Proof.
  intros Hrc Hresp. cbn [request_loop].
  destruct (Z.ltb_spec retry_count max_retries); [|lia].
  unfold send, emit. cbn [token n_requests n_tokens trace].
  rewrite Hresp. trace_eq.
Qed.

(** Once [retry_count] has reached [max_retries] no request is sent. *)
Lemma request_loop_exhausted r url fuel retry_count c :
  max_retries <= retry_count ->
  request_loop r url fuel retry_count c = (Raised (Failure (failure_message url)), c).
Proof.
  intros Hrc. destruct fuel; cbn [request_loop];
    by destruct (Z.ltb_spec retry_count max_retries); [lia|].
Qed.

(** The three iterations [make_request] allows are within its fuel: the
    call always returns or raises. *)
Lemma request_loop_terminates r url fuel retry_count c :
  max_retries - retry_count <= Z.of_nat fuel ->
  (request_loop r url fuel retry_count c).1 <> OutOfFuel.
Proof.
  revert retry_count c. induction fuel as [|fuel IH]; intros retry_count c Hfuel.
  - cbn [request_loop]. by destruct (Z.ltb_spec retry_count max_retries); [lia|].
  - cbn [request_loop]. destruct (Z.ltb_spec retry_count max_retries); [|done].
    unfold send. cbn [token n_requests n_tokens trace].
    destruct (responses r _) as [body|status_code h|e]; [done| |].
    + destruct (status_code =? 429).
      * destruct (retry_after_seconds h) as [n|]; [|done].
        destruct (sleep n _); [apply IH; lia | done].
      * destruct (status_code =? 401); [|done].
        destruct (_get_token r _) as [[tok|e] c']; [apply IH; lia | done].
    + destruct (Z.ltb_spec (retry_count + 1) max_retries); [|done].
      destruct (sleep _ _); [apply IH; lia | done].
Qed.

Lemma make_request_terminates r url t : (make_request r url t).1 <> OutOfFuel.
Proof. apply request_loop_terminates. unfold max_retries. lia. Qed.









End SpotifyClientFacts.

(** * Properties of [ChinookGenreMapper] *)

Module ChinookGenreMapperFacts.

Import ChinookGenreMapper.

(** [k] occurs in [s]. *)
Definition substring (k s : string) : Prop :=
  exists a b : string, s = (a +:+ k +:+ b)%string.

Lemma startswith_spec (p s : string) :
  startswith p s = true <-> exists b, s = (p +:+ b)%string.
Proof.
  revert s. induction p as [|a p IH]; intros s; simpl.
  - split; [intros _; by exists s | done].
  - destruct s as [|c s].
    + split; [done | intros [b Hb]; by rewrite str_app_cons in Hb].
    + destruct (Ascii.eqb_spec a c) as [->|Hne].
      * rewrite IH. split; intros [b Hb]; exists b.
        -- by rewrite str_app_cons, Hb.
        -- rewrite str_app_cons in Hb. by injection Hb.
      * split; [done|]. intros [b Hb]. rewrite str_app_cons in Hb.
        injection Hb as Hc _. congruence.
Qed.

(** [contains] decides [substring]. *)
Lemma contains_spec (k s : string) : contains k s = true <-> substring k s.
Proof.
  unfold substring. induction s as [|c s IH].
  - simpl. rewrite orb_false_r, startswith_spec. split.
    + intros [b Hb]. by exists ""%string, b.
    + intros (a & b & Hab). destruct a as [|x a]; [by exists b|].
      by rewrite str_app_cons in Hab.
  - cbn [contains]. rewrite orb_true_iff, startswith_spec, IH. split.
    + intros [[b Hb]|(a & b & Hab)].
      * by exists ""%string, b.
      * exists (String c a), b. by rewrite str_app_cons, Hab.
    + intros (a & b & Hab). destruct a as [|x a].
      * left. by exists b.
      * right. exists a, b. rewrite str_app_cons in Hab. by injection Hab.
Qed.

Lemma contains_false (k s : string) : contains k s = false <-> ~ substring k s.
Proof.
  rewrite <- contains_spec. destruct (contains k s); split; congruence.
Qed.

(** The loop returns the value of the first key that occurs. *)
Lemma first_match_first (pre post : list (string * string)) k v g :
  (forall kv, kv ∈ pre -> ~ substring kv.1 g) ->
  substring k g ->
  first_match (pre ++ (k, v) :: post) g = v.
Proof.
  intros Hpre Hk. induction pre as [|[k' v'] pre IH]; simpl.
  - apply contains_spec in Hk. by rewrite Hk.
  - assert (Hk' : contains k' g = false).
    { apply contains_false. apply (Hpre (k', v')), list_elem_of_here. }
    rewrite Hk'. apply IH. intros kv Hkv. apply Hpre. by apply list_elem_of_further.
Qed.

(** The loop falls through when no key occurs. *)
Lemma first_match_none (items : list (string * string)) g :
  (forall kv, kv ∈ items -> ~ substring kv.1 g) ->
  first_match items g = "Rock"%string.
Proof.
  intros Hall. induction items as [|[k v] items IH]; simpl; [done|].
  assert (Hk : contains k g = false).
  { apply contains_false. apply (Hall (k, v)), list_elem_of_here. }
  rewrite Hk. apply IH. intros kv Hkv. apply Hall. by apply list_elem_of_further.
Qed.

Lemma genre_id_table_NoDup : NoDup genre_id_table.*1.
Proof. apply (bool_decide_unpack _). vm_compute. reflexivity. Qed.

(** C8. The genre returned is the value of the first key of the table, in
    table order, that occurs in the lowercased input, and ["Rock"] when no
    key occurs; the identifier of a genre of the table is the one the table
    gives and the identifier of any other name is 1. So ["hard rock"] maps
    to ["Rock"], ["hip hop"] to ["Hip Hop/Rap"], ["zorblax"] to ["Rock"],
    whose identifier is 1. *)
Theorem genre_first_key_wins
    (spotify_genre : string) (pre post : list (string * string)) (k v : string) :
  genre_mapping = pre ++ (k, v) :: post ->
  (forall kv, kv ∈ pre -> ~ substring kv.1 (lower spotify_genre)) ->
  substring k (lower spotify_genre) ->
  map_spotify_genre_to_chinook spotify_genre = v /\
  (forall g,
     (forall kv, kv ∈ genre_mapping -> ~ substring kv.1 (lower g)) ->
     map_spotify_genre_to_chinook g = "Rock"%string) /\
  (forall name id, (name, id) ∈ genre_id_table -> get_genre_id name = id) /\
  (forall name, name ∉ genre_id_table.*1 -> get_genre_id name = 1) /\
  map_spotify_genre_to_chinook "hard rock" = "Rock"%string /\
  map_spotify_genre_to_chinook "hip hop" = "Hip Hop/Rap"%string /\
  map_spotify_genre_to_chinook "zorblax" = "Rock"%string /\
  get_genre_id (map_spotify_genre_to_chinook "zorblax") = 1.
Proof.
  intros Hsplit Hpre Hk. unfold map_spotify_genre_to_chinook.
  split; [|split; [|split; [|split]]].
  - rewrite Hsplit. by apply first_match_first.
  - intros g Hall. by apply first_match_none.
  - intros name id Hin. unfold get_genre_id, genre_id_map.
    by rewrite (elem_of_list_to_map_1 _ _ _ genre_id_table_NoDup Hin).
  - intros name Hname. unfold get_genre_id, genre_id_map.
    by rewrite (not_elem_of_list_to_map_1 _ _ Hname).
  - repeat split; vm_compute; reflexivity.
Qed.

(** ["Hard Rock"] is mapped by the first key, ["rock"]. *)
Lemma genre_first_key_wins_witness :
  map_spotify_genre_to_chinook "Hard Rock" = "Rock"%string.
Proof.
  apply (genre_first_key_wins "Hard Rock" [] (tail genre_mapping) "rock" "Rock").
  - reflexivity.
  - intros kv Hkv. by apply elem_of_nil in Hkv.
  - exists "hard "%string, ""%string. reflexivity.
Defined.

End ChinookGenreMapperFacts.

(** * Properties of [shift-dates.py] *)

Module ShiftDatesFacts.

Import ShiftDates.

(** [s] is made of digits. *)
Definition all_digits (s : string) : Prop := forallb_string is_digit s = true.

(** [s] is empty or starts with a character [p] rejects. *)
Definition head_rejected (p : ascii -> bool) (s : string) : Prop :=
  match s with
  | EmptyString => True
  | String c _ => p c = false
  end.

(** No character of [s] is [c]. *)
Definition free_of (c : ascii) (s : string) : Prop :=
  forallb_string (fun a => negb (Ascii.eqb a c)) s = true.

(** The unfolding of [sub] on a non-empty line. *)
Lemma sub_cons (c : ascii) (s : string) :
  sub (String c s) =
  match match_date (String c s) with
  | Some m => (replace_date m +:+ sub (after m))%string
  | None => String c (sub s)
  end.
Proof.
  rewrite sub_equation_2. unfold Logic.inspect.
  generalize (@eq_refl _ (match_date (String c s))).
  generalize (match_date (String c s)) at 2 4 5.
  intros [m|] E; reflexivity.
Qed.

(** *** The matcher on a date literal *)

Lemma expect_prefix (p s : string) : expect p (p +:+ s) = Some s.
Proof.
  induction p as [|a p IH]; [reflexivity|].
  rewrite str_app_cons. simpl. by rewrite Ascii.eqb_refl.
Qed.

(** A run of at most [n] digits followed by no digit is what [digits n]
    takes. *)
Lemma digits_run (n : nat) (d rest : string) :
  all_digits d -> (String.length d <= n)%nat -> head_rejected is_digit rest ->
  digits n (d +:+ rest) = (d, rest).
Proof.
  unfold all_digits. revert n. induction d as [|c d IH]; intros n Hd Hn Hrest.
  - rewrite str_app_empty_l. destruct n as [|n]; simpl; [by destruct rest|].
    destruct rest as [|c rest]; [done|]. simpl in Hrest. by rewrite Hrest.
  - simpl in Hd, Hn. apply andb_true_iff in Hd as [Hc Hd].
    destruct n as [|n]; [lia|].
    rewrite str_app_cons. simpl. rewrite Hc.
    by rewrite (IH n Hd ltac:(lia) Hrest).
Qed.

(** The matcher takes a date literal apart. *)
Lemma match_date_literal (year month day rest : string) :
  all_digits year -> String.length year = 4%nat ->
  all_digits month -> (1 <= String.length month <= 3)%nat ->
  all_digits day -> (1 <= String.length day <= 3)%nat ->
  match_date (date_literal year month day +:+ rest) =
  Some (mkMatch year month day rest).
Proof.
  intros Hy Hly Hm Hlm Hd Hld. unfold date_literal, match_date.
  rewrite <- !str_app_assoc. rewrite expect_prefix.
  cbv beta iota delta [mbind option_bind].
  rewrite (digits_run 4 year) by (done || lia). rewrite Hly. simpl negb. cbv iota.
  rewrite (expect_prefix "-"). cbv beta iota delta [mbind option_bind].
  rewrite (digits_run 3 month) by (done || lia).
  destruct (Nat.eqb_spec (String.length month) 0); [lia|].
  rewrite (expect_prefix "-"). cbv beta iota delta [mbind option_bind].
  rewrite (digits_run 3 day) by (done || lia).
  destruct (Nat.eqb_spec (String.length day) 0); [lia|].
  rewrite (expect_prefix "'"). reflexivity.
Qed.

(** *** The matcher before a text that starts with [d] *)

(** [t] is empty or starts with [c0]. *)
Definition starts_with (c0 : ascii) (t : string) : Prop :=
  match t with
  | EmptyString => True
  | String c _ => c = c0
  end.

(** A literal piece that has no [c0] fails where a text that starts with
    [c0] begins. *)
Lemma expect_boundary (c0 : ascii) (p u t : string) :
  free_of c0 p -> starts_with c0 t ->
  expect p (u +:+ t) = option_map (fun r => (r +:+ t)%string) (expect p u).
Proof.
  unfold free_of. intros Hp Ht. revert u. induction p as [|a p IH]; intros u.
  - reflexivity.
  - simpl in Hp. apply andb_true_iff in Hp as [Ha Hp].
    destruct u as [|b u].
    + rewrite str_app_empty_l. simpl.
      destruct t as [|c t]; [done|]. simpl in Ht. subst c.
      apply negb_true_iff in Ha. by rewrite Ha.
    + rewrite str_app_cons. simpl. destruct (Ascii.eqb a b); [by apply IH | done].
Qed.

(** A run of digits ends where a text that starts with no digit begins. *)
Lemma digits_boundary (n : nat) (u t : string) :
  head_rejected is_digit t ->
  digits n (u +:+ t) = ((digits n u).1, ((digits n u).2 +:+ t)%string).
Proof.
  intros Ht. revert u. induction n as [|n IH]; intros u.
  - simpl. by destruct (u +:+ t)%string, u.
  - destruct u as [|c u].
    + rewrite str_app_empty_l. simpl. destruct t as [|c t]; [done|].
      simpl in Ht. by rewrite Ht.
    + rewrite str_app_cons. simpl. destruct (is_digit c); [|done].
      rewrite IH. by destruct (digits n u).
Qed.

Lemma starts_with_d_no_digit (t : string) :
  starts_with "d" t -> head_rejected is_digit t.
Proof. destruct t as [|c t]; [done|]. simpl. by intros ->. Qed.

(** A match that begins before a text that starts with [d] ends before
    it. *)
Lemma match_date_boundary (c : ascii) (u t : string) :
  starts_with "d" t ->
  match_date (String c u +:+ t) =
  option_map (fun m => mkMatch (group1 m) (group2 m) (group3 m) (after m +:+ t))
    (match_date (String c u)).
Proof.
  intros Ht. pose proof (starts_with_d_no_digit t Ht) as Hnd.
  unfold match_date. rewrite str_app_cons.
  change (expect "date '" (String c ?x))
    with (if Ascii.eqb "d" c then expect "ate '" x else None).
  destruct (Ascii.eqb "d" c); [|reflexivity].
  rewrite (expect_boundary "d") by done.
  destruct (expect "ate '" u) as [s1|]; [|reflexivity].
  cbv beta iota delta [mbind option_bind option_map].
  rewrite digits_boundary by done.
  destruct (digits 4 s1) as [y s2]. cbn [fst snd].
  destruct (negb (String.length y =? 4)%nat); [reflexivity|].
  rewrite (expect_boundary "d") by done.
  destruct (expect "-" s2) as [s3|]; [|reflexivity].
  cbv beta iota delta [mbind option_bind option_map].
  rewrite digits_boundary by done.
  destruct (digits 3 s3) as [mo s4]. cbn [fst snd].
  destruct (String.length mo =? 0)%nat; [reflexivity|].
  rewrite (expect_boundary "d") by done.
  destruct (expect "-" s4) as [s5|]; [|reflexivity].
  cbv beta iota delta [mbind option_bind option_map].
  rewrite digits_boundary by done.
  destruct (digits 3 s5) as [d s6]. cbn [fst snd].
  destruct (String.length d =? 0)%nat; [reflexivity|].
  rewrite (expect_boundary "d") by done.
  destruct (expect "'" s6) as [s7|]; reflexivity.
Qed.

(** *** The substitution *)

Lemma sub_match (s : string) (m : Match) :
  match_date s = Some m -> sub s = (replace_date m +:+ sub (after m))%string.
Proof.
  destruct s as [|c s]; [discriminate|]. intros H. by rewrite sub_cons, H.
Qed.

(** The substitution works on the two sides of a place where a [d]
    starts. *)
Lemma sub_boundary (pre t : string) :
  starts_with "d" t -> sub (pre +:+ t) = (sub pre +:+ sub t)%string.
Proof.
  intros Ht. remember (String.length pre) as n eqn:Hn.
  revert pre Hn. induction (lt_wf n) as [n _ IH]. intros pre Hn.
  destruct pre as [|c s].
  - by rewrite str_app_empty_l, sub_equation_1, str_app_empty_l.
  - rewrite str_app_cons, (sub_cons c (s +:+ t)), (sub_cons c s).
    rewrite <- str_app_cons, match_date_boundary by done.
    destruct (match_date (String c s)) as [m|] eqn:E; cbn [option_map].
    + change (replace_date (mkMatch (group1 m) (group2 m) (group3 m) (after m +:+ t)))
        with (replace_date m).
      cbn [after].
      rewrite (IH (String.length (after m))); [|subst n; by apply match_date_shorter|done].
      by rewrite str_app_assoc.
    + rewrite (IH (String.length s)); [|subst n; simpl; lia|done].
      by rewrite str_app_cons.
Qed.

Lemma startswith_expect (p s : string) : startswith p s = false -> expect p s = None.
Proof.
  revert s. induction p as [|a p IH]; intros s; simpl; [done|].
  destruct s as [|b s]; [done|]. destruct (Ascii.eqb a b); [apply IH | done].
Qed.

(** A line in which [date '] does not occur is left as it is. *)
Lemma sub_no_match (line : string) :
  contains "date '" line = false -> sub line = line.
Proof.
  induction line as [|c s IH]; [by rewrite sub_equation_1|].
  cbn [contains]. intros [Hs Hc]%orb_false_iff.
  rewrite sub_cons. unfold match_date.
  rewrite (startswith_expect _ _ Hs). cbv beta iota delta [mbind option_bind].
  by rewrite IH.
Qed.

(** ** Text without a date

    What the pattern matches, as the claim reads it: [date '], a year of
    four digits, a dash, a month of one to three digits, a dash, a day of
    one to three digits, and a quote. *)
Definition is_date (s : string) : Prop :=
  exists year month day,
    s = date_literal year month day /\
    all_digits year /\ String.length year = 4%nat /\
    all_digits month /\ (1 <= String.length month <= 3)%nat /\
    all_digits day /\ (1 <= String.length day <= 3)%nat.

(** No part of the line is matched by the pattern. *)
Definition no_date (line : string) : Prop :=
  forall pre s post, line = (pre +:+ s +:+ post)%string -> ~ is_date s.

(** The pattern matches at no position of the text. *)
Fixpoint unmatched (s : string) : bool :=
  match s with
  | EmptyString => true
  | String _ s' =>
      match match_date s with
      | Some _ => false
      | None => unmatched s'
      end
  end.

Lemma digits_all (n : nat) (s d r : string) :
  digits n s = (d, r) -> all_digits d /\ (String.length d <= n)%nat.
Proof.
  unfold all_digits. revert s d r.
  induction n as [|n IH]; intros [|c s] d r; simpl;
    try (intros [= <- <-]; simpl; split; [done|lia]).
  destruct (is_digit c) eqn:Hc; [|intros [= <- <-]; simpl; split; [done|lia]].
  destruct (digits n s) as [d' r'] eqn:E. intros [= <- <-].
  destruct (IH _ _ _ E) as [Hd Hl]. simpl. rewrite Hc, Hd. split; [done|lia].
Qed.

(** What the pattern matches is a date: a year of exactly four digits, a
    month and a day of one to three digits. *)
Lemma match_date_is_date (s : string) (m : Match) :
  match_date s = Some m ->
  is_date (date_literal (group1 m) (group2 m) (group3 m)).
Proof.
  unfold match_date. intros H.
  destruct (expect "date '" s) as [s1|] eqn:E1; step_bind H.
  destruct (digits 4 s1) as [y s2] eqn:E2.
  destruct (String.length y =? 4)%nat eqn:Hy; cbn [negb] in H; [|discriminate].
  apply Nat.eqb_eq in Hy.
  destruct (expect "-" s2) as [s3|] eqn:E3; step_bind H.
  destruct (digits 3 s3) as [mo s4] eqn:E4.
  destruct (String.length mo =? 0)%nat eqn:Hmo; [discriminate|].
  apply Nat.eqb_neq in Hmo.
  destruct (expect "-" s4) as [s5|] eqn:E5; step_bind H.
  destruct (digits 3 s5) as [d s6] eqn:E6.
  destruct (String.length d =? 0)%nat eqn:Hd; [discriminate|].
  apply Nat.eqb_neq in Hd.
  destruct (expect "'" s6) as [s7|] eqn:E7; step_bind H.
  injection H as <-. simpl.
  apply digits_all in E2 as [? ?], E4 as [? ?], E6 as [? ?].
  exists y, mo, d. split_and!; (done || lia).
Qed.

(** Where no part of the line is a date, the pattern matches nowhere, and
    the line is written as it is read. *)
Lemma sub_no_date (line : string) : no_date line -> sub line = line.
Proof.
  induction line as [|c s IH]; intros Hno; [by rewrite sub_equation_1|].
  rewrite sub_cons. destruct (match_date (String c s)) as [m|] eqn:Hm.
  - exfalso.
    apply (Hno EmptyString (date_literal (group1 m) (group2 m) (group3 m)) (after m)).
    + rewrite str_app_empty_l. by apply match_date_app.
    + by eapply match_date_is_date.
  - rewrite IH; [done|]. intros pre t post Heq.
    apply (Hno (String c pre) t post). by rewrite Heq.
Qed.

(** A text at no position of which the pattern matches has no date. *)
Lemma unmatched_no_date (line : string) : unmatched line = true -> no_date line.
Proof.
  intros Hline pre t post -> (year & month & day & -> & Hy & Hly & Hm & Hlm & Hd & Hld).
  induction pre as [|c pre IH].
  - rewrite str_app_empty_l in Hline.
    pose proof (match_date_literal year month day post Hy Hly Hm Hlm Hd Hld) as Hmatch.
    assert (exists rest,
      (date_literal year month day +:+ post)%string = String "d" rest) as [rest Hrest]
      by (by eexists).
    rewrite Hrest in Hline, Hmatch. cbn [unmatched] in Hline.
    by rewrite Hmatch in Hline.
  - rewrite str_app_cons in Hline. cbn [unmatched] in Hline.
    destruct (match_date _); [done|]. by apply IH.
Qed.

(** C9. A date literal of a line, with a year of four digits and a month
    and a day of one to three digits each, is replaced by the literal of
    the year before with the same month and the same day, and the text
    before and after it is transformed on its own; a line no part of which
    is such a literal is written as it is read, be it a line in which
    [date '] does not occur or one with a literal that the pattern does not
    match (a year of two or of five digits, a month of four digits, another
    case of the letters); the lines are transformed one by one. So
    [date '2021-06-15'] becomes [date '2020-06-15'] and [date '2021-1-1']
    becomes [date '2020-1-1']. *)
Theorem shift_dates_decrements_year (pre year month day post : string) :
  all_digits year -> String.length year = 4%nat ->
  all_digits month -> (1 <= String.length month <= 3)%nat ->
  all_digits day -> (1 <= String.length day <= 3)%nat ->
  sub (pre +:+ date_literal year month day +:+ post) =
    (sub pre +:+ date_literal (str_of_int (int_of_digits year - 1)) month day
       +:+ sub post)%string /\
  (forall line, contains "date '" line = false -> sub line = line) /\
  (forall infile, shift_dates infile = sub <$> infile) /\
  sub "date '2021-06-15'" = "date '2020-06-15'"%string /\
  sub "date '2021-1-1'" = "date '2020-1-1'"%string /\
  sub "INSERT INTO Invoice VALUES (1, date '2021-1-1', date '2021-13-40');" =
    "INSERT INTO Invoice VALUES (1, date '2020-1-1', date '2020-13-40');"%string /\
  (forall line, no_date line -> sub line = line) /\
  (forall line, unmatched line = true -> no_date line) /\
  no_date "date '21-1-1'" /\
  no_date "date '20211-1-1'" /\
  no_date "date '2021-1234-1'" /\
  no_date "date '2021-1-'" /\
  no_date "DATE '2021-1-1'" /\
  no_date "(1, date '2021-06-15)" /\
  sub "date '21-1-1'" = "date '21-1-1'"%string /\
  sub "date '20211-1-1'" = "date '20211-1-1'"%string /\
  sub "date '2021-1234-1'" = "date '2021-1234-1'"%string.
Proof.
  intros Hy Hly Hm Hlm Hd Hld. split; [|split; [|split]].
  - rewrite sub_boundary by done.
    rewrite (sub_match (date_literal year month day +:+ post)
               (mkMatch year month day post))
      by by apply match_date_literal.
    reflexivity.
  - apply sub_no_match.
  - reflexivity.
  - split_and!; try (vm_compute; reflexivity);
      try (apply unmatched_no_date; vm_compute; reflexivity).
    apply sub_no_date.
Qed.

(** A line with one date between two other texts. *)
Lemma shift_dates_decrements_year_witness :
  sub ("  (7, " +:+ date_literal "2021" "06" "15" +:+ ", 9.99)") =
  (sub "  (7, " +:+ date_literal (str_of_int (int_of_digits "2021" - 1)) "06" "15"
     +:+ sub ", 9.99)")%string.
Proof.
  apply (shift_dates_decrements_year "  (7, " "2021" "06" "15" ", 9.99)");
    (reflexivity || (simpl; lia)).
Defined.

End ShiftDatesFacts.

From stdpp Require Import sorting.
Open Scope Z_scope.

(** * Further properties of [SQLGenerator] *)

Module SQLGeneratorMore.

Import SQLGenerator SQLGeneratorFacts EscapeFacts BatchFacts LayoutFacts.

(** ** Escaping *)

Lemma replace_quote_inj (a b : string) :
  replace_quote a = replace_quote b -> a = b.
Proof.
  intros H. pose proof (read_literal_replace_quote a) as Ha.
  rewrite H, read_literal_replace_quote in Ha. by injection Ha.
Qed.

Lemma length_replace_quote (s : string) :
  String.length (replace_quote s) = (String.length s + count_char quote s)%nat.
Proof.
  induction s as [|c s IH]; [reflexivity|].
  simpl. destruct (Ascii.eqb c quote); simpl; rewrite IH; lia.
Qed.

Lemma replace_quote_no_quote (s : string) :
  count_char quote s = 0%nat -> replace_quote s = s.
Proof.
  induction s as [|c s IH]; [reflexivity|].
  simpl. destruct (Ascii.eqb c quote); [discriminate|].
  simpl. intros H. by rewrite IH.
Qed.

(** [first_seen] commutes with a function that keeps names apart. *)
Lemma first_seen_fmap (f : string -> string) (seen l : list string) :
  (forall a b, f a = f b -> a = b) ->
  first_seen (f <$> seen) (f <$> l) = f <$> first_seen seen l.
Proof.
  intros Hf. revert seen. induction l as [|x l IH]; intros seen; [done|].
  cbn [fmap list_fmap first_seen].
  destruct (decide (x ∈ seen)) as [Hx|Hx].
  - rewrite decide_True by (apply list_elem_of_fmap; eauto). apply IH.
  - rewrite decide_False.
    + cbn [fmap list_fmap]. f_equal.
      specialize (IH (seen ++ [x])). by rewrite fmap_app in IH.
    + intros (y & Hy & Hin)%list_elem_of_fmap. apply Hf in Hy. by subst y.
Qed.

(** X1. Escaping keeps different names apart, so the artists are
    de-duplicated by their name as it is: the Artist rows carry the escaped
    forms of the distinct artist names of the input, in the order of their
    first occurrence, and there are as many rows as distinct names. *)
Theorem artists_deduplicated_by_name (albums : list AlbumInfo) (max_artist_id : Z) :
  (forall a b : string,
     escape_sql_string (Some a) = escape_sql_string (Some b) -> a = b) /\
  ar_name <$> artist_rows albums max_artist_id =
    (fun n => escape_sql_string (Some n)) <$> first_seen [] (artist_name <$> albums) /\
  length (artist_rows albums max_artist_id) =
    length (first_seen [] (artist_name <$> albums)).
Proof.
  assert (Hnames : ar_name <$> artist_rows albums max_artist_id =
    (fun n => escape_sql_string (Some n)) <$> first_seen [] (artist_name <$> albums)).
  { rewrite artist_rows_closed.
    rewrite (fmap_imap_const _ _ id) by done. rewrite list_fmap_id.
    unfold distinct_artists.
    rewrite <- (first_seen_fmap (fun n => escape_sql_string (Some n)) [])
      by apply replace_quote_inj.
    by rewrite <- list_fmap_compose. }
  split; [apply replace_quote_inj|]. split; [exact Hnames|].
  apply (f_equal length) in Hnames. by rewrite !length_fmap in Hnames.
Qed.

(** X2. Escaping adds one character for each single quote and leaves a text
    without a quote as it is; it is not idempotent: escaping an escaped text
    escapes its quotes again, so only a text without a quote survives a
    second escaping. [None] is escaped to the empty text. *)
Theorem escape_sql_string_growth (s : string) :
  String.length (escape_sql_string (Some s)) =
    (String.length s + count_char quote s)%nat /\
  (escape_sql_string (Some s) = s <-> count_char quote s = 0%nat) /\
  count_char quote (escape_sql_string (Some (escape_sql_string (Some s)))) =
    (4 * count_char quote s)%nat /\
  (escape_sql_string (Some (escape_sql_string (Some s))) = escape_sql_string (Some s)
   <-> count_char quote s = 0%nat) /\
  escape_sql_string None = EmptyString.
Proof.
  simpl. split; [apply length_replace_quote|].
  assert (Hfix : forall u, replace_quote u = u <-> count_char quote u = 0%nat).
  { intros u. split; [|apply replace_quote_no_quote].
    intros H. apply (f_equal String.length) in H.
    rewrite length_replace_quote in H. lia. }
  split; [apply Hfix|]. split.
  { rewrite !count_quote_replace_quote. lia. }
  split; [|done].
  rewrite Hfix, count_quote_replace_quote. lia.
Qed.

(** ** Batches *)

Section Batches.

Context {A : Type}.
Variable l : list A.
Variable k : nat.
Hypothesis k_pos : (1 <= k)%nat.

(** The [m]th slice taken from [i] on starts [m] batches further. *)
Lemma range_loop_lookup fuel i m :
  (length l - i <= fuel)%nat ->
  map (fun j => slice l j (j + k)) (range_loop fuel i (length l) k) !! m =
  if decide (i + m * k < length l)%nat
  then Some (take k (drop (i + m * k) l))
  else None.
Proof.
  revert i m. induction fuel as [|fuel IH]; intros i m Hfuel; simpl.
  - rewrite decide_False by lia. done.
  - destruct (Nat.ltb_spec i (length l)) as [Hi|Hi]; simpl.
    + destruct m as [|m]; simpl.
      * rewrite Nat.add_0_r, decide_True by lia. unfold slice.
        by replace (i + k - i)%nat with k by lia.
      * rewrite IH by lia.
        replace (i + k + m * k)%nat with (i + (k + m * k))%nat by lia. done.
    + rewrite decide_False by lia. done.
Qed.

End Batches.

(** The batches of a positive batch size, by their index. *)
Lemma chunk_list_lookup {A} (rows : list A) (k : Z) (m : nat) :
  1 <= k ->
  exists batches,
    chunk_list rows k = Some batches /\
    batches !! m =
      if decide (m * Z.to_nat k < length rows)%nat
      then Some (take (Z.to_nat k) (drop (m * Z.to_nat k) rows))
      else None.
Proof.
  intros Hk. unfold chunk_list, py_range.
  destruct (Z.eqb_spec k 0); [lia|]. destruct (Z.ltb_spec k 0); [lia|].
  eexists. split; [reflexivity|].
  by rewrite (range_loop_lookup rows (Z.to_nat k) ltac:(lia) (length rows) 0 m)
    by lia.
Qed.

(** X3. With a batch limit [k >= 1], the row at position [j] is the row at
    position [j mod k] of the batch [j div k], and every batch that is
    followed by another one holds exactly [k] rows: only the last batch can
    be short. *)
Theorem chunk_list_fills_batches {R} (rows : list R) (k : Z) :
  1 <= k ->
  exists batches,
    chunk_list rows k = Some batches /\
    (forall (j : nat) r, rows !! j = Some r ->
       exists b,
         batches !! (j / Z.to_nat k)%nat = Some b /\
         b !! (j mod Z.to_nat k)%nat = Some r) /\
    (forall (m : nat) b,
       batches !! m = Some b -> is_Some (batches !! S m) ->
       Z.of_nat (length b) = k).
Proof.
  intros Hk. destruct (chunk_list_lookup rows k 0 Hk) as (batches & Hb & _).
  exists batches. split; [done|].
  assert (Hlook : forall m,
    batches !! m =
      if decide (m * Z.to_nat k < length rows)%nat
      then Some (take (Z.to_nat k) (drop (m * Z.to_nat k) rows))
      else None).
  { intros m. destruct (chunk_list_lookup rows k m Hk) as (batches' & Hb' & Hm).
    rewrite Hb in Hb'. by injection Hb' as <-. }
  set (n := Z.to_nat k) in *. assert (Hn : (1 <= n)%nat) by (unfold n; lia).
  split.
  - intros j r Hj. pose proof (lookup_lt_Some _ _ _ Hj) as Hlen.
    pose proof (Nat.div_mod_eq j n) as Hdiv.
    pose proof (Nat.mod_upper_bound j n ltac:(lia)) as Hmod.
    eexists. split.
    + rewrite Hlook. rewrite decide_True; [reflexivity|]. nia.
    + rewrite lookup_take_lt by done. rewrite lookup_drop.
      replace (j `div` n * n + j `mod` n)%nat with j by lia. done.
  - intros m b Hm [b' Hm']. rewrite Hlook in Hm, Hm'.
    destruct (decide (S m * n < length rows)%nat) as [HS|]; [|done].
    rewrite decide_True in Hm by lia. injection Hm as <-.
    rewrite length_take, length_drop. unfold n in *. lia.
Qed.

(** Five rows in batches of two. *)
Lemma chunk_list_fills_batches_witness :
  exists batches,
    chunk_list [10; 20; 30; 40; 50] 2 = Some batches /\
    (forall (j : nat) r, [10; 20; 30; 40; 50] !! j = Some r ->
       exists b,
         batches !! (j / Z.to_nat 2)%nat = Some b /\
         b !! (j mod Z.to_nat 2)%nat = Some r) /\
    (forall (m : nat) b,
       batches !! m = Some b -> is_Some (batches !! S m) ->
       Z.of_nat (length b) = 2).
Proof. apply (chunk_list_fills_batches [10; 20; 30; 40; 50] 2). lia. Defined.

(** X4. The batch size at its edges. Without an album the text is the
    header alone, whatever the batch size, zero included. With an album,
    a batch size of zero raises the [ValueError] of [range]; a negative one
    raises nothing and writes no row: each kind of rows gives the empty
    text. *)
Theorem generate_sql_batch_size_edges
    (now : string) (rng : nat -> Draw) (album : AlbumInfo) (albums : list AlbumInfo)
    (max_rows_per_batch max_artist_id max_album_id max_track_id : Z) :
  max_rows_per_batch < 0 ->
  (forall k, generate_sql k now rng [] max_artist_id max_album_id max_track_id
             = Some (_generate_header now)) /\
  generate_sql 0 now rng (album :: albums) max_artist_id max_album_id max_track_id
    = None /\
  (forall rows, _generate_artist_sql max_rows_per_batch rows = Some EmptyString) /\
  (forall rows, _generate_album_sql max_rows_per_batch rows = Some EmptyString) /\
  (forall rows, _generate_track_sql max_rows_per_batch rows = Some EmptyString).
Proof.
  intros Hneg.
  assert (Hgen : forall R kind ins (render : R -> string) rows,
    generate_batched_sql kind ins render max_rows_per_batch rows = Some EmptyString).
  { intros. unfold generate_batched_sql, chunk_list, py_range.
    destruct (Z.eqb_spec max_rows_per_batch 0); [lia|].
    by destruct (Z.ltb_spec max_rows_per_batch 0); [|lia]. }
  split; [reflexivity|]. split.
  - unfold generate_sql.
    assert (Hrows : exists r rows, artist_rows (album :: albums) max_artist_id = r :: rows).
    { rewrite artist_rows_closed. unfold distinct_artists. cbn [map first_seen].
      destruct (decide (artist_key album ∈ [])) as [H|_]; [by apply elem_of_nil in H|].
      cbn [imap]. eauto. }
    destruct Hrows as (r & rows & ->). reflexivity.
  - repeat split; intros; apply Hgen.
Qed.

(** One album, with the batch size -1. *)
Lemma generate_sql_batch_size_edges_witness :
  generate_sql 0 "now" sample_rng sample_albums 10 20 30 = None.
Proof.
  exact (proj1 (proj2
    (generate_sql_batch_size_edges "now" sample_rng
       (mkAlbumInfo "O'Neil" "First" 2020 "Rock"
          [mkTrackInfo "Intro" 1000 "O'Neil"; mkTrackInfo "Outro" 2000 "O'Neil"])
       (tail sample_albums) (-1) 10 20 30 ltac:(lia)))).
Defined.

(** ** Identifiers and track rows *)

Lemma seqZ_above (m n x : Z) : x ∈ seqZ (m + 1) n -> m < x.
Proof. rewrite elem_of_seqZ. lia. Qed.

(** X5. The identifiers given to the rows are all above the maximum the
    caller supplied and pairwise different: a new row cannot collide with a
    row whose identifier is at most that maximum, nor with another new
    row. *)
Theorem new_ids_are_fresh
    (rng : nat -> Draw) (albums : list AlbumInfo)
    (max_artist_id max_album_id max_track_id : Z) :
  (Forall (fun r => max_artist_id < ar_artist_id r) (artist_rows albums max_artist_id) /\
   NoDup (ar_artist_id <$> artist_rows albums max_artist_id)) /\
  (Forall (fun r => max_album_id < al_album_id r)
     (album_rows albums max_artist_id max_album_id) /\
   NoDup (al_album_id <$> album_rows albums max_artist_id max_album_id)) /\
  (Forall (fun r => max_track_id < tr_track_id r)
     (track_rows rng albums max_artist_id max_album_id max_track_id) /\
   NoDup (tr_track_id <$> track_rows rng albums max_artist_id max_album_id max_track_id)).
Proof.
  destruct (row_fields_closed rng albums max_artist_id max_album_id max_track_id)
    as ([HA _] & [HB _] & [HT _]).
  assert (Hall : forall {R} (f : R -> Z) (rows : list R) m n,
    f <$> rows = seqZ (m + 1) n -> Forall (fun r => m < f r) rows /\ NoDup (f <$> rows)).
  { intros R f rows m n Heq. split.
    - apply Forall_forall. intros r Hr. apply (seqZ_above m n).
      rewrite <- Heq. apply list_elem_of_fmap. eauto.
    - rewrite Heq. apply NoDup_seqZ. }
  split; [|split]; eapply Hall; eassumption.
Qed.

(** X6. There is one Track row for each track of an emitted album, and the
    Track rows are grouped by album in the order of the Album rows: the
    album identifiers along the Track rows never decrease. Each Track row
    carries the duration of its track, the genre identifier of the genre of
    its album (1 when the genre has none), one of the media types 1, 2, 4
    and 5, and for a duration that is not negative a size between 35 and 45
    times the duration. *)
Theorem track_rows_follow_albums
    (rng : nat -> Draw) (albums : list AlbumInfo)
    (max_artist_id max_album_id max_track_id : Z) :
  let T := track_rows rng albums max_artist_id max_album_id max_track_id in
  let kept := emitted_albums albums max_artist_id in
  length T = length (flat_map tracks kept) /\
  (forall (j : nat) trow, T !! j = Some trow ->
     exists (i : nat) a t,
       kept !! i = Some a /\ t ∈ tracks a /\
       tr_album_id trow = max_album_id + 1 + Z.of_nat i /\
       tr_milliseconds trow = duration_ms t /\
       tr_genre_id trow = ChinookGenreMapper.get_genre_id (genre a) /\
       tr_media_type_id trow ∈ [1; 2; 4; 5] /\
       (0 <= duration_ms t ->
        35 * duration_ms t <= tr_bytes trow <= 45 * duration_ms t)) /\
  (forall (j j' : nat) trow trow',
     (j <= j')%nat -> T !! j = Some trow -> T !! j' = Some trow' ->
     tr_album_id trow <= tr_album_id trow').
Proof.
  intros T kept.
  set (ids := artist_ids (artist_loop albums max_artist_id)).
  set (m := imap (fun i a => (max_album_id + 1 + Z.of_nat i, album_entry ids a)) kept).
  assert (HT : T = imap (track_row_of rng (max_track_id + 1) 0) (tracks_of m)).
  { unfold T. by rewrite track_rows_closed, album_map_closed. }
  assert (Hlen : length T = length (flat_map tracks kept)).
  { rewrite HT, length_imap.
    rewrite <- (length_fmap (fun x : Z * string * TrackInfo => x.2)), tracks_of_tracks.
    unfold m. by rewrite (flat_map_imap _ _ tracks). }
  split; [exact Hlen|]. split.
  - intros j trow Hj. rewrite HT in Hj.
    apply list_lookup_imap_Some in Hj as (x & Hx & ->).
    assert (Hin : x ∈ tracks_of m) by (apply list_elem_of_lookup; eauto).
    apply list_elem_of_In, in_flat_map in Hin as (item & Hitem & Hin).
    apply in_map_iff in Hin as (t & <- & Ht).
    apply list_elem_of_In, elem_of_lookup_imap in Hitem as (i & a & -> & Hi).
    exists i, a, t. cbn.
    split; [done|]. split; [by apply list_elem_of_In|].
    split; [done|]. split; [done|]. split; [done|]. split.
    + destruct (draw_media _); cbn; set_solver.
    + intros Hd. unfold randint_35_45.
      pose proof (Nat.mod_upper_bound (draw_offset (rng j)) 11 ltac:(lia)) as Hm.
      set (o := Z.of_nat (draw_offset (rng j) mod 11)).
      assert (0 <= o <= 10) by (unfold o; lia). nia.
  - assert (Hmono : forall (l : list AlbumInfo) (base : nat) (j j' : nat) x x',
      (j <= j')%nat ->
      tracks_of (imap (fun i a => (max_album_id + 1 + Z.of_nat (base + i),
                                   album_entry ids a)) l) !! j = Some x ->
      tracks_of (imap (fun i a => (max_album_id + 1 + Z.of_nat (base + i),
                                   album_entry ids a)) l) !! j' = Some x' ->
      max_album_id + 1 + Z.of_nat base <= x.1.1 <= x'.1.1).
    { induction l as [|a l IH]; intros base j j' x x' Hjj Hx Hx'; [done|].
      cbn [imap tracks_of flat_map] in Hx, Hx'.
      rewrite (imap_ext _ (fun i a => (max_album_id + 1 + Z.of_nat (S base + i),
                                       album_entry ids a))) in Hx, Hx'
        by (intros; cbn; do 3 f_equal; lia).
      fold (tracks_of (imap (fun i a => (max_album_id + 1 + Z.of_nat (S base + i),
                                         album_entry ids a)) l)) in Hx, Hx'.
      set (hd := map _ (ae_tracks _)) in Hx, Hx'.
      assert (Hhd : forall y, y ∈ hd -> y.1.1 = max_album_id + 1 + Z.of_nat base).
      { intros y (t & <- & _)%list_elem_of_In%in_map_iff. cbn. do 2 f_equal. lia. }
      destruct (decide (j < length hd)%nat) as [Hj|Hj].
      - rewrite lookup_app_l in Hx by done.
        rewrite (Hhd x) by (apply list_elem_of_lookup; eauto).
        destruct (decide (j' < length hd)%nat) as [Hj'|Hj'].
        + rewrite lookup_app_l in Hx' by done.
          rewrite (Hhd x') by (apply list_elem_of_lookup; eauto). lia.
        + rewrite lookup_app_r in Hx' by lia.
          destruct (IH (S base) _ _ x' x' (Nat.le_refl _) Hx' Hx'). lia.
      - rewrite lookup_app_r in Hx, Hx' by lia.
        destruct (IH (S base) (j - length hd)%nat (j' - length hd)%nat x x'
                    ltac:(lia) Hx Hx'). lia. }
    intros j j' trow trow' Hjj Hj Hj'. rewrite HT in Hj, Hj'.
    apply list_lookup_imap_Some in Hj as (x & Hx & ->).
    apply list_lookup_imap_Some in Hj' as (x' & Hx' & ->).
    cbn. unfold m in Hx, Hx'.
    destruct (Hmono kept 0%nat j j' x x' Hjj) as [_ H]; [| |exact H].
    + by rewrite (imap_ext _ (fun i a => (max_album_id + 1 + Z.of_nat i, album_entry ids a)))
        by done.
    + by rewrite (imap_ext _ (fun i a => (max_album_id + 1 + Z.of_nat i, album_entry ids a)))
        by done.
Qed.

End SQLGeneratorMore.

(** * Further properties of [SpotifyClient.make_request] *)

Module SpotifyClientMore.

Import SpotifyClient SpotifyClientFacts.

(** The number of calls of [_rate_limit] in a trace. *)
Definition rate_limits (tr : list Event) : nat :=
  length (List.filter (fun ev => match ev with RateLimit => true | _ => false end) tr).

Lemma rate_limits_app tr tr' :
  rate_limits (tr ++ tr') = (rate_limits tr + rate_limits tr')%nat.
Proof. unfold rate_limits. by rewrite List.filter_app, length_app. Qed.

(** What a run of the loop that starts at [retry_count] with the client [c]
    and ends with [out] has added to the client. *)
Definition grows (r : Remote) (url : string) (retry_count : Z) (c : Client)
    (out : Result * Client) : Prop :=
  let sent := (n_requests out.2 - n_requests c)%nat in
  (n_requests c <= n_requests out.2)%nat /\
  Z.of_nat sent <= Z.max (max_retries - retry_count) 0 /\
  (retry_count < max_retries -> (1 <= sent)%nat) /\
  (n_tokens c <= n_tokens out.2)%nat /\
  (n_tokens out.2 - n_tokens c <= sent)%nat /\
  rate_limits (trace out.2) = (rate_limits (trace c) + sent)%nat /\
  (forall body, out.1 = Returned body ->
     exists k, n_requests out.2 = S k /\ responses r k = Success body) /\
  (forall message, out.1 = Raised (Failure message) ->
     Z.of_nat sent = Z.max (max_retries - retry_count) 0 /\
     message = failure_message url).

Lemma grows_exhausted r url retry_count c :
  max_retries <= retry_count ->
  grows r url retry_count c (Raised (Failure (failure_message url)), c).
Proof.
  intros Hrc. unfold grows. cbn [fst snd]. rewrite Nat.sub_diag.
  split_and!; try lia.
  - intros body [=].
  - intros message [= <-]. split; [lia | done].
Qed.

(** The run goes round again after one request. *)
Lemma grows_step r url retry_count c c1 out :
  0 <= retry_count < max_retries ->
  n_requests c1 = S (n_requests c) ->
  (n_tokens c <= n_tokens c1 <= S (n_tokens c))%nat ->
  rate_limits (trace c1) = S (rate_limits (trace c)) ->
  grows r url (retry_count + 1) c1 out ->
  grows r url retry_count c out.
Proof.
  unfold grows. intros Hrc Hn1 Ht1 Hr1 (I1 & I2 & I3 & I4 & I5 & I6 & I7 & I8).
  split_and!; try lia; [exact I7|].
  intros message Hm. destruct (I8 message Hm) as [J1 J2]. split; [lia | done].
Qed.

(** The run stops after one request. *)
Lemma grows_stop r url retry_count c res evs tok (nt : nat) :
  retry_count < max_retries ->
  (forall body, res = Returned body -> responses r (n_requests c) = Success body) ->
  (forall message, res <> Raised (Failure message)) ->
  rate_limits evs = 0%nat ->
  (n_tokens c <= nt <= S (n_tokens c))%nat ->
  grows r url retry_count c
    (res, {| token := tok; n_requests := S (n_requests c); n_tokens := nt;
             trace := trace c ++ [RateLimit; Get url (token c)] ++ evs |}).
Proof.
  intros Hrc Hret Hfail Hevs Hnt. unfold grows. cbn [fst snd n_requests n_tokens trace].
  rewrite !rate_limits_app, Hevs. cbn [rate_limits List.filter length].
  split_and!; try lia.
  - intros body Hb. eauto.
  - intros message Hm. by apply Hfail in Hm.
Qed.

Lemma request_loop_grows r url fuel retry_count c :
  0 <= retry_count ->
  max_retries - retry_count <= Z.of_nat fuel ->
  grows r url retry_count c (request_loop r url fuel retry_count c).
Proof.
  revert retry_count c.
  induction fuel as [|fuel IH]; intros retry_count c Hrc Hfuel.
  { rewrite request_loop_exhausted by lia. apply grows_exhausted. lia. }
  destruct (Z.ltb_spec retry_count max_retries) as [Hlt|Hge].
  2:{ rewrite request_loop_exhausted by lia. by apply grows_exhausted. }
  destruct (responses r (n_requests c)) as [body|status_code h|e] eqn:Hresp.
  - rewrite (request_loop_success _ _ _ _ _ body) by done.
    apply (grows_stop _ _ _ _ (Returned body) []); [done|congruence|congruence|done|lia].
  - destruct (Z.eqb_spec status_code 429) as [->|H429].
    + destruct (retry_after_seconds h) as [n|] eqn:Hh.
      * destruct (Z.ltb_spec n 0) as [Hn|Hn].
        -- cbn [request_loop]. destruct (Z.ltb_spec retry_count max_retries); [|lia].
           unfold send, emit. cbn [token n_requests n_tokens trace].
           rewrite Hresp. cbn [Z.eqb Pos.eqb]. rewrite Hh. unfold sleep.
           destruct (Z.ltb_spec n 0); [|lia].
           rewrite <- app_assoc. cbn [app].
           apply (grows_stop _ _ _ _ (Raised ValueErrorExn) []);
             [done|congruence|congruence|done|lia].
        -- rewrite (request_loop_429 _ _ _ _ _ h n) by done.
           eapply grows_step; [| | | |apply IH; lia]; unfold after_request;
             cbn [n_requests n_tokens trace]; [lia|done|lia|].
           rewrite !rate_limits_app. cbn. lia.
      * cbn [request_loop]. destruct (Z.ltb_spec retry_count max_retries); [|lia].
        unfold send, emit. cbn [token n_requests n_tokens trace].
        rewrite Hresp. cbn [Z.eqb Pos.eqb]. rewrite Hh.
        rewrite <- app_assoc. cbn [app].
        apply (grows_stop _ _ _ _ (Raised ValueErrorExn) []);
          [done|congruence|congruence|done|lia].
    + destruct (Z.eqb_spec status_code 401) as [->|H401].
      * destruct (tokens r (n_tokens c)) as [tok|e] eqn:Htok.
        -- rewrite (request_loop_401 _ _ _ _ _ h tok) by done.
           eapply grows_step; [| | | |apply IH; lia];
             cbn [n_requests n_tokens trace]; [lia|done|lia|].
           rewrite !rate_limits_app. cbn. lia.
        -- cbn [request_loop]. destruct (Z.ltb_spec retry_count max_retries); [|lia].
           unfold send, emit. cbn [token n_requests n_tokens trace].
           rewrite Hresp. cbn [Z.eqb Pos.eqb].
           unfold _get_token, emit. cbn [token n_requests n_tokens trace].
           rewrite Htok. rewrite <- !app_assoc. cbn [app].
           apply (grows_stop _ _ _ _ (Raised (TokenExn e)) [GetToken]);
             [done|congruence|congruence|done|lia].
      * rewrite (request_loop_http_other _ _ _ _ _ status_code h) by done.
        apply (grows_stop _ _ _ _ (Raised (HTTPErrorExn status_code)) []);
          [done|congruence|congruence|done|lia].
  - destruct (Z.ltb_spec (retry_count + 1) max_retries) as [Hmore|Hlast].
    + rewrite (request_loop_failed _ _ _ _ _ e) by done.
      eapply grows_step; [| | | |apply IH; lia]; unfold after_request;
        cbn [n_requests n_tokens trace]; [lia|done|lia|].
      rewrite !rate_limits_app. cbn. lia.
    + rewrite (request_loop_failed_last _ _ _ _ _ e) by done.
      apply (grows_stop _ _ _ _ (Raised (OriginalExn e)) []);
        [done|congruence|congruence|done|lia].
Qed.

(** X7. Whatever the remote side answers, a call sends at least one and
    at most three requests, each after one call of the rate limiter, and
    asks for a new token at most once per request. A body that is returned
    is the body of the last response, and the error that names the endpoint
    is raised only after three requests. *)
Theorem make_request_sends_one_to_three (r : Remote) (url t : string) :
  let res := (make_request r url t).1 in
  let c := (make_request r url t).2 in
  (1 <= n_requests c <= 3)%nat /\
  (n_tokens c <= n_requests c)%nat /\
  rate_limits (trace c) = n_requests c /\
  res <> OutOfFuel /\
  (forall body, res = Returned body ->
     exists k, n_requests c = S k /\ responses r k = Success body) /\
  (forall message, res = Raised (Failure message) ->
     n_requests c = 3%nat /\ message = failure_message url).
Proof.
  cbn zeta. unfold make_request. change (Z.to_nat max_retries) with 3%nat.
  set (c0 := {| token := t; n_requests := 0; n_tokens := 0; trace := [] |}).
  pose proof (request_loop_terminates r url 3 0 c0 ltac:(unfold max_retries; lia))
    as Hterm.
  pose proof (request_loop_grows r url 3 0 c0 ltac:(lia)
                ltac:(unfold max_retries; lia)) as Hgrows.
  destruct (request_loop r url 3 0 c0) as [res c].
  destruct Hgrows as (I1 & I2 & I3 & I4 & I5 & I6 & I7 & I8).
  cbn [fst snd n_requests n_tokens trace c0] in *. unfold max_retries in I2, I3, I8.
  change (rate_limits []) with 0%nat in I6.
  split_and!; try lia; [done|exact I7|].
  intros message Hm. destruct (I8 message Hm) as [J1 J2]. split; [lia | done].
Qed.

(** One iteration answered by 401, when no new token is granted. *)
Lemma request_loop_401_failed r url fuel retry_count c h e :
  retry_count < max_retries ->
  responses r (n_requests c) = HTTPError 401 h ->
  tokens r (n_tokens c) = TokenFailed e ->
  request_loop r url (S fuel) retry_count c =
  (Raised (TokenExn e),
   {| token := token c; n_requests := S (n_requests c); n_tokens := S (n_tokens c);
      trace := trace c ++ [RateLimit; Get url (token c)] ++ [GetToken] |}).
Proof.
  intros Hrc Hresp Htok. cbn [request_loop].
  destruct (Z.ltb_spec retry_count max_retries); [|lia].
  unfold send, emit. cbn [token n_requests n_tokens trace].
  rewrite Hresp. cbn [Z.eqb Pos.eqb].
  unfold _get_token, emit. cbn [token n_requests n_tokens trace].
  rewrite Htok. by rewrite <- !app_assoc.
Qed.

(** X8. A response 401 makes the call ask for a new token, without a
    wait. When the token is granted, the next request is sent with the new
    token, which the client keeps; when it is not, the error of the token
    request leaves the call at once, after one request. *)
Theorem unauthorized_refreshes_token
    (r : Remote) (url t : string) (h : option HeaderValue) :
  responses r 0%nat = HTTPError 401 h ->
  (forall tok body,
     tokens r 0%nat = Token tok -> responses r 1%nat = Success body ->
     make_request r url t =
     (Returned body,
      {| token := tok; n_requests := 2; n_tokens := 1;
         trace := [RateLimit; Get url t; GetToken; RateLimit; Get url tok] |})) /\
  (forall e,
     tokens r 0%nat = TokenFailed e ->
     make_request r url t =
     (Raised (TokenExn e),
      {| token := t; n_requests := 1; n_tokens := 1;
         trace := [RateLimit; Get url t; GetToken] |})).
Proof.
  intros H0. unfold make_request. change (Z.to_nat max_retries) with 3%nat. split.
  - intros tok body Htok H1.
    rewrite (request_loop_401 _ _ _ _ _ h tok) by done.
    by rewrite (request_loop_success _ _ _ _ _ body).
  - intros e Htok. by rewrite (request_loop_401_failed _ _ _ _ _ h e).
Qed.

(** A response 401, a new token, then the body. *)
Lemma unauthorized_refreshes_token_witness :
  make_request (scripted [HTTPError 401 None; Success "ok"]) "u" "old" =
  (Returned "ok"%string,
   {| token := "fresh"; n_requests := 2; n_tokens := 1;
      trace := [RateLimit; Get "u" "old"; GetToken; RateLimit; Get "u" "fresh"] |}).
Proof.
  apply (unauthorized_refreshes_token
           (scripted [HTTPError 401 None; Success "ok"]) "u" "old" None);
    reflexivity.
Defined.

(** X9. A response 429 whose [Retry-After] is not an integer, or is a
    negative one, ends the call with [ValueError] after that one request:
    there is no wait and no retry. *)
Theorem malformed_retry_after_aborts
    (r : Remote) (url t : string) (h : HeaderValue) :
  responses r 0%nat = HTTPError 429 (Some h) ->
  match h with
  | NotAnInteger _ => True
  | Seconds n => n < 0
  end ->
  make_request r url t =
  (Raised ValueErrorExn,
   {| token := t; n_requests := 1; n_tokens := 0;
      trace := [RateLimit; Get url t] |}).
Proof.
  intros H0 Hh. unfold make_request. change (Z.to_nat max_retries) with 3%nat.
  cbn [request_loop]. change (0 <? max_retries) with true. cbv iota.
  unfold send, emit. cbn [token n_requests n_tokens trace].
  rewrite H0. cbn [Z.eqb Pos.eqb].
  destruct h as [n|raw]; cbn [retry_after_seconds]; [|done].
  unfold sleep. by destruct (Z.ltb_spec n 0); [|lia].
Qed.

(** A response 429 with a date in [Retry-After]. *)
Lemma malformed_retry_after_aborts_witness :
  make_request
    (persistent (HTTPError 429 (Some (NotAnInteger "Wed, 21 Oct 2015 07:28:00 GMT"))))
    "u" "t" =
  (Raised ValueErrorExn,
   {| token := "t"; n_requests := 1; n_tokens := 0;
      trace := [RateLimit; Get "u" "t"] |}).
Proof.
  apply (malformed_retry_after_aborts
           (persistent (HTTPError 429 (Some (NotAnInteger "Wed, 21 Oct 2015 07:28:00 GMT"))))
           "u" "t" (NotAnInteger "Wed, 21 Oct 2015 07:28:00 GMT"));
    [reflexivity | exact I].
Defined.

End SpotifyClientMore.

(** * [SpotifyClient._rate_limit] *)

Module RateLimiter.

Section Clock.

(** The readings of [time.time()] are floats. The function subtracts two
    of them, compares the difference with [1.0] and subtracts it from
    [1.0]; these operations are taken as they come. *)
Variable time : Type.
Variable minus : time -> time -> time.
Variable lt_one : time -> bool.
Variable ge_one : time -> bool.
Variable one_minus : time -> time.

(** [self.request_count] and [self.last_request_time]. *)
Record Limiter := mkLimiter {
  request_count : Z;
  last_request_time : time }.

(** [_rate_limit()], given the two readings of the clock it takes; the
    first component is the length of the sleep, when there is one. *)
Definition _rate_limit (readings : time * time) (st : Limiter)
  : option time * Limiter :=
  let request_count := request_count st + 1 in
  let current_time := readings.1 in
  let time_since_last := minus current_time (last_request_time st) in
  let '(slept, request_count) :=
    if (10 <? request_count) && lt_one time_since_last
    then (Some (one_minus time_since_last), 0)
    else (None, request_count) in
  let request_count := if ge_one time_since_last then 0 else request_count in
  (slept, {| request_count := request_count; last_request_time := readings.2 |}).

(** The limiter after each of a series of calls, and the sleeps of the
    calls. *)
Fixpoint calls (clock : list (time * time)) (st : Limiter)
  : list (option time * Limiter) :=
  match clock with
  | [] => []
  | readings :: clock' =>
      let res := _rate_limit readings st in
      res :: calls clock' res.2
  end.

(** A difference of two readings is below [1.0] or at least [1.0]: the
    clock gives no NaN. *)
Hypothesis lt_or_ge : forall x, lt_one x = false -> ge_one x = true.

Lemma _rate_limit_count readings st :
  0 <= request_count st ->
  let res := _rate_limit readings st in
  0 <= request_count res.2 <= 10 /\
  (request_count res.2 = 0 \/
   request_count res.2 = request_count st + 1 /\ res.1 = None) /\
  (is_Some res.1 -> 10 <= request_count st /\ request_count res.2 = 0).
Proof.
  intros Hst. unfold _rate_limit.
  destruct (Z.ltb_spec 10 (request_count st + 1)) as [Hhi|Hlo]; cbn [andb].
  - destruct (lt_one _) eqn:Hlt.
    + destruct (ge_one _); cbn; (split; [lia|]); (split; [by left | lia]).
    + rewrite lt_or_ge by done. cbn. split; [lia|]. split; [by left|].
      by intros [? ?].
  - destruct (ge_one _); cbn.
    + split; [lia|]. split; [by left | by intros [? ?]].
    + split; [lia|]. split; [by right | by intros [? ?]].
Qed.

(** The limiter after a series of calls. *)
Fixpoint after_calls (clock : list (time * time)) (st : Limiter) : Limiter :=
  match clock with
  | [] => st
  | readings :: clock' => after_calls clock' (_rate_limit readings st).2
  end.

(** Without a reset to zero a series of calls counts every call. *)
Lemma calls_count clock st :
  0 <= request_count st ->
  Exists (fun res => request_count res.2 = 0) (calls clock st) \/
  request_count (after_calls clock st) = request_count st + Z.of_nat (length clock) /\
  (clock <> [] -> request_count st + Z.of_nat (length clock) <= 10).
Proof.
  revert st. induction clock as [|readings clock IH]; intros st Hst.
  - right. cbn. split; [lia | done].
  - cbn [calls after_calls].
    destruct (_rate_limit_count readings st Hst) as (Hle & [H0|[Hinc Hnone]] & _).
    { left. by constructor. }
    destruct (IH (_rate_limit readings st).2 ltac:(lia)) as [Hex|[Hlast Hmax]].
    { left. by constructor 2. }
    right. cbn [length]. split; [lia|]. intros _.
    destruct clock as [|readings' clock]; [cbn; lia|].
    specialize (Hmax ltac:(done)). lia.
Qed.

(** While the count stays within ten no call sleeps. *)
Lemma calls_no_sleep clock st :
  0 <= request_count st ->
  request_count st + Z.of_nat (length clock) <= 10 ->
  Forall (fun res => res.1 = None) (calls clock st).
Proof.
  revert st. induction clock as [|readings clock IH]; intros st Hst Hlen; [constructor|].
  cbn [calls]. cbn [length] in Hlen.
  destruct (_rate_limit_count readings st Hst) as (Hle & Hnext & Hsleep).
  constructor.
  - destruct (_rate_limit readings st).1 eqn:E; [|done].
    destruct Hsleep as [Hten _]; [by eexists | lia].
  - apply IH; [lia|]. destruct Hnext as [->|[-> _]]; lia.
Qed.

(** X10. A call of the rate limiter leaves a count from 0 to 10: it counts
    the request, and sets the count back to 0 when at least a second has
    passed since the last request, or when the count has passed 10 and it
    sleeps for the rest of the second. It sleeps only when ten requests
    were counted before. So of any eleven calls in a row at least one sets
    the count back to 0, and the first ten calls that follow a count of 0
    never sleep. *)
Theorem rate_limit_count_stays_within_ten (st : Limiter) :
  0 <= request_count st ->
  (forall readings,
     let res := _rate_limit readings st in
     0 <= request_count res.2 <= 10 /\
     (request_count res.2 = 0 \/
      request_count res.2 = request_count st + 1 /\ res.1 = None) /\
     (is_Some res.1 -> 10 <= request_count st /\ request_count res.2 = 0) /\
     last_request_time res.2 = readings.2) /\
  (forall clock,
     length clock = 11%nat ->
     Exists (fun res => request_count res.2 = 0) (calls clock st)) /\
  (forall clock,
     request_count st = 0 -> (length clock <= 10)%nat ->
     Forall (fun res => res.1 = None) (calls clock st)).
Proof.
  intros Hst. split; [|split].
  - intros readings. destruct (_rate_limit_count readings st Hst) as (H1 & H2 & H3).
    cbn zeta. split_and!; try done; try lia.
    unfold _rate_limit. by destruct (_ && _).
  - intros clock Hlen. destruct (calls_count clock st Hst) as [Hex|[_ Hmax]]; [done|].
    assert (clock <> []) as Hne by (intros ->; discriminate).
    specialize (Hmax Hne). lia.
  - intros clock H0 Hlen. apply calls_no_sleep; lia.
Qed.

End Clock.

(** A clock that counts whole seconds: eleven calls within the same
    second, after ten requests were counted. *)
Lemma rate_limit_count_stays_within_ten_witness :
  Exists (fun res => request_count Z res.2 = 0)
    (calls Z Z.sub (fun x => x <? 1) (fun x => 1 <=? x) (fun x => 1 - x)
       (replicate 11 (5, 5)) (mkLimiter Z 3 5)).
Proof.
  apply (rate_limit_count_stays_within_ten Z Z.sub (fun x => x <? 1) (fun x => 1 <=? x)
           (fun x => 1 - x)).
  - intros x Hx. apply Z.ltb_ge in Hx. by apply Z.leb_le.
  - cbn. lia.
  - reflexivity.
Defined.

End RateLimiter.

(** * Further properties of [ChinookGenreMapper] *)

Module ChinookGenreMapperMore.

Import ChinookGenreMapper ChinookGenreMapperFacts.

Lemma substring_trans (a b c : string) :
  substring a b -> substring b c -> substring a c.
Proof.
  intros (u & w & ->) (x & y & ->).
  exists (x +:+ u)%string, (w +:+ y)%string.
  by rewrite <- !str_app_assoc.
Qed.

(** An entry whose key does not occur is passed over. *)
Lemma first_match_skip (pre post : list (string * string)) k v g :
  contains k g = false ->
  first_match (pre ++ (k, v) :: post) g = first_match (pre ++ post) g.
Proof.
  intros Hk. induction pre as [|[k' v'] pre IH]; simpl; [by rewrite Hk|].
  by rewrite IH.
Qed.

(** What follows an entry whose key occurs is never read. *)
Lemma first_match_hit (pre l l' : list (string * string)) g :
  (exists kv, kv ∈ pre /\ contains kv.1 g = true) ->
  first_match (pre ++ l) g = first_match (pre ++ l') g.
Proof.
  induction pre as [|[k v] pre IH]; intros (kv & Hin & Hkv); simpl.
  - by apply elem_of_nil in Hin.
  - destruct (contains k g) eqn:Hk; [done|].
    apply IH. apply elem_of_cons in Hin as [->|Hin]; [simpl in Hkv; congruence|].
    eauto.
Qed.

(** An entry whose key contains an earlier key never decides. *)
Lemma first_match_shadowed (pre post : list (string * string)) k v k' v' g :
  (k', v') ∈ pre -> substring k' k ->
  first_match (pre ++ (k, v) :: post) g = first_match (pre ++ post) g.
Proof.
  intros Hin Hsub. destruct (contains k g) eqn:Hk.
  - apply first_match_hit. exists (k', v'). split; [done|].
    apply contains_spec. apply contains_spec in Hk. by eapply substring_trans.
  - by apply first_match_skip.
Qed.

(** The table without the entries [hard rock], [trap] and [reggaeton]. *)
Definition live_mapping : list (string * string) :=
  [ ("rock", "Rock"); ("metal", "Metal"); ("punk", "Alternative & Punk");
    ("alternative", "Alternative"); ("indie", "Alternative"); ("pop", "Pop");
    ("hip hop", "Hip Hop/Rap"); ("rap", "Hip Hop/Rap"); ("r&b", "R&B/Soul");
    ("soul", "R&B/Soul"); ("jazz", "Jazz"); ("blues", "Blues");
    ("country", "Country"); ("folk", "Folk"); ("classical", "Classical");
    ("edm", "Electronica/Dance"); ("electronic", "Electronica/Dance");
    ("dance", "Electronica/Dance"); ("techno", "Electronica/Dance");
    ("house", "Electronica/Dance"); ("latin", "Latin"); ("reggae", "Reggae");
    ("world", "World") ]%string.

(** X11. Three entries of the table never decide the result, because an
    earlier key occurs wherever their key does: [rock] before [hard rock],
    [rap] before [trap], [reggae] before [reggaeton]. The table without
    them maps every input as the table does; so a genre that contains
    [reggaeton] is mapped by an earlier key or to ["Reggae"], never by the
    entry that gives ["Latin"]. *)
Theorem shadowed_entries_never_decide (spotify_genre : string) :
  map_spotify_genre_to_chinook spotify_genre =
    first_match live_mapping (lower spotify_genre) /\
  map_spotify_genre_to_chinook "reggaeton" = "Reggae"%string /\
  map_spotify_genre_to_chinook "Reggaeton Flow" = "Reggae"%string /\
  map_spotify_genre_to_chinook "latin trap" = "Hip Hop/Rap"%string.
Proof.
  split; [|by vm_compute].
  unfold map_spotify_genre_to_chinook.
  set (g := lower spotify_genre).
  change genre_mapping with
    (firstn 24 genre_mapping ++ ("reggaeton", "Latin")%string :: skipn 25 genre_mapping).
  rewrite (first_match_shadowed _ _ _ _ "reggae" "Reggae").
  2:{ cbn. set_solver. }
  2:{ by exists ""%string, "ton"%string. }
  change (firstn 24 genre_mapping ++ skipn 25 genre_mapping) with
    (firstn 9 genre_mapping ++ ("trap", "Hip Hop/Rap")%string ::
       skipn 10 (firstn 24 genre_mapping ++ skipn 25 genre_mapping)).
  rewrite (first_match_shadowed _ _ _ _ "rap" "Hip Hop/Rap").
  2:{ cbn. set_solver. }
  2:{ by exists "t"%string, ""%string. }
  change (firstn 9 genre_mapping ++
            skipn 10 (firstn 24 genre_mapping ++ skipn 25 genre_mapping)) with
    (firstn 2 genre_mapping ++ ("hard rock", "Rock")%string :: skipn 2 live_mapping).
  rewrite (first_match_shadowed _ _ _ _ "rock" "Rock").
  2:{ cbn. set_solver. }
  2:{ by exists "hard "%string, ""%string. }
  reflexivity.
Qed.

(** The loop returns ["Rock"] or a value of the table. *)
Lemma first_match_value (items : list (string * string)) g :
  first_match items g ∈ "Rock"%string :: items.*2.
Proof.
  induction items as [|[k v] items IH]; simpl; [apply list_elem_of_here|].
  destruct (contains k g).
  - apply list_elem_of_further, list_elem_of_here.
  - apply elem_of_cons in IH as [Hr|Hin].
    + rewrite Hr. apply list_elem_of_here.
    + by do 2 apply list_elem_of_further.
Qed.

(** Whether the name is one of the three that get the identifier 1. *)
Definition gets_rock_id (name : string) : bool :=
  String.eqb name "Rock" || String.eqb name "Country" || String.eqb name "Folk".

(** X12. The genre a Spotify genre is mapped to gets an identifier from 1
    to 24. ["Country"] and ["Folk"], two values of the mapping, are no keys
    of the identifier table, so they get the identifier 1 of ["Rock"], as
    does the genre ["Unknown"] of an artist without genres; every other
    value gets an identifier of its own kind, above 1. *)
Theorem mapped_genre_identifier (spotify_genre : string) :
  let name := map_spotify_genre_to_chinook spotify_genre in
  1 <= get_genre_id name <= 24 /\
  (get_genre_id name = 1 <-> name = "Rock" \/ name = "Country" \/ name = "Folk")%string /\
  map_spotify_genre_to_chinook "country" = "Country"%string /\
  map_spotify_genre_to_chinook "folk" = "Folk"%string /\
  genre_id_map !! "Country"%string = None /\
  genre_id_map !! "Folk"%string = None /\
  get_genre_id "Unknown" = 1.
Proof.
  intros name.
  assert (Hall : Forall (fun v =>
      (1 <=? get_genre_id v) && (get_genre_id v <=? 24) &&
      Bool.eqb (get_genre_id v =? 1) (gets_rock_id v) = true)
    ("Rock"%string :: genre_mapping.*2)).
  { apply (bool_decide_unpack _). by vm_compute. }
  rewrite Forall_forall in Hall.
  specialize (Hall name (first_match_value _ _)).
  apply andb_true_iff in Hall as [[Hlo%Z.leb_le Hhi%Z.leb_le]%andb_true_iff Heq].
  apply Bool.eqb_prop in Heq.
  split; [lia|]. split; [|by vm_compute].
  rewrite <- Z.eqb_eq, Heq. unfold gets_rock_id.
  rewrite !orb_true_iff, !String.eqb_eq. tauto.
Qed.

End ChinookGenreMapperMore.

(** * Further properties of [shift-dates.py] *)

Module ShiftDatesMore.

Import ShiftDates ShiftDatesFacts.

(** ** Lines *)

Lemma starts_with_lf_no_digit (t : string) :
  starts_with lf t -> head_rejected is_digit t.
Proof. destruct t as [|c t]; [done|]. simpl. by intros ->. Qed.

(** A match never goes over a line feed. *)
Lemma match_date_line_break (u t : string) :
  starts_with lf t ->
  match_date (u +:+ t) =
  option_map (fun m => mkMatch (group1 m) (group2 m) (group3 m) (after m +:+ t))
    (match_date u).
Proof.
  intros Ht. pose proof (starts_with_lf_no_digit t Ht) as Hnd.
  unfold match_date.
  rewrite (expect_boundary lf) by done.
  destruct (expect "date '" u) as [s1|]; [|reflexivity].
  cbv beta iota delta [mbind option_bind option_map].
  rewrite digits_boundary by done.
  destruct (digits 4 s1) as [y s2]. cbn [fst snd].
  destruct (negb (String.length y =? 4)%nat); [reflexivity|].
  rewrite (expect_boundary lf) by done.
  destruct (expect "-" s2) as [s3|]; [|reflexivity].
  cbv beta iota delta [mbind option_bind option_map].
  rewrite digits_boundary by done.
  destruct (digits 3 s3) as [mo s4]. cbn [fst snd].
  destruct (String.length mo =? 0)%nat; [reflexivity|].
  rewrite (expect_boundary lf) by done.
  destruct (expect "-" s4) as [s5|]; [|reflexivity].
  cbv beta iota delta [mbind option_bind option_map].
  rewrite digits_boundary by done.
  destruct (digits 3 s5) as [d s6]. cbn [fst snd].
  destruct (String.length d =? 0)%nat; [reflexivity|].
  rewrite (expect_boundary lf) by done.
  destruct (expect "'" s6) as [s7|]; reflexivity.
Qed.

(** The substitution works on the two sides of a line feed. *)
Lemma sub_line_break (pre t : string) :
  sub (pre +:+ String lf t) = (sub pre +:+ String lf (sub t))%string.
Proof.
  remember (String.length pre) as n eqn:Hn.
  revert pre Hn. induction (lt_wf n) as [n _ IH]. intros pre Hn.
  destruct pre as [|c s].
  - rewrite str_app_empty_l, sub_equation_1, str_app_empty_l.
    by rewrite sub_cons.
  - rewrite str_app_cons, (sub_cons c (s +:+ String lf t)), (sub_cons c s).
    rewrite <- str_app_cons, match_date_line_break by done.
    destruct (match_date (String c s)) as [m|] eqn:E; cbn [option_map].
    + change (replace_date (mkMatch (group1 m) (group2 m) (group3 m)
                              (after m +:+ String lf t)))
        with (replace_date m).
      cbn [after].
      rewrite (IH (String.length (after m))); [|subst n; by apply match_date_shorter|done].
      by rewrite str_app_assoc.
    + rewrite (IH (String.length s)); [|subst n; simpl; lia|done].
      by rewrite str_app_cons.
Qed.

(** What the calls of [outfile.write] leave in the file. *)
Definition written (lines : list string) : string :=
  foldr String.append EmptyString lines.

(** X13. The lines are transformed one by one, and a date literal cannot
    go over a line feed, so nothing is lost by it: for lines that end with
    a line feed, followed by a last line that need not, the text written is
    the transformation of the whole text read. *)
Theorem shift_dates_by_line_is_whole_text (lines : list string) (last : string) :
  let infile := ((fun l => l +:+ nl)%string <$> lines) ++ [last] in
  written (shift_dates infile) = sub (written infile) /\
  length (shift_dates infile) = length infile.
Proof.
  cbn zeta. split; [|unfold shift_dates; by rewrite length_map].
  unfold shift_dates, written. induction lines as [|l lines IH].
  - cbn [fmap list_fmap app map foldr]. by rewrite !str_app_empty_r.
  - rewrite fmap_cons. cbn [app map foldr]. rewrite IH.
    rewrite <- (str_app_assoc l nl).
    change (nl +:+ ?x)%string with (String lf x).
    change nl with (String lf EmptyString).
    rewrite !sub_line_break, sub_equation_1.
    by rewrite <- str_app_assoc.
Qed.

(** ** Years *)

(** A property that holds on a range of integers, checked by running
    through the range. *)
Lemma check_range (P : Z -> bool) (lo n : Z) :
  forallb P (seqZ lo n) = true -> forall x, lo <= x < lo + n -> P x = true.
Proof.
  rewrite forallb_forall. intros H x Hx. apply H, list_elem_of_In, elem_of_seqZ. lia.
Qed.

(** The number a run of digits after [acc] reads as. *)
Lemma int_of_digits_acc_bound (s : string) (acc : Z) :
  all_digits s -> 0 <= acc ->
  acc * 10 ^ Z.of_nat (String.length s) <= int_of_digits_acc acc s
    < (acc + 1) * 10 ^ Z.of_nat (String.length s).
Proof.
  unfold all_digits. revert acc. induction s as [|c s IH]; intros acc Hs Hacc.
  - cbn. lia.
  - cbn [forallb_string] in Hs. apply andb_true_iff in Hs as [Hc Hs].
    cbn [int_of_digits_acc String.length].
    rewrite Nat2Z.inj_succ, Z.pow_succ_r by lia.
    assert (Hv : 0 <= Z.of_nat (nat_of_ascii c - 48) <= 9).
    { unfold is_digit in Hc. apply andb_true_iff in Hc as [H1 H2].
      apply Nat.leb_le in H1, H2. lia. }
    specialize (IH (10 * acc + Z.of_nat (nat_of_ascii c - 48)) Hs ltac:(lia)).
    pose proof (Z.pow_nonneg 10 (Z.of_nat (String.length s)) ltac:(lia)).
    nia.
Qed.

Lemma int_of_digits_year (year : string) :
  all_digits year -> String.length year = 4%nat -> 0 <= int_of_digits year <= 9999.
Proof.
  intros Hy Hlen. pose proof (int_of_digits_acc_bound year 0 Hy ltac:(lia)) as H.
  rewrite Hlen in H. unfold int_of_digits. change (10 ^ Z.of_nat 4) with 10000 in H. lia.
Qed.

(** The years from 1000 to 9998 are written with four digits and read
    back as themselves. *)
Definition four_digits (n : Z) : bool :=
  forallb_string is_digit (str_of_int n)
  && (String.length (str_of_int n) =? 4)%nat
  && (int_of_digits (str_of_int n) =? n).

Lemma four_digits_range (n : Z) : 1000 <= n <= 9998 -> four_digits n = true.
Proof.
  intros Hn. apply (check_range four_digits 1000 8999); [by vm_compute | lia].
Qed.

(** A text written for a year that the pattern does not take for a year:
    fewer than four digits, or the text of -1. *)
Definition short_year (y : string) : bool :=
  (forallb_string is_digit y && (String.length y <? 4)%nat) || String.eqb y "-1".

Lemma short_year_range (n : Z) : -1 <= n <= 999 -> short_year (str_of_int n) = true.
Proof.
  intros Hn.
  apply (check_range (fun n => short_year (str_of_int n)) (-1) 1001); [by vm_compute | lia].
Qed.

Lemma free_of_app (c : ascii) (a b : string) :
  free_of c a -> free_of c b -> free_of c (a +:+ b).
Proof.
  unfold free_of. intros Ha Hb. induction a as [|x a IH]; [done|].
  rewrite str_app_cons. cbn in *. apply andb_true_iff in Ha as [Hx Ha].
  by rewrite Hx, IH.
Qed.

Lemma all_digits_free_of_d (s : string) : all_digits s -> free_of "d" s.
Proof.
  unfold all_digits, free_of. induction s as [|c s IH]; [done|].
  cbn. intros [Hc Hs]%andb_true_iff. rewrite IH by done.
  destruct (Ascii.eqb_spec c "d") as [->|]; [by vm_compute in Hc | done].
Qed.

(** A text without [d] holds no [date ']. *)
Lemma contains_date_free (s : string) :
  free_of "d" s -> contains "date '" s = false.
Proof.
  unfold free_of. induction s as [|c s IH]; [done|].
  cbn [forallb_string contains startswith]. intros [Hc Hs]%andb_true_iff.
  apply negb_true_iff in Hc. rewrite Ascii.eqb_sym, Hc. by rewrite IH.
Qed.

Lemma short_year_free_of_d (y : string) : short_year y = true -> free_of "d" y.
Proof.
  unfold short_year. intros [[Hd _]%andb_true_iff|He%String.eqb_eq]%orb_true_iff.
  - by apply all_digits_free_of_d.
  - by subst y.
Qed.

(** A literal whose year is short is left as it is. *)
Lemma sub_short_year (y month day : string) :
  short_year y = true -> all_digits month -> all_digits day ->
  sub (date_literal y month day) = date_literal y month day.
Proof.
  intros Hy Hm Hd.
  assert (Hnone : match_date (date_literal y month day) = None).
  { unfold date_literal, match_date. rewrite expect_prefix.
    cbv beta iota delta [mbind option_bind].
    unfold short_year in Hy.
    apply orb_true_iff in Hy as [[Hdig Hlen]%andb_true_iff|He%String.eqb_eq].
    - apply Nat.ltb_lt in Hlen.
      rewrite (digits_run 4 y) by (done || lia).
      by destruct (Nat.eqb_spec (String.length y) 4); [lia|].
    - subst y. reflexivity. }
  unfold date_literal in *.
  change ("date '" +:+ ?x)%string with (String "d" ("ate '" +:+ x)) in *.
  rewrite sub_cons, Hnone. f_equal.
  apply sub_no_match, contains_date_free.
  apply (free_of_app "d" "ate '"); [done|].
  apply free_of_app; [by apply short_year_free_of_d|].
  apply (free_of_app "d" "-"); [done|].
  apply free_of_app; [by apply all_digits_free_of_d|].
  apply (free_of_app "d" "-"); [done|].
  apply free_of_app; [by apply all_digits_free_of_d | done].
Qed.

(** The transformation of a line that is one literal. *)
Lemma sub_literal (year month day : string) :
  all_digits year -> String.length year = 4%nat ->
  all_digits month -> (1 <= String.length month <= 3)%nat ->
  all_digits day -> (1 <= String.length day <= 3)%nat ->
  sub (date_literal year month day) =
  date_literal (str_of_int (int_of_digits year - 1)) month day.
Proof.
  intros Hy Hly Hm Hlm Hd Hld.
  rewrite <- (str_app_empty_r (date_literal year month day)).
  rewrite (sub_match _ (mkMatch year month day ""))
    by by apply match_date_literal.
  cbn [after]. by rewrite sub_equation_1, str_app_empty_r.
Qed.

(** X14. The year is written back without padding. A literal of a year
    from 1001 on gives a literal with a year of four digits again, which a
    second run shifts by another year. A literal of the year 1000 or of an
    earlier one gives a text with a year of fewer than four digits, or with
    the year -1 for the year 0000: the pattern does not match it any more,
    and a second run leaves it as it is. *)
Theorem shifted_year_is_not_padded (year month day : string) :
  all_digits year -> String.length year = 4%nat ->
  all_digits month -> (1 <= String.length month <= 3)%nat ->
  all_digits day -> (1 <= String.length day <= 3)%nat ->
  let n := int_of_digits year in
  0 <= n <= 9999 /\
  sub (date_literal year month day) = date_literal (str_of_int (n - 1)) month day /\
  (1001 <= n ->
     String.length (str_of_int (n - 1)) = 4%nat /\
     int_of_digits (str_of_int (n - 1)) = n - 1 /\
     sub (sub (date_literal year month day)) =
       date_literal (str_of_int (n - 2)) month day) /\
  (n <= 1000 ->
     short_year (str_of_int (n - 1)) = true /\
     sub (sub (date_literal year month day)) = sub (date_literal year month day)).
Proof.
  intros Hy Hly Hm Hlm Hd Hld n.
  pose proof (int_of_digits_year year Hy Hly) as Hn. fold n in Hn.
  pose proof (sub_literal year month day Hy Hly Hm Hlm Hd Hld) as Hsub. fold n in Hsub.
  split; [done|]. split; [done|]. split.
  - intros Hbig.
    pose proof (four_digits_range (n - 1) ltac:(lia)) as H4.
    unfold four_digits in H4.
    apply andb_true_iff in H4 as [[Hdig Hlen%Nat.eqb_eq]%andb_true_iff Hval%Z.eqb_eq].
    split; [done|]. split; [done|].
    rewrite Hsub, sub_literal by done. rewrite Hval. do 2 f_equal. lia.
  - intros Hsmall.
    pose proof (short_year_range (n - 1) ltac:(lia)) as Hshort.
    split; [done|]. rewrite Hsub. by apply sub_short_year.
Qed.

(** The years 2021 and 1000. *)
Lemma shifted_year_is_not_padded_witness :
  sub (sub (date_literal "2021" "06" "15")) = date_literal "2019" "06" "15" /\
  sub (sub (date_literal "1000" "1" "1")) = date_literal "999" "1" "1".
Proof.
  split.
  - apply (shifted_year_is_not_padded "2021" "06" "15");
      (reflexivity || (cbn; lia) || by vm_compute).
  - pose proof (shifted_year_is_not_padded "1000" "1" "1"
                  eq_refl eq_refl eq_refl ltac:(cbn; lia) eq_refl ltac:(cbn; lia))
      as (_ & H1 & _ & H2).
    destruct (H2 ltac:(by vm_compute)) as [_ ->]. exact H1.
Defined.

End ShiftDatesMore.

(** * [SpotifyAlbumFetcher] *)

Module SpotifyAlbumFetcher.

Import SQLGenerator.

(** ** Payloads

    The bodies [make_request] returns are read as the objects of the
    Spotify Web API: a key the code tests for (with [in], with [get], or by
    the truth of the body) may be absent, and is an option; a key the code
    indexes without a test is a field. *)

(** An element of [album_data["tracks"]["items"]]. *)
Record TrackItem := mkTrackItem {
  item_name : string;
  item_duration_ms : Z }.

(** An element of [album_data["artists"]]. *)
Record ArtistRef := mkArtistRef {
  ref_name : string;
  ref_id : string }.

(** The body of an album request. [p_tracks] is [Some None] when the key
    [tracks] is there without the key [items]. *)
Record AlbumPayload := mkAlbumPayload {
  p_name : option string;
  p_artists : option (list ArtistRef);
  p_release_date : option string;
  p_tracks : option (option (list TrackItem)) }.

(** The body of an artist request. *)
Record ArtistPayload := mkArtistPayload {
  p_genres : option (list string) }.

(** An element of [data["albums"]["items"]] of a search. *)
Record SearchItem := mkSearchItem {
  s_id : string }.

(** The body of a search request. *)
Record SearchPayload := mkSearchPayload {
  p_albums : option (option (list SearchItem)) }.

(** ** Effects *)

(** The exceptions that leave the fetcher: the ones of [make_request],
    [IndexError] of [artists[0]], [ValueError] of [int]. *)
Inductive PyExn :=
| RequestError (e : SpotifyClient.Exn)
| IndexError
| ValueError.

Inductive outcome (A : Type) :=
| Ok (a : A)
| Raise (e : PyExn).

Arguments Ok {A} a.
Arguments Raise {A} e.

(** What a call of [make_request] gives: a body or an exception. *)
Inductive Answer (A : Type) :=
| Body (a : A)
| Failed (e : SpotifyClient.Exn).

Arguments Body {A} a.
Arguments Failed {A} e.

(** The remote side, as the answers to the calls of [make_request]; the
    first argument is the number of calls made before. A body that is
    false ([None], an empty object) is [None]. *)
Record Api := mkApi {
  search : nat -> Z -> Z -> Answer SearchPayload;
  album : nat -> string -> Answer (option AlbumPayload);
  artist : nat -> string -> Answer (option ArtistPayload) }.

(** A computation that calls [make_request]: from the number of calls made
    before to its outcome and the number of calls made after. *)
Definition M (A : Type) : Type := nat -> outcome A * nat.

Definition ret {A} (a : A) : M A := fun n => (Ok a, n).

Definition raise {A} (e : PyExn) : M A := fun n => (Raise e, n).

Definition bind {A B} (c : M A) (k : A -> M B) : M B :=
  fun n =>
    match c n with
    | (Ok a, n') => k a n'
    | (Raise e, n') => (Raise e, n')
    end.

Notation "'do' x <- c ; k" := (bind c (fun x => k))
  (at level 10, x name, c at level 100, k at level 200).

(** One call of [make_request] answered by [answer]. *)
Definition call {A} (answer : nat -> Answer A) : M A :=
  fun n =>
    match answer n with
    | Body a => (Ok a, S n)
    | Failed e => (Raise (RequestError e), S n)
    end.

(** ** Python values *)

(** [s.split("-")[0]]. *)
Fixpoint before_dash (s : string) : string :=
  match s with
  | EmptyString => EmptyString
  | String c s' => if Ascii.eqb c "-" then EmptyString else String c (before_dash s')
  end.

(** [l[:n]]: a negative [n] counts from the end. *)
Definition py_prefix {A} (l : list A) (n : Z) : list A :=
  if 0 <=? n then take (Z.to_nat n) l
  else take (length l - Z.to_nat (- n)) l.

(** [range(start, stop)]. *)
Definition py_range2 (start stop : Z) : list Z := seqZ start (stop - start).

Section Fetcher.

(** The remote side, and [int] on a text ([None] is its [ValueError]). *)
Variable api : Api.
Variable py_int : string -> option Z.

(** [_fetch_album_details(album_id)] and [_fetch_artist_details(artist_id)]. *)
Definition _fetch_album_details (album_id : string) : M (option AlbumPayload) :=
  call (fun n => album api n album_id).

Definition _fetch_artist_details (artist_id : string) : M (option ArtistPayload) :=
  call (fun n => artist api n artist_id).

(** The genre [_process_album_data] gives for the body of the artist
    request. *)
Definition genre_of (artist_data : option ArtistPayload) : string :=
  match artist_data with
  | Some d =>
      match p_genres d with
      | Some (spotify_genre :: _) =>
          ChinookGenreMapper.map_spotify_genre_to_chinook spotify_genre
      | _ => "Unknown"
      end
  | None => "Unknown"
  end.

(** The tracks [_process_album_data] gives. *)
Definition tracks_of_payload (album_data : AlbumPayload) (artist_name : string)
  : list TrackInfo :=
  match p_tracks album_data with
  | Some (Some items) =>
      map (fun track => mkTrackInfo (item_name track) (item_duration_ms track) artist_name)
        items
  | _ => []
  end.

(** [_process_album_data(album_data, year)]. *)
Definition _process_album_data (album_data : AlbumPayload) (year : Z)
  : M (option AlbumInfo) :=
  match p_name album_data, p_artists album_data with
  | Some album_name, Some artists =>
      match artists with
      | [] => raise IndexError
      | first :: _ =>
          let artist_name := ref_name first in
          let artist_id := ref_id first in
          do artist_data <- _fetch_artist_details artist_id ;
          let genre := genre_of artist_data in
          let tracks := tracks_of_payload album_data artist_name in
          ret (Some (mkAlbumInfo artist_name album_name year genre tracks))
      end
  | _, _ => ret None
  end.

(** [int(release_date.split("-")[0])] for the release date of the body, or
    the default [f"{year}-01-01"]. *)
Definition release_year_of (year : Z) (album_data : AlbumPayload) : option Z :=
  let release_date :=
    default (str_of_int year +:+ "-01-01")%string (p_release_date album_data) in
  py_int (before_dash release_date).

(** What one album of the search adds to [year_albums]. *)
Definition fetch_item (year : Z) (album : SearchItem) (year_albums : list AlbumInfo)
  : M (list AlbumInfo) :=
  do album_data <- _fetch_album_details (s_id album) ;
  match album_data with
  | Some album_data =>
      match release_year_of year album_data with
      | None => raise ValueError
      | Some release_year =>
          if release_year =? year then
            do album_info <- _process_album_data album_data year ;
            match album_info with
            | Some album_info => ret (year_albums ++ [album_info])
            | None => ret year_albums
            end
          else ret year_albums
      end
  | None => ret year_albums
  end.

(** The loop over the albums of the search, with its [break]. *)
Fixpoint fetch_items (year max_albums : Z) (items : list SearchItem)
    (year_albums : list AlbumInfo) : M (list AlbumInfo) :=
  match items with
  | [] => ret year_albums
  | album :: rest =>
      do year_albums <- fetch_item year album year_albums ;
      if Z.of_nat (length year_albums) >=? max_albums then ret year_albums
      else fetch_items year max_albums rest year_albums
  end.

(** [_fetch_albums_for_year(year, max_albums)]. *)
Definition _fetch_albums_for_year (year max_albums : Z) : M (list AlbumInfo) :=
  do data <- call (fun n => search api n year (Z.min max_albums 50)) ;
  do year_albums <-
    match p_albums data with
    | Some (Some items) => fetch_items year max_albums (py_prefix items max_albums) []
    | _ => ret []
    end ;
  ret (py_prefix year_albums max_albums).

(** The loop over the years. *)
Fixpoint fetch_years (albums_per_year : Z) (years : list Z) (all_albums : list AlbumInfo)
  : M (list AlbumInfo) :=
  match years with
  | [] => ret all_albums
  | year :: years' =>
      do year_albums <- _fetch_albums_for_year year albums_per_year ;
      fetch_years albums_per_year years' (all_albums ++ year_albums)
  end.

(** [fetch_albums_by_year_range(start_year, end_year, albums_per_year)] in
    the year [current_year]. *)
Definition fetch_albums_by_year_range (current_year start_year end_year albums_per_year : Z)
  : M (list AlbumInfo) :=
  fetch_years albums_per_year
    (py_range2 start_year (Z.min (end_year + 1) (current_year + 1))) [].

End Fetcher.

End SpotifyAlbumFetcher.

(** * Properties of [SpotifyAlbumFetcher] *)

Module SpotifyAlbumFetcherFacts.

Import SQLGenerator SpotifyAlbumFetcher.

(** ** Reasoning about computations *)

(** What a computation returns, when it returns, satisfies [P]. *)
Definition ensures {A} (c : M A) (P : A -> Prop) : Prop :=
  forall n a n', c n = (Ok a, n') -> P a.

(** A computation makes at most [k] calls of [make_request], whatever its
    outcome. *)
Definition within {A} (c : M A) (k : nat) : Prop :=
  forall n, (n <= (c n).2 <= n + k)%nat.

Lemma ensures_ret {A} (a : A) (P : A -> Prop) : P a -> ensures (ret a) P.
Proof. intros HP n a' n' [= <- _]. exact HP. Qed.

Lemma ensures_raise {A} (e : PyExn) (P : A -> Prop) : ensures (raise e) P.
Proof. intros n a n' [=]. Qed.

Lemma ensures_call {A} (answer : nat -> Answer A) :
  ensures (call answer) (fun a => exists m, answer m = Body a).
Proof.
  intros n a n'. unfold call. destruct (answer n) eqn:E; [|done].
  intros [= <- _]. by exists n.
Qed.

Lemma ensures_bind {A B} (c : M A) (k : A -> M B) (P : A -> Prop) (Q : B -> Prop) :
  ensures c P -> (forall a, P a -> ensures (k a) Q) -> ensures (bind c k) Q.
Proof.
  intros Hc Hk n b n'. unfold bind. destruct (c n) as [[a|e] m] eqn:E; [|done].
  intros H. eapply Hk; [by eapply Hc|done].
Qed.

Lemma ensures_weaken {A} (c : M A) (P Q : A -> Prop) :
  ensures c P -> (forall a, P a -> Q a) -> ensures c Q.
Proof. intros Hc HPQ n a n' H. eapply HPQ, Hc, H. Qed.

Lemma bind_ok {A B} (c : M A) (k : A -> M B) (n m : nat) (a : A) :
  c n = (Ok a, m) -> bind c k n = k a m.
Proof. intros H. unfold bind. by rewrite H. Qed.

Lemma bind_raise {A B} (c : M A) (k : A -> M B) (n m : nat) (e : PyExn) :
  c n = (Raise e, m) -> bind c k n = (Raise e, m).
Proof. intros H. unfold bind. by rewrite H. Qed.

Lemma call_body {A} (answer : nat -> Answer A) (n : nat) (a : A) :
  answer n = Body a -> call answer n = (Ok a, S n).
Proof. intros H. unfold call. by rewrite H. Qed.

Lemma within_ret {A} (a : A) : within (ret a) 0.
Proof. intros n. simpl. lia. Qed.

Lemma within_raise {A} (e : PyExn) : within (@raise A e) 0.
Proof. intros n. simpl. lia. Qed.

Lemma within_call {A} (answer : nat -> Answer A) : within (call answer) 1.
Proof. intros n. unfold call. destruct (answer n); simpl; lia. Qed.

Lemma within_bind {A B} (c : M A) (k : A -> M B) (k1 k2 : nat) :
  within c k1 -> (forall a, within (k a) k2) -> within (bind c k) (k1 + k2).
Proof.
  intros Hc Hk n. unfold bind. specialize (Hc n).
  destruct (c n) as [[a|e] m]; simpl in *; [|lia].
  specialize (Hk a m). lia.
Qed.

Lemma within_mono {A} (c : M A) (k k' : nat) :
  within c k -> (k <= k')%nat -> within c k'.
Proof. intros Hc Hle n. specialize (Hc n). lia. Qed.

(** ** Python values *)

Lemma before_dash_uint (d : Decimal.uint) (s : string) :
  before_dash (NilEmpty.string_of_uint d +:+ s) =
    (NilEmpty.string_of_uint d +:+ before_dash s)%string.
Proof.
  induction d; simpl NilEmpty.string_of_uint;
    rewrite ?str_app_empty_l, ?str_app_cons; [done|..];
    cbn [before_dash Ascii.eqb Bool.eqb]; by rewrite IHd.
Qed.

(** The text of an [int] that is not negative has no dash. *)
Lemma before_dash_str_of_int (n : Z) (s : string) :
  0 <= n ->
  before_dash (str_of_int n +:+ s) = (str_of_int n +:+ before_dash s)%string.
Proof.
  intros Hn. unfold str_of_int, NilZero.string_of_int.
  assert (exists d, Z.to_int n = Decimal.Pos d) as [d ->].
  { destruct n; [by eexists|by eexists|lia]. }
  unfold NilZero.string_of_uint. destruct d; try apply before_dash_uint.
  reflexivity.
Qed.

(** The text of a negative [int] starts with a dash. *)
Lemma before_dash_negative (n : Z) (s : string) :
  n < 0 -> before_dash (str_of_int n +:+ s) = ""%string.
Proof. intros Hn. destruct n; try lia. reflexivity. Qed.

Lemma length_py_prefix {A} (l : list A) (n : Z) :
  0 <= n -> Z.of_nat (length (py_prefix l n)) <= n.
Proof.
  intros Hn. unfold py_prefix. destruct (0 <=? n) eqn:E; [|lia].
  rewrite length_take. lia.
Qed.

Lemma py_prefix_subset {A} (l : list A) (n : Z) (P : A -> Prop) :
  Forall P l -> Forall P (py_prefix l n).
Proof. intros H. unfold py_prefix. destruct (0 <=? n); by apply Forall_take. Qed.

Lemma py_prefix_short {A} (l : list A) (n : Z) :
  Z.of_nat (length l) <= Z.max n 1 -> Z.of_nat (length (py_prefix l n)) <= Z.max n 0.
Proof.
  intros Hl. unfold py_prefix. destruct (0 <=? n) eqn:E; rewrite length_take; lia.
Qed.

Lemma length_py_range2 (start stop : Z) :
  length (py_range2 start stop) = Z.to_nat (stop - start).
Proof. unfold py_range2. by rewrite length_seqZ. Qed.

Section Facts.

Variable api : Api.
Variable py_int : string -> option Z.

(** ** Where an album comes from *)

(** The album [a] was made from a body of an album request whose release
    year is [year] and that names the album and its artists, and from the
    body of the request for its first artist. *)
Definition from_bodies (year : Z) (a : AlbumInfo) : Prop :=
  exists m album_id album_data first others m' artist_data,
    album api m album_id = Body (Some album_data) /\
    release_year_of py_int year album_data = Some year /\
    p_name album_data = Some (album_name a) /\
    p_artists album_data = Some (first :: others) /\
    artist api m' (ref_id first) = Body artist_data /\
    artist_name a = ref_name first /\
    release_year a = year /\
    genre a = genre_of artist_data /\
    tracks a = tracks_of_payload album_data (ref_name first).

Lemma process_from_bodies (album_data : AlbumPayload) (year : Z) m album_id :
  album api m album_id = Body (Some album_data) ->
  release_year_of py_int year album_data = Some year ->
  ensures (_process_album_data api album_data year)
    (fun r => forall a, r = Some a -> from_bodies year a).
Proof.
  intros Halbum Hyear. unfold _process_album_data.
  destruct (p_name album_data) as [name|] eqn:Hname;
    [|by apply ensures_ret].
  destruct (p_artists album_data) as [[|first others]|] eqn:Hartists;
    [apply ensures_raise| |by apply ensures_ret].
  eapply ensures_bind; [apply ensures_call|].
  intros artist_data [m' Hartist]. apply ensures_ret. intros a [= <-].
  exists m, album_id, album_data, first, others, m', artist_data. by simpl.
Qed.

Lemma process_within (album_data : AlbumPayload) (year : Z) :
  within (_process_album_data api album_data year) 1.
Proof.
  unfold _process_album_data.
  destruct (p_name album_data); [|eapply within_mono; [apply within_ret|lia]].
  destruct (p_artists album_data) as [[|first others]|];
    [eapply within_mono; [apply within_raise|lia]| |
     eapply within_mono; [apply within_ret|lia]].
  apply (within_bind _ _ 1 0); [apply within_call|].
  intros a. apply within_ret.
Qed.

(** One album of the search adds at most one album, made from bodies. *)
Lemma fetch_item_adds (year : Z) (item : SearchItem) (year_albums : list AlbumInfo) :
  ensures (fetch_item api py_int year item year_albums)
    (fun r => exists new, r = year_albums ++ new /\ (length new <= 1)%nat /\
                          Forall (from_bodies year) new).
Proof.
  unfold fetch_item. eapply ensures_bind; [apply ensures_call|].
  intros [album_data|] [m Halbum]; simpl in Halbum.
  2:{ apply ensures_ret. exists []. rewrite app_nil_r. split_and!; [done|simpl; lia|done]. }
  destruct (release_year_of py_int year album_data) as [release_year|] eqn:Hyear;
    [|apply ensures_raise].
  destruct (release_year =? year) eqn:Heq.
  2:{ apply ensures_ret. exists []. rewrite app_nil_r. split_and!; [done|simpl; lia|done]. }
  apply Z.eqb_eq in Heq as ->.
  eapply ensures_bind; [by eapply process_from_bodies|].
  intros [a|] Ha.
  - apply ensures_ret. exists [a]. split_and!; [done|simpl; lia|].
    apply Forall_singleton. by apply Ha.
  - apply ensures_ret. exists []. rewrite app_nil_r. split_and!; [done|simpl; lia|done].
Qed.

Lemma fetch_item_within (year : Z) (item : SearchItem) (year_albums : list AlbumInfo) :
  within (fetch_item api py_int year item year_albums) 2.
Proof.
  unfold fetch_item. apply (within_bind _ _ 1 1); [apply within_call|].
  intros [album_data|]; [|eapply within_mono; [apply within_ret|lia]].
  destruct (release_year_of py_int year album_data) as [release_year|];
    [|eapply within_mono; [apply within_raise|lia]].
  destruct (release_year =? year); [|eapply within_mono; [apply within_ret|lia]].
  apply (within_bind _ _ 1 0); [apply process_within|].
  intros [a|]; apply within_ret.
Qed.

(** The loop over the albums of the search stops as soon as it has
    [max_albums] albums. *)
Lemma fetch_items_adds (year max_albums : Z) (items : list SearchItem)
    (year_albums : list AlbumInfo) :
  ensures (fetch_items api py_int year max_albums items year_albums)
    (fun r => exists new, r = year_albums ++ new /\
                          Forall (from_bodies year) new /\
                          Z.of_nat (length r) <=
                            Z.max (Z.of_nat (length year_albums) + 1) max_albums).
Proof.
  revert year_albums. induction items as [|item rest IH]; intros year_albums.
  - apply ensures_ret. exists []. rewrite app_nil_r. split_and!; [done|done|lia].
  - cbn [fetch_items]. eapply ensures_bind; [apply fetch_item_adds|].
    intros r (new & -> & Hlen & Hnew).
    destruct (Z.of_nat (length (year_albums ++ new)) >=? max_albums) eqn:Hstop.
    + apply ensures_ret. exists new. split_and!; [done|done|].
      rewrite length_app. lia.
    + rewrite Z.geb_leb in Hstop. apply Z.leb_gt in Hstop.
      eapply ensures_weaken; [apply IH|].
      intros r (new' & -> & Hnew' & Hlen').
      exists (new ++ new'). rewrite <- app_assoc. split_and!; [done|by apply Forall_app|].
      rewrite !length_app in *. lia.
Qed.

Lemma fetch_items_within (year max_albums : Z) (items : list SearchItem)
    (year_albums : list AlbumInfo) :
  within (fetch_items api py_int year max_albums items year_albums)
    (if 0 <? max_albums then 2 * length items else 2).
Proof.
  revert year_albums. induction items as [|item rest IH]; intros year_albums.
  - cbn [fetch_items]. eapply within_mono; [apply within_ret|lia].
  - cbn [fetch_items]. intros n. unfold bind.
    pose proof (fetch_item_within year item year_albums n) as Hitem.
    destruct (fetch_item api py_int year item year_albums n) as [[r|e] m]; simpl in Hitem.
    2:{ simpl. destruct (0 <? max_albums); simpl length; lia. }
    destruct (Z.of_nat (length r) >=? max_albums) eqn:Hstop.
    + simpl. destruct (0 <? max_albums); simpl length; lia.
    + specialize (IH r m). rewrite Z.geb_leb in Hstop. apply Z.leb_gt in Hstop.
      destruct (0 <? max_albums) eqn:Hpos; simpl length; [lia|].
      apply Z.ltb_ge in Hpos. lia.
Qed.

(** The albums of one year. *)
Lemma fetch_albums_for_year_adds (year max_albums : Z) :
  ensures (_fetch_albums_for_year api py_int year max_albums)
    (fun r => Forall (from_bodies year) r /\
              Z.of_nat (length r) <= Z.max max_albums 0).
Proof.
  unfold _fetch_albums_for_year. eapply ensures_bind; [apply ensures_call|].
  intros data _.
  eapply (ensures_bind _ _ (fun r => Forall (from_bodies year) r /\
                                     Z.of_nat (length r) <= Z.max max_albums 1)).
  - destruct (p_albums data) as [[items|]|];
      [|apply ensures_ret; simpl; split; [done|lia]..].
    eapply ensures_weaken; [apply fetch_items_adds|].
    intros r (new & -> & Hnew & Hlen). simpl in *. split; [done|lia].
  - intros r [Hr Hlen]. apply ensures_ret. split.
    + by apply py_prefix_subset.
    + by apply py_prefix_short.
Qed.

Lemma fetch_albums_for_year_within (year max_albums : Z) :
  within (_fetch_albums_for_year api py_int year max_albums)
    (1 + 2 * Z.to_nat (Z.max max_albums 1)).
Proof.
  unfold _fetch_albums_for_year.
  apply (within_bind _ _ 1 (2 * Z.to_nat (Z.max max_albums 1))); [apply within_call|].
  intros data.
  replace (2 * Z.to_nat (Z.max max_albums 1))%nat
    with (2 * Z.to_nat (Z.max max_albums 1) + 0)%nat by lia.
  apply within_bind; [|intros r; apply within_ret].
  destruct (p_albums data) as [[items|]|];
    [|eapply within_mono; [apply within_ret|lia]..].
  eapply within_mono; [apply fetch_items_within|].
  destruct (0 <? max_albums) eqn:Hpos; [|lia].
  apply Z.ltb_lt in Hpos.
  pose proof (length_py_prefix items max_albums ltac:(lia)). lia.
Qed.

(** The albums of a list that are released in the year [year]. *)
Definition albums_of_year (year : Z) (albums : list AlbumInfo) : list AlbumInfo :=
  List.filter (fun a => release_year a =? year) albums.

Lemma albums_of_year_app (year : Z) (l1 l2 : list AlbumInfo) :
  albums_of_year year (l1 ++ l2) = albums_of_year year l1 ++ albums_of_year year l2.
Proof. apply List.filter_app. Qed.

Lemma albums_of_year_length (year : Z) (albums : list AlbumInfo) :
  (length (albums_of_year year albums) <= length albums)%nat.
Proof.
  induction albums as [|a albums IH]; simpl; [lia|].
  destruct (release_year a =? year); simpl; lia.
Qed.

Lemma albums_of_year_none (year : Z) (albums : list AlbumInfo) :
  Forall (fun a => release_year a <> year) albums -> albums_of_year year albums = [].
Proof.
  induction 1 as [|a albums Ha _ IH]; [done|]. simpl.
  destruct (Z.eqb_spec (release_year a) year); [done|exact IH].
Qed.

(** The loop over the years [first_year], [first_year + 1], ... *)
Lemma fetch_years_adds (albums_per_year : Z) (k : nat) (first_year : Z)
    (all_albums : list AlbumInfo) :
  ensures (fetch_years api py_int albums_per_year (seqZ first_year (Z.of_nat k)) all_albums)
    (fun r => exists new, r = all_albums ++ new /\
       Forall (fun a => first_year <= release_year a < first_year + Z.of_nat k /\
                        from_bodies (release_year a) a) new /\
       StronglySorted Z.le (release_year <$> new) /\
       Z.of_nat (length new) <= Z.max albums_per_year 0 * Z.of_nat k /\
       (forall year,
          Z.of_nat (length (albums_of_year year new)) <= Z.max albums_per_year 0)).
Proof.
  revert first_year all_albums. induction k as [|k IH]; intros first_year all_albums.
  - apply ensures_ret. exists []. rewrite app_nil_r.
    split_and!; [done|done|constructor|simpl; lia|intros; simpl; lia].
  - rewrite seqZ_cons by lia. cbn [fetch_years].
    eapply ensures_bind; [apply fetch_albums_for_year_adds|].
    intros year_albums [Hyear Hlen].
    replace (Z.pred (Z.of_nat (S k))) with (Z.of_nat k) by lia.
    eapply ensures_weaken; [apply IH|].
    intros r (new & -> & Hnew & Hsorted & Hlen' & Hper).
    exists (year_albums ++ new). rewrite <- app_assoc.
    assert (Hfirst : Forall (fun a => release_year a = first_year) year_albums).
    { eapply Forall_impl; [exact Hyear|].
      by intros a (? & ? & ? & ? & ? & ? & ? & ? & ? & ? & ? & ? & ? & ? & ? & ?). }
    split_and!; [done| | | |].
    + apply Forall_app. split.
      * rewrite Forall_forall in Hyear, Hfirst. apply Forall_forall. intros a Ha.
        rewrite (Hfirst a Ha). split; [lia|]. by apply Hyear.
      * eapply Forall_impl; [exact Hnew|]. intros a [? ?]. split; [lia|done].
    + rewrite fmap_app. apply StronglySorted_app_2; [| |done].
      * intros x1 x2 (a1 & -> & Ha1)%list_elem_of_fmap (a2 & -> & Ha2)%list_elem_of_fmap.
        rewrite Forall_forall in Hfirst, Hnew.
        rewrite (Hfirst a1 Ha1). destruct (Hnew a2 Ha2) as [? _]. lia.
      * clear -Hfirst. induction Hfirst as [|a l Ha Hl IHl]; [constructor|].
        rewrite fmap_cons. constructor; [done|].
        apply Forall_fmap. eapply Forall_impl; [exact Hl|].
        intros b Hb. unfold compose. rewrite Ha, Hb. lia.
    + rewrite length_app. lia.
    + intros year. rewrite albums_of_year_app, length_app.
      destruct (decide (year = first_year)) as [->|Hyear'].
      * rewrite (albums_of_year_none first_year new).
        2:{ eapply Forall_impl; [exact Hnew|]. intros a [? _]. lia. }
        pose proof (albums_of_year_length first_year year_albums). simpl. lia.
      * rewrite (albums_of_year_none year year_albums).
        2:{ eapply Forall_impl; [exact Hfirst|]. intros a ->. done. }
        apply Hper.
Qed.

Lemma fetch_years_within (albums_per_year : Z) (years : list Z)
    (all_albums : list AlbumInfo) :
  within (fetch_years api py_int albums_per_year years all_albums)
    (length years * (1 + 2 * Z.to_nat (Z.max albums_per_year 1))).
Proof.
  revert all_albums. induction years as [|year years IH]; intros all_albums.
  - apply within_ret.
  - cbn [fetch_years length Nat.mul].
    apply within_bind; [apply fetch_albums_for_year_within|].
    intros year_albums. apply IH.
Qed.

(** The genre of an album is ["Unknown"], ["Rock"] or a value of the
    mapping. *)
Lemma genre_of_value (artist_data : option ArtistPayload) :
  genre_of artist_data ∈
    "Unknown"%string :: "Rock"%string :: ChinookGenreMapper.genre_mapping.*2.
Proof.
  unfold genre_of.
  destruct artist_data as [[[[|g gs]|]]|]; try apply list_elem_of_here.
  apply list_elem_of_further, ChinookGenreMapperMore.first_match_value.
Qed.

Lemma fetch_range (current_year start_year end_year : Z) :
  py_range2 start_year (Z.min (end_year + 1) (current_year + 1)) =
    seqZ start_year
      (Z.of_nat (Z.to_nat (Z.min end_year current_year + 1 - start_year))).
Proof.
  unfold py_range2.
  destruct (decide (Z.min end_year current_year + 1 - start_year < 0)) as [Hneg|Hpos].
  - replace (Z.to_nat _) with 0%nat by lia.
    unfold seqZ. by replace (Z.to_nat _) with 0%nat by lia.
  - f_equal. lia.
Qed.

(** X15. When the fetch over a range of years returns, every album it
    returns was made from the body of an album request that names the album
    and its artists and whose release year, read from the text before the
    first dash of its release date, is the year searched for; its artist is
    the first artist of that body, its genre comes from the body of the
    request for that artist, its tracks are the items of the body. The
    release years lie between the start year and the earlier of the end
    year and the current year, and never decrease along the list. *)
Theorem fetched_albums_come_from_bodies
    (current_year start_year end_year albums_per_year : Z)
    (n n' : nat) (albums : list AlbumInfo) :
  fetch_albums_by_year_range api py_int current_year start_year end_year albums_per_year n
    = (Ok albums, n') ->
  Forall (fun a => start_year <= release_year a <= Z.min end_year current_year /\
                   from_bodies (release_year a) a) albums /\
  StronglySorted Z.le (release_year <$> albums).
Proof.
  unfold fetch_albums_by_year_range. rewrite fetch_range. intros H.
  apply fetch_years_adds in H as (new & -> & Hnew & Hsorted & _).
  simpl. split; [|done].
  eapply Forall_impl; [exact Hnew|]. intros a [? ?]. split; [lia|done].
Qed.

(** X16. The albums a fetch returns are what the SQL generator expects:
    the composer of every track is the artist of its album, and the genre
    of the album is ["Unknown"], ["Rock"] or a value of the genre mapping,
    so that its identifier lies between 1 and 24. *)
Theorem fetched_albums_fit_generator
    (current_year start_year end_year albums_per_year : Z)
    (n n' : nat) (albums : list AlbumInfo) :
  fetch_albums_by_year_range api py_int current_year start_year end_year albums_per_year n
    = (Ok albums, n') ->
  Forall (fun a =>
      Forall (fun t => composer t = artist_name a) (tracks a) /\
      genre a ∈ "Unknown"%string :: "Rock"%string :: ChinookGenreMapper.genre_mapping.*2 /\
      1 <= ChinookGenreMapper.get_genre_id (genre a) <= 24) albums.
Proof.
  unfold fetch_albums_by_year_range. rewrite fetch_range. intros H.
  apply fetch_years_adds in H as (new & -> & Hnew & _).
  simpl. eapply Forall_impl; [exact Hnew|].
  intros a [_ (m & album_id & album_data & first & others & m' & artist_data &
               _ & _ & _ & _ & _ & Hartist & _ & Hgenre & Htracks)].
  assert (Hin := genre_of_value artist_data). rewrite <- Hgenre in Hin.
  split; [|split; [done|]].
  - rewrite Htracks, Hartist. unfold tracks_of_payload.
    destruct (p_tracks album_data) as [[items|]|]; [|done..].
    apply Forall_forall. by intros t (item & -> & _)%list_elem_of_fmap.
  - assert (Hall : Forall (fun v =>
        (1 <=? ChinookGenreMapper.get_genre_id v) &&
        (ChinookGenreMapper.get_genre_id v <=? 24) = true)
      ("Unknown"%string :: "Rock"%string :: ChinookGenreMapper.genre_mapping.*2)).
    { apply (bool_decide_unpack _). by vm_compute. }
    rewrite Forall_forall in Hall. specialize (Hall _ Hin).
    apply andb_true_iff in Hall as [?%Z.leb_le ?%Z.leb_le]. lia.
Qed.

(** X17. A fetch over a range of years makes, whatever its outcome, at
    most one search and two requests for each of [albums_per_year] albums
    in every year of the range (one search and two requests when
    [albums_per_year] is below 1); it makes no request when the start year
    is after the end year or the current year. When it returns, it returns
    for every year at most [albums_per_year] albums released in that year,
    so at most [albums_per_year] albums times the number of years of the
    range in all, and none when [albums_per_year] is below 1. *)
Theorem fetch_is_bounded (current_year start_year end_year albums_per_year : Z) (n : nat) :
  let years := Z.to_nat (Z.min end_year current_year + 1 - start_year) in
  let result :=
    fetch_albums_by_year_range api py_int current_year start_year end_year albums_per_year n in
  (n <= result.2 <= n + years * (1 + 2 * Z.to_nat (Z.max albums_per_year 1)))%nat /\
  (Z.min end_year current_year < start_year -> result = (Ok [], n)) /\
  (forall albums, result.1 = Ok albums ->
     (forall year,
        Z.of_nat (length (albums_of_year year albums)) <= Z.max albums_per_year 0) /\
     Z.of_nat (length albums) <= Z.max albums_per_year 0 * Z.of_nat years /\
     (albums_per_year < 1 -> albums = [])).
Proof.
  intros years result. subst result. unfold fetch_albums_by_year_range.
  rewrite fetch_range. fold years. split; [|split].
  - pose proof (fetch_years_within albums_per_year (seqZ start_year (Z.of_nat years)) [] n)
      as H.
    by rewrite length_seqZ, Nat2Z.id in H.
  - intros Hempty. by replace years with 0%nat by lia.
  - intros albums Hok.
    destruct (fetch_years _ _ _ _ _ _) as [r n'] eqn:H. simpl in Hok. subst r.
    apply fetch_years_adds in H as (new & -> & _ & _ & Hlen & Hper). simpl.
    split; [exact Hper|]. split; [done|]. intros Hsmall.
    apply length_zero_iff_nil.
    replace (Z.max albums_per_year 0) with 0 in Hlen by lia. lia.
Qed.

(** X18. One album of the first year's search that cannot be read ends the
    whole fetch: a body with a name and an empty list of artists raises
    [IndexError], and a body whose release date does not start with an
    integer raises [ValueError]; both after the search and the album
    request, without a request for an artist. A body without a name or
    without artists is passed over instead. *)
Theorem unreadable_album_aborts_fetch
    (current_year start_year end_year albums_per_year : Z) (n : nat)
    (item : SearchItem) (items : list SearchItem) (album_data : AlbumPayload) :
  start_year <= end_year -> start_year <= current_year -> 1 <= albums_per_year ->
  search api n start_year (Z.min albums_per_year 50) =
    Body (mkSearchPayload (Some (Some (item :: items)))) ->
  album api (S n) (s_id item) = Body (Some album_data) ->
  let fetch :=
    fetch_albums_by_year_range api py_int current_year start_year end_year albums_per_year n in
  (release_year_of py_int start_year album_data = None ->
     fetch = (Raise ValueError, S (S n))) /\
  (release_year_of py_int start_year album_data = Some start_year ->
     p_name album_data <> None -> p_artists album_data = Some [] ->
     fetch = (Raise IndexError, S (S n))) /\
  (release_year_of py_int start_year album_data = Some start_year ->
     p_name album_data = None \/ p_artists album_data = None ->
     fetch_item api py_int start_year item [] (S n) = (Ok [], S (S n))).
Proof.
  intros Hend Hcur Hcount Hsearch Halbum fetch.
  assert (Hitem :
    fetch_item api py_int start_year item [] (S n) =
      match release_year_of py_int start_year album_data with
      | None => (Raise ValueError, S (S n))
      | Some release_year =>
          if release_year =? start_year then
            bind (_process_album_data api album_data start_year)
              (fun album_info =>
                 match album_info with
                 | Some album_info => ret ([] ++ [album_info])
                 | None => ret []
                 end) (S (S n))
          else (Ok [], S (S n))
      end).
  { unfold fetch_item. erewrite bind_ok; [|by apply call_body]. cbv beta iota.
    destruct (release_year_of py_int start_year album_data) as [y|]; [|done].
    by destruct (y =? start_year). }
  assert (Hlift : forall e m,
    fetch_item api py_int start_year item [] (S n) = (Raise e, m) ->
    fetch = (Raise e, m)).
  { intros e m Hraise. subst fetch. unfold fetch_albums_by_year_range.
    rewrite fetch_range.
    replace (Z.of_nat _) with (Z.min end_year current_year + 1 - start_year) by lia.
    rewrite seqZ_cons by lia. cbn [fetch_years].
    apply bind_raise. unfold _fetch_albums_for_year.
    erewrite bind_ok; [|by apply call_body]. cbn [p_albums].
    apply bind_raise.
    assert (exists rest, py_prefix (item :: items) albums_per_year = item :: rest)
      as [rest ->].
    { unfold py_prefix. replace (0 <=? albums_per_year) with true by lia.
      destruct (Z.to_nat albums_per_year) eqn:E; [lia|]. by eexists. }
    cbn [fetch_items]. by apply bind_raise. }
  split_and!.
  - intros Hyear. apply Hlift. by rewrite Hitem, Hyear.
  - intros Hyear Hname Hartists. apply Hlift.
    rewrite Hitem, Hyear, Z.eqb_refl. apply bind_raise.
    unfold _process_album_data. rewrite Hartists. by destruct (p_name album_data).
  - intros Hyear Hmissing. rewrite Hitem, Hyear, Z.eqb_refl.
    rewrite (bind_ok _ _ _ (S (S n)) None); [done|].
    unfold _process_album_data.
    destruct Hmissing as [-> | ->]; [done|]. by destruct (p_name album_data).
Qed.

(** X19. A body without a release date counts as released in the year
    searched for: the year read is [int] of the text of that year. For a
    negative year that text starts with a dash, and the year read is [int]
    of the empty text. *)
Theorem missing_release_date_reads_target_year (year : Z) (album_data : AlbumPayload) :
  p_release_date album_data = None ->
  release_year_of py_int year album_data =
    py_int (if 0 <=? year then str_of_int year else ""%string).
Proof.
  intros Hdate. unfold release_year_of. rewrite Hdate. cbn [default]. f_equal.
  destruct (0 <=? year) eqn:Hyear.
  - rewrite before_dash_str_of_int by lia. cbn [before_dash Ascii.eqb Bool.eqb].
    apply str_app_empty_r.
  - apply before_dash_negative. lia.
Qed.

End Facts.

(** ** A remote side to run the fetcher on *)

(** [int] on the texts that [str] gives. *)
Definition decimal_int (s : string) : option Z :=
  Z.of_int <$> NilZero.int_of_string s.

(** Two albums are found for every year; the first is released in the year
    searched for, the second in 1999. *)
Definition sample_api : Api :=
  {| search := fun _ _ _ =>
       Body (mkSearchPayload (Some (Some [mkSearchItem "a1"; mkSearchItem "a2"])));
     album := fun _ album_id =>
       if String.eqb album_id "a1" then
         Body (Some (mkAlbumPayload (Some "First") (Some [mkArtistRef "Ann" "r1"]) None
                 (Some (Some [mkTrackItem "One" 1000; mkTrackItem "Two" 2000]))))
       else
         Body (Some (mkAlbumPayload (Some "Second") (Some [mkArtistRef "Bob" "r2"])
                 (Some "1999-04-01") None));
     artist := fun _ _ => Body (Some (mkArtistPayload (Some ["indie rock"%string]))) |}.

(** The first album found has no artists, or an unreadable release date. *)
Definition broken_api (album_data : AlbumPayload) : Api :=
  {| search := fun _ _ _ => Body (mkSearchPayload (Some (Some [mkSearchItem "a1"])));
     album := fun _ _ => Body (Some album_data);
     artist := fun _ _ => Body None |}.

Lemma fetched_albums_come_from_bodies_witness :
  exists albums n',
    fetch_albums_by_year_range sample_api decimal_int 2021 2020 2030 5 0%nat = (Ok albums, n') /\
    length albums = 2%nat /\
    StronglySorted Z.le (release_year <$> albums).
Proof.
  eexists _, _. split; [by vm_compute|]. split; [reflexivity|].
  eapply (fetched_albums_come_from_bodies sample_api decimal_int 2021 2020 2030 5 0%nat).
  by vm_compute.
Defined.

Lemma fetched_albums_fit_generator_witness :
  exists albums n',
    fetch_albums_by_year_range sample_api decimal_int 2021 2020 2030 5 0%nat = (Ok albums, n') /\
    Forall (fun a => Forall (fun t => composer t = artist_name a) (tracks a) /\
      genre a ∈ "Unknown"%string :: "Rock"%string :: ChinookGenreMapper.genre_mapping.*2 /\
      1 <= ChinookGenreMapper.get_genre_id (genre a) <= 24) albums.
Proof.
  eexists _, _. split; [by vm_compute|].
  eapply (fetched_albums_fit_generator sample_api decimal_int 2021 2020 2030 5 0%nat).
  by vm_compute.
Defined.

Lemma unreadable_album_aborts_fetch_witness :
  fetch_albums_by_year_range
    (broken_api (mkAlbumPayload (Some "First") (Some []) None None))
    decimal_int 2021 2020 2030 5 0%nat = (Raise IndexError, 2%nat).
Proof.
  refine (proj1 (proj2 (unreadable_album_aborts_fetch
    (broken_api (mkAlbumPayload (Some "First") (Some []) None None))
    decimal_int 2021 2020 2030 5 0%nat (mkSearchItem "a1") [] _ _ _ _ _ _)) _ _ _);
    try reflexivity; try lia; done.
Defined.

Lemma missing_release_date_reads_target_year_witness :
  release_year_of decimal_int 2020 (mkAlbumPayload (Some "First") None None None) =
    Some 2020.
Proof.
  rewrite (missing_release_date_reads_target_year decimal_int 2020
             (mkAlbumPayload (Some "First") None None None) eq_refl).
  reflexivity.
Defined.

End SpotifyAlbumFetcherFacts.

(** * The command line: [validate_args], [get_max_ids], [main] *)

Module CommandLine.

Import SQLGenerator SpotifyAlbumFetcher.

(** The arguments [parse_args] returns. *)
Record Args := mkArgs {
  start_year : Z;
  end_year : Z;
  count : Z;
  output : string;
  max_rows : Z }.

(** What [validate_args] does: it raises a [ValueError] with a message, or
    returns, after a warning or without one. *)
Inductive Validation :=
| Rejected (message : string)
| Accepted (warned : bool).

(** [validate_args(args)] in the year [current_year]. *)
Definition validate_args (current_year : Z) (args : Args) : Validation :=
  if start_year args >? end_year args then
    Rejected "Start year must be less than or equal to end year."
  else if count args <? 1 then
    Rejected "Album count must be at least 1."
  else if max_rows args <? 1 then
    Rejected "Maximum rows per INSERT must be at least 1."
  else Accepted (end_year args >? current_year).

(** What [get_max_ids] does: it returns three identifiers, raises
    [ValueError("Invalid input for database IDs")], or lets through the
    exception of a [print] that fails or the [EOFError] of [input]. *)
Inductive Ids :=
| IdsRead (max_artist_id max_album_id max_track_id : Z)
| IdsInvalid
| IdsPrintFailed
| IdsEndOfInput.

(** What [SpotifyClient()] does: it returns a client with a token, raises
    [ValueError] for credentials that are not set, or lets through the
    exception of [_get_token]. *)
Inductive Construction :=
| Built (token : string)
| NoCredentials
| TokenRefused (e : string).

(** Whether [os.getenv] gives a text that is not empty. *)
Definition is_set (value : option string) : bool :=
  match value with
  | Some (String _ _) => true
  | _ => false
  end.

(** [SpotifyClient()] with the two environment variables and the answer to
    the request of [_get_token], and the number of requests for a token it
    sends. *)
Definition new_client (client_id client_secret : option string)
    (answer : SpotifyClient.TokenResult) : Construction * nat :=
  if negb (is_set client_id) || negb (is_set client_secret) then (NoCredentials, 0%nat)
  else
    match answer with
    | SpotifyClient.Token t => (Built t, 1%nat)
    | SpotifyClient.TokenFailed e => (TokenRefused e, 1%nat)
    end.

Section Main.

(** [int] on a text ([None] is its [ValueError]) and [str.strip]. *)
Variable py_int : string -> option Z.
Variable strip : string -> string.

(** [get_max_ids()] on the lines of the standard input, with the number of
    lines it reads; [printed] tells whether the calls of [print] before the
    first [input] return. *)
Definition get_max_ids (printed : bool) (stdin : list string) : Ids * nat :=
  if negb printed then (IdsPrintFailed, 0%nat) else
  match stdin with
  | [] => (IdsEndOfInput, 0%nat)
  | line1 :: stdin =>
      match py_int (strip line1) with
      | None => (IdsInvalid, 1%nat)
      | Some max_artist_id =>
          match stdin with
          | [] => (IdsEndOfInput, 1%nat)
          | line2 :: stdin =>
              match py_int (strip line2) with
              | None => (IdsInvalid, 2%nat)
              | Some max_album_id =>
                  match stdin with
                  | [] => (IdsEndOfInput, 2%nat)
                  | line3 :: _ =>
                      match py_int (strip line3) with
                      | None => (IdsInvalid, 3%nat)
                      | Some max_track_id =>
                          (IdsRead max_artist_id max_album_id max_track_id, 3%nat)
                      end
                  end
              end
          end
      end
  end.

(** What [main] finds outside: the year when the arguments are validated
    and when the albums are fetched, the time and the random draws of the
    generator, whether the calls of [print] of [get_max_ids] return, the
    lines of the standard input, the two environment variables, the answer
    to the request for a token, the answers to the calls of
    [make_request], whether [write_text] returns, and whether what follows
    it in the [try] block returns: [output_path.absolute()] in the message
    that is logged, and the last [print]. *)
Record World := mkWorld {
  year_at_validation : Z;
  year_at_fetch : Z;
  now : string;
  rng : nat -> Draw;
  prompt_printed : bool;
  stdin : list string;
  client_id : option string;
  client_secret : option string;
  token_answer : SpotifyClient.TokenResult;
  api : Api;
  write_succeeds : bool;
  report_succeeds : bool }.

(** What [main] does: its exit code, the lines it reads, the requests for
    a token that [SpotifyClient()] sends, the calls of [make_request] the
    fetcher makes (each of them sends one to three requests), and the call
    of [write_text], as the name of the file and the text. *)
Record Run := mkRun {
  exit_code : Z;
  lines_read : nat;
  token_requests : nat;
  requests : nat;
  written : option (string * string) }.

(** [main()] with the arguments [args]. Every exception raised in the
    [try] block gives the exit code 1. *)
Definition main (w : World) (args : Args) : Run :=
  match validate_args (year_at_validation w) args with
  | Rejected _ => mkRun 1 0 0 0 None
  | Accepted _ =>
      match get_max_ids (prompt_printed w) (stdin w) with
      | (IdsRead max_artist_id max_album_id max_track_id, lines) =>
          match new_client (client_id w) (client_secret w) (token_answer w) with
          | (Built _, posts) =>
              match fetch_albums_by_year_range (api w) py_int (year_at_fetch w)
                      (start_year args) (end_year args) (count args) 0%nat with
              | (Ok albums, made) =>
                  match generate_sql (max_rows args) (now w) (rng w) albums
                          max_artist_id max_album_id max_track_id with
                  | Some sql =>
                      if write_succeeds w then
                        if report_succeeds w
                        then mkRun 0 lines posts made (Some (output args, sql))
                        else mkRun 1 lines posts made (Some (output args, sql))
                      else mkRun 1 lines posts made (Some (output args, sql))
                  | None => mkRun 1 lines posts made None
                  end
              | (Raise _, made) => mkRun 1 lines posts made None
              end
          | (_, posts) => mkRun 1 lines posts 0 None
          end
      | (_, lines) => mkRun 1 lines 0 0 None
      end
  end.

End Main.

End CommandLine.

(** * Properties of the command line *)

Module CommandLineFacts.

Import SQLGenerator SQLGeneratorFacts LayoutFacts.
Import SpotifyAlbumFetcher SpotifyAlbumFetcherFacts CommandLine.

(** A generator whose batch size is not zero returns. *)
Lemma generate_sql_returns (max_rows_per_batch : Z) (now : string) (rng : nat -> Draw)
    (albums : list AlbumInfo) (max_artist_id max_album_id max_track_id : Z) :
  max_rows_per_batch <> 0 ->
  is_Some (generate_sql max_rows_per_batch now rng albums
             max_artist_id max_album_id max_track_id).
Proof.
  intros Hk. unfold generate_sql.
  rewrite (append_if_rows_section (_generate_artist_sql max_rows_per_batch))
    by (intros; by apply generate_batched_sql_is_Some).
  cbv beta iota delta [mbind option_bind].
  rewrite (append_if_rows_section (_generate_album_sql max_rows_per_batch))
    by (intros; by apply generate_batched_sql_is_Some).
  cbv beta iota delta [mbind option_bind].
  rewrite (append_if_rows_section (_generate_track_sql max_rows_per_batch))
    by (intros; by apply generate_batched_sql_is_Some).
  by eexists.
Qed.

Lemma validate_args_accepted (current_year : Z) (args : Args) (warned : bool) :
  validate_args current_year args = Accepted warned <->
  start_year args <= end_year args /\ 1 <= count args /\ 1 <= max_rows args /\
  warned = (end_year args >? current_year).
Proof.
  unfold validate_args.
  destruct (Z.gtb_spec (start_year args) (end_year args));
    [split; [done|lia]|].
  destruct (Z.ltb_spec (count args) 1); [split; [done|lia]|].
  destruct (Z.ltb_spec (max_rows args) 1); [split; [done|lia]|].
  split.
  - intros [= <-]. split_and!; [lia..|done].
  - by intros (_ & _ & _ & ->).
Qed.

Lemma validate_args_rejected (current_year : Z) (args : Args) (message : string) :
  validate_args current_year args = Rejected message ->
  end_year args < start_year args \/ count args < 1 \/ max_rows args < 1.
Proof.
  unfold validate_args.
  destruct (Z.gtb_spec (start_year args) (end_year args)); [lia|].
  destruct (Z.ltb_spec (count args) 1); [lia|].
  destruct (Z.ltb_spec (max_rows args) 1); [lia|done].
Qed.

Lemma get_max_ids_lines (py_int : string -> option Z) (strip : string -> string)
    (printed : bool) (stdin : list string) :
  ((get_max_ids py_int strip printed stdin).2 <= 3)%nat /\
  ((get_max_ids py_int strip printed stdin).2 <= length stdin)%nat.
Proof.
  unfold get_max_ids. destruct printed; [|simpl; lia].
  destruct stdin as [|l1 [|l2 [|l3 stdin]]]; simpl;
    repeat (destruct (py_int _); simpl); lia.
Qed.

Lemma get_max_ids_read (py_int : string -> option Z) (strip : string -> string)
    (printed : bool) (stdin : list string) (a b c : Z) :
  (get_max_ids py_int strip printed stdin).1 = IdsRead a b c -> printed = true.
Proof. unfold get_max_ids. by destruct printed. Qed.

(** A run that ends with the exit code 1 before [write_text] is called. *)
Ltac failed_run :=
  simpl; split_and!;
  [ by right
  | split; [by intros [? [=]]|];
    intros (_ & ? & (? & ? & ? & ?) & (? & ? & ? & ?) & (? & ?));
    simpl in *; congruence
  | split; [done|];
    intros ((_ & ? & (? & ? & ? & ?) & (? & ? & ? & ?) & (? & ?)) & _);
    simpl in *; congruence
  | intros; lia
  | by intros [?|?]
  | lia
  | lia ].

Section Facts.

Variable py_int : string -> option Z.
Variable strip : string -> string.

(** X20. Once [parse_args] has returned, [main] exits with 0 or 1.
    [write_text] is called exactly when the arguments are valid (the start
    year is not after the end year, the album count and the batch size are
    at least 1), the prompts are printed and three identifiers are read,
    both credentials are set and the token is granted, and the fetch
    returns: with valid arguments the generator never raises. [main] exits
    with 0 exactly when, after that, [write_text] returns and what follows
    it in the [try] block (the absolute path for the log, the last [print])
    returns as well; so the exit code 1 does not tell that no file was
    written. When the arguments are rejected, nothing is read, requested
    or written; without credentials no request is sent. At most three
    lines are read and at most one token is requested. *)
Theorem main_exits_zero_iff (w : World) (args : Args) :
  let run := main py_int strip w args in
  let ready :=
    (start_year args <= end_year args /\ 1 <= count args /\ 1 <= max_rows args) /\
    prompt_printed w = true /\
    (exists a b c,
       (get_max_ids py_int strip (prompt_printed w) (stdin w)).1 = IdsRead a b c) /\
    (is_set (client_id w) = true /\ is_set (client_secret w) = true /\
     exists t, token_answer w = SpotifyClient.Token t) /\
    (exists albums,
       (fetch_albums_by_year_range (api w) py_int (year_at_fetch w)
          (start_year args) (end_year args) (count args) 0%nat).1 = Ok albums) in
  (exit_code run = 0 \/ exit_code run = 1) /\
  (is_Some (written run) <-> ready) /\
  (exit_code run = 0 <->
     ready /\ write_succeeds w = true /\ report_succeeds w = true) /\
  ((end_year args < start_year args \/ count args < 1 \/ max_rows args < 1) ->
     run = mkRun 1 0 0 0 None) /\
  (is_set (client_id w) = false \/ is_set (client_secret w) = false ->
     token_requests run = 0%nat /\ requests run = 0%nat /\ written run = None /\
     exit_code run = 1) /\
  (lines_read run <= 3)%nat /\ (token_requests run <= 1)%nat.
Proof.
  intros run ready. subst run ready. unfold main, new_client.
  pose proof (get_max_ids_lines py_int strip (prompt_printed w) (stdin w)) as [Hlines _].
  pose proof (get_max_ids_read py_int strip (prompt_printed w) (stdin w)) as Hprinted.
  destruct (validate_args (year_at_validation w) args) as [message|warned] eqn:Hvalid.
  { apply validate_args_rejected in Hvalid. simpl.
    split_and!; [by right| | |done|done|lia|lia].
    - split; [by intros [? [=]]|lia].
    - split; [done|lia]. }
  apply validate_args_accepted in Hvalid as (Hyears & Hcount & Hrows & _).
  destruct (get_max_ids py_int strip (prompt_printed w) (stdin w)) as [ids lines] eqn:Hids.
  simpl in Hlines, Hprinted.
  destruct ids as [a b c| | |]; [|failed_run..].
  specialize (Hprinted a b c eq_refl).
  destruct (is_set (client_id w)) eqn:Hid; [|failed_run].
  destruct (is_set (client_secret w)) eqn:Hsecret; [|failed_run].
  destruct (token_answer w) as [t|e] eqn:Htoken; [|failed_run].
  cbn [negb orb].
  destruct (fetch_albums_by_year_range _ _ _ _ _ _ _) as [[albums|e] made] eqn:Hfetch;
    [|failed_run].
  destruct (generate_sql_returns (max_rows args) (now w) (rng w) albums a b c)
    as [sql ->]; [lia|].
  assert (Hready :
    (start_year args <= end_year args /\ 1 <= count args /\ 1 <= max_rows args) /\
    prompt_printed w = true /\
    (exists a0 b0 c0, (IdsRead a b c, lines).1 = IdsRead a0 b0 c0) /\
    (true = true /\ true = true /\
     exists t0, SpotifyClient.Token t = SpotifyClient.Token t0) /\
    (exists albums0, (Ok albums, made).1 = Ok albums0)).
  { split_and!; eauto. }
  destruct (write_succeeds w) eqn:Hwrite; [destruct (report_succeeds w) eqn:Hreport|];
    simpl; (split_and!;
      [ (by left) || (by right)
      | split; [done|by eexists]
      | split; [(by intros _) || done|(by intros (_ & [=] & _)) || (by intros (_ & _ & [=])) || done]
      | intros; lia
      | by intros [?|?]
      | lia
      | lia ]).
Qed.

(** X21. When [main] exits with 0, the text it writes to the output file
    is the SQL the generator gives for the albums the fetcher returned and
    the three identifiers read; the albums are released between the start
    year and the earlier of the end year and the current year, in that
    order, and for every year at most [count] of them are released in that
    year. *)
Theorem main_writes_generated_sql (w : World) (args : Args) :
  exit_code (main py_int strip w args) = 0 ->
  exists albums a b c sql,
    (get_max_ids py_int strip (prompt_printed w) (stdin w)).1 = IdsRead a b c /\
    fetch_albums_by_year_range (api w) py_int (year_at_fetch w)
      (start_year args) (end_year args) (count args) 0%nat =
      (Ok albums, requests (main py_int strip w args)) /\
    generate_sql (max_rows args) (now w) (rng w) albums a b c = Some sql /\
    written (main py_int strip w args) = Some (output args, sql) /\
    Forall (fun album => start_year args <= release_year album <=
                         Z.min (end_year args) (year_at_fetch w)) albums /\
    StronglySorted Z.le (release_year <$> albums) /\
    (forall year, Z.of_nat (length (albums_of_year year albums)) <= count args) /\
    Z.of_nat (length albums) <=
      count args * Z.max (Z.min (end_year args) (year_at_fetch w) + 1 - start_year args) 0.
Proof.
  unfold main.
  destruct (validate_args (year_at_validation w) args) as [message|warned] eqn:Hvalid;
    [done|].
  apply validate_args_accepted in Hvalid as (Hyears & Hcount & Hrows & _).
  destruct (get_max_ids py_int strip (prompt_printed w) (stdin w))
    as [[a b c| | |] lines]; [|done..].
  destruct (new_client _ _ _) as [[t| |e] posts]; [|done..].
  destruct (fetch_albums_by_year_range _ _ _ _ _ _ _) as [[albums|e] made] eqn:Hfetch;
    [|done].
  destruct (generate_sql _ _ _ _ _ _ _) as [sql|] eqn:Hsql; [|done].
  destruct (write_succeeds w); [|done]. destruct (report_succeeds w); [|done].
  intros _. exists albums, a, b, c, sql. simpl.
  unfold fetch_albums_by_year_range in Hfetch. rewrite fetch_range in Hfetch.
  apply fetch_years_adds in Hfetch as (new & Hnew & Hall & Hsorted & Hlen & Hper).
  simpl in Hnew. subst new.
  replace (Z.max (count args) 0) with (count args) in Hlen, Hper by lia.
  split_and!; [done|done|done|done| |done|exact Hper|].
  - eapply Forall_impl; [exact Hall|]. intros album [? _]. lia.
  - by replace (Z.of_nat (Z.to_nat _)) with
      (Z.max (Z.min (end_year args) (year_at_fetch w) + 1 - start_year args) 0)
      in Hlen by lia.
Qed.

(** X22. A start year after the current year is not rejected: with valid
    arguments, the prompts printed and three identifiers read, both
    credentials set and the token granted, and a file that can be written
    and reported, [main] sends the one request for a token of
    [SpotifyClient()], makes no call of [make_request], and exits with 0
    after writing a file that holds the header only. *)
Theorem future_start_year_writes_header (w : World) (args : Args) (a b c : Z)
    (t : string) :
  start_year args <= end_year args -> 1 <= count args -> 1 <= max_rows args ->
  year_at_fetch w < start_year args ->
  (get_max_ids py_int strip (prompt_printed w) (stdin w)).1 = IdsRead a b c ->
  is_set (client_id w) = true -> is_set (client_secret w) = true ->
  token_answer w = SpotifyClient.Token t ->
  write_succeeds w = true -> report_succeeds w = true ->
  main py_int strip w args =
    mkRun 0 (get_max_ids py_int strip (prompt_printed w) (stdin w)).2 1 0
      (Some (output args, _generate_header (now w))).
Proof.
  intros Hyears Hcount Hrows Hfuture Hids Hid Hsecret Htoken Hwrite Hreport.
  unfold main.
  destruct (validate_args (year_at_validation w) args) as [message|warned] eqn:Hvalid.
  { apply validate_args_rejected in Hvalid. lia. }
  destruct (get_max_ids py_int strip (prompt_printed w) (stdin w)) as [ids lines].
  simpl in Hids. subst ids.
  unfold new_client. rewrite Hid, Hsecret, Htoken. cbn [negb orb].
  unfold fetch_albums_by_year_range. rewrite fetch_range.
  replace (Z.to_nat _) with 0%nat by lia.
  change (seqZ (start_year args) (Z.of_nat 0)) with (@nil Z).
  cbn [fetch_years ret].
  change (generate_sql (max_rows args) (now w) (rng w) [] a b c)
    with (Some (_generate_header (now w))).
  by rewrite Hwrite, Hreport.
Qed.

End Facts.

(** ** A run *)

Definition sample_world (year : Z) : World :=
  {| year_at_validation := year;
     year_at_fetch := year;
     now := "2026-01-01 00:00:00";
     rng := sample_rng;
     prompt_printed := true;
     stdin := ["10"; "20"; "30"]%string;
     client_id := Some "id"%string;
     client_secret := Some "secret"%string;
     token_answer := SpotifyClient.Token "token";
     api := sample_api;
     write_succeeds := true;
     report_succeeds := true |}.

Definition sample_args : Args :=
  {| start_year := 2020; end_year := 2030; count := 5;
     output := "add_albums.sql"; max_rows := 1000 |}.

Lemma main_writes_generated_sql_witness :
  exists albums sql,
    written (main decimal_int id (sample_world 2021) sample_args) =
      Some ("add_albums.sql"%string, sql) /\
    generate_sql 1000 "2026-01-01 00:00:00" sample_rng albums 10 20 30 = Some sql /\
    length albums = 2%nat.
Proof.
  destruct (main_writes_generated_sql decimal_int id (sample_world 2021) sample_args)
    as (albums & a & b & c & sql & Hids & Hfetch & Hsql & Hwritten & _);
    [by vm_compute|].
  exists albums, sql. injection Hids as <- <- <-.
  split; [exact Hwritten|]. split; [exact Hsql|].
  revert Hfetch. vm_compute. by intros [= <-].
Defined.

Lemma future_start_year_writes_header_witness :
  main decimal_int id (sample_world 2019) sample_args =
    mkRun 0 3 1 0 (Some ("add_albums.sql"%string, _generate_header "2026-01-01 00:00:00")).
Proof.
  apply (future_start_year_writes_header decimal_int id (sample_world 2019) sample_args
           10 20 30 "token"); try reflexivity; simpl; lia.
Defined.

End CommandLineFacts.
